(** * edgeefy: the Canny edge-detection pipeline of [canny.go]

    A shallow embedding of the numeric core of edgeefy (the complete snapshot
    of [canny.go], whose [CannyEdgeDetect] takes the blur flag and the two
    threshold ratios) together with the properties of its stages.

    Modelling conventions.
    - Go [int] is [Z].  Every [int] of the pipeline is an index into, or a
      length of, the image, so 64-bit wrap-around does not occur; [uint] is
      [N].
    - Go [uint8] is a [Z] in [0, 256).  The conversion [uint8(f)] of a
      [float64] discards the fraction; for a value that does not fit, Go
      leaves the result to the implementation, and the gc compiler converts
      to a machine integer and keeps its low eight bits.  That is what
      [uint8_of_Z] writes out.
    - Go [float64] is [Q] with exact arithmetic.  Pixel intensities are
      integers below 256, the Sobel weights are small integers and the blur
      weights are binomial coefficients divided by a power of two, so the
      sums and products of the blur and gradient stages are exact in
      [float64] as well, and the correctly rounded square root of such a value
      has the integer part of the exact square root.  The two operations that
      do round, the scaled arctangent and the product of a threshold ratio
      with the maximum intensity, are parameters of the pipeline (section
      [Pipeline]).
    - A run-time panic (an index out of range or an explicit [panic]) is
      [None]; every function that can panic returns an [option].
    - gonum's [mat.VecDense] is a [list Q], its [mat.Dense] a record of the
      dimensions and the row-major data; [combin.Binomial] is the binomial
      coefficient.
    - golang-set's [mapset.Set] is [gset Point]; the order in which its
      iterator yields the elements is an explicit parameter of the code that
      iterates a set.
    - A slice is a list; the stores [pixels[y][x].y = 0] of the classifier and
      of the linker go into the grid that their caller holds, so these
      functions return the grid along with their results.
    - Of [main.go] the development covers what happens to the result:
      [getImageFromArray] and the choice of the encoder in [writeImage].  The
      standard library's [image.Gray] is a record of its buffer, stride and
      rectangle, [filepath.Ext] is its loop over the path, with the slash as
      the separator; decoding, encoding and the file system are not
      modelled. *)

From Stdlib Require Import ZArith QArith Qround Lia Lqa Ascii String.
From stdpp Require Import base option list list_numbers strings gmap sets.

Open Scope Z_scope.

(** ** Data model *)

(** [type GrayPixel struct { y uint8; a uint8 }] *)
Module GrayPixel.
Record t : Type := mk { y : Z; a : Z }.
End GrayPixel.

#[global] Instance GrayPixel_eq_dec : EqDecision GrayPixel.t.
Proof. solve_decision. Defined.

(** [[][]GrayPixel], indexed [pixels[row][column]]. *)
Abbreviation Image := (list (list GrayPixel.t)).

(** [image.Point{X, Y}] *)
Abbreviation Point := (Z * Z)%type.
Definition X (p : Point) : Z := fst p.
Definition Y (p : Point) : Z := snd p.

(** [type direction int] with its two constants. *)
Inductive direction : Type := HORIZONTAL | VERTICAL.

(** [s[i]] for an [int] index: panics outside [0, len(s)). *)
Definition idx {A : Type} (s : list A) (i : Z) : option A :=
  if decide (0 ≤ i) then s !! Z.to_nat i else None.

(** [len(s)] *)
Definition len {A : Type} (s : list A) : Z := Z.of_nat (length s).

(** [pixels[r][c]] *)
Definition pixelAt (pixels : Image) (r c : Z) : option GrayPixel.t :=
  row ← idx pixels r; idx row c.

(** [pixels[r][c].y = v]: an in-place store into the shared grid. *)
Definition setY (pixels : Image) (r c : Z) (v : Z) : option Image :=
  row ← idx pixels r;
  p ← idx row c;
  Some (<[Z.to_nat r := <[Z.to_nat c := GrayPixel.mk v (GrayPixel.a p)]> row]> pixels).

(** [uint8(f)] for a [float64] whose integer part is [z]: the low eight bits
    of [z]; this is [z] itself when [z] fits eight bits. *)
Definition uint8_of_Z (z : Z) : Z := z mod 256.

(** [uint8(math.Sqrt(f))] for [f >= 0]: the integer part of the square root of
    [f] is the integer square root of the integer part of [f]. *)
Definition uint8_sqrt (f : Q) : Z := uint8_of_Z (Z.sqrt (Qfloor f)).

(** A loop [for ...; ...; ...] whose body updates a state and may panic. *)
Fixpoint foldM {S A : Type} (body : S → A → option S) (s : S) (l : list A) : option S :=
  match l with
  | [] => Some s
  | i :: l => s' ← body s i; foldM body s' l
  end.

(** [abs] *)
Definition abs (x : Z) : Z := if decide (x < 0) then - x else x.

(** ** Hysteresis linker *)

(** [getAdjacentPixels]: the bounds are [int(math.Max(float64(0), float64(x-1)))]
    and so on, exact on image coordinates; the two loops run over
    [minY <= i < maxY] and [minX <= j < maxX]. *)
Definition getAdjacentPixels (pixels : Image) (x y : Z) : option (gset Point) :=
  let height := len pixels in
  row0 ← idx pixels 0;
  let width := len row0 in
  let minX := Z.max 0 (x - 1) in
  let minY := Z.max 0 (y - 1) in
  let maxX := Z.min width (x + 1) in
  let maxY := Z.min height (y + 1) in
  Some (foldl (λ result i,
          foldl (λ result j,
            if decide (i ≠ y ∧ j ≠ x) then {[ (j, i) ]} ∪ result else result)
            result (seqZ minX (maxX - minX)))
        ∅ (seqZ minY (maxY - minY))).

(** One iteration of the loop of [edgeTracking] for the weak pixel
    [weakPoint]; the state is the image and the strong set, both mutated in
    place by the code. *)
Definition edgeTrackingStep (st : Image * gset Point) (weakPoint : Point)
  : option (Image * gset Point) :=
  let '(pixels, strong) := st in
  neighbours ← getAdjacentPixels pixels (X weakPoint) (Y weakPoint);
  let strong' :=
    if decide (0 < size (strong ∩ neighbours))%nat then {[ weakPoint ]} ∪ strong else strong in
  let x := X weakPoint in
  let y := Y weakPoint in
  pixels' ← setY pixels y x 0;
  Some (pixels', strong').

(** [edgeTracking(pixels, strong, weak)]: [order] is the sequence in which
    [weak.Iterator()] yields the elements of [weak].  The result is the
    mutated image and the mutated strong set. *)
Definition edgeTracking (pixels : Image) (strong : gset Point) (order : list Point)
  : option (Image * gset Point) :=
  foldM edgeTrackingStep (pixels, strong) order.

(** ** Border-aware sampler *)

(** [getPixelVector]: the samples are [float64(currentPixel.y)], appended in
    loop order. *)
Definition getPixelVector (pixels : Image) (posY posX length : Z) (dir : direction)
  : option (list Q) :=
  if decide (Z.rem length 2 = 0) then None else
  let padding := Z.quot length 2 in
  match dir with
  | HORIZONTAL =>
      let minX := posX - padding in
      let maxX := posX + padding in
      mapM (λ i,
        row ← idx pixels posY;
        let rowLength := len row in
        currentPixel ←
          (if decide (i < 0) then idx row (posX + abs i)
           else if decide (rowLength ≤ i) then
             let overlap := i - rowLength + 1 in idx row (posX - overlap)
           else idx row i);
        Some (inject_Z (GrayPixel.y currentPixel)))
        (seqZ minX (maxX - minX + 1))
  | VERTICAL =>
      let minY := posY - padding in
      let maxY := posY + padding in
      mapM (λ i,
        let columnLength := len pixels in
        currentPixel ←
          (if decide (i < 0) then pixelAt pixels (posY + abs i) posX
           else if decide (columnLength ≤ i) then
             let overlap := i - columnLength + 1 in pixelAt pixels (posY - overlap) posX
           else pixelAt pixels i posX);
        Some (inject_Z (GrayPixel.y currentPixel)))
        (seqZ minY (maxY - minY + 1))
  end.

(** gonum's [mat.Dense]: dimensions and row-major data. *)
Module Dense.
Record t : Type := mk { rows : Z; cols : Z; data : list Q }.
End Dense.

(** [mat.NewDense(r, c, data)] panics unless [data] has [r*c] elements. *)
Definition NewDense (r c : Z) (data : list Q) : option Dense.t :=
  if decide (0 < r ∧ 0 < c ∧ len data = r * c) then Some (Dense.mk r c data) else None.

(** [m.At(i, j)] *)
Definition At (m : Dense.t) (i j : Z) : option Q :=
  if decide (0 ≤ i < Dense.rows m ∧ 0 ≤ j < Dense.cols m)
  then idx (Dense.data m) (i * Dense.cols m + j) else None.

(** [getSorroundingPixelMatrix] *)
Definition getSorroundingPixelMatrix (pixels : Image) (posY posX length : Z)
  : option Dense.t :=
  if decide (Z.rem length 2 = 0) then None else
  let padding := Z.quot length 2 in
  let minX := posX - padding in
  let minY := posY - padding in
  let maxX := posX + padding in
  let maxY := posY + padding in
  let height := len pixels in
  row0 ← idx pixels 0;
  let width := len row0 in
  values ← mapM (λ y,
    let curY :=
      if decide (y < 0) then posY + abs y
      else if decide (height ≤ y) then
        let overlap := y - height + 1 in posY - overlap
      else y in
    mapM (λ x,
      let curX :=
        if decide (x < 0) then posX + abs x
        else if decide (width ≤ x) then
          let overlap := x - width + 1 in posX - overlap
        else x in
      currentPixel ← pixelAt pixels curY curX;
      Some (inject_Z (GrayPixel.y currentPixel)))
      (seqZ minX (maxX - minX + 1)))
    (seqZ minY (maxY - minY + 1));
  NewDense length length (concat values).

(** ** Kernel builder *)

(** The binomial coefficient, by Pascal's rule. *)
Fixpoint binom (n k : nat) : Z :=
  match k, n with
  | O, _ => 1
  | S _, O => 0
  | S k', S n' => binom n' k' + binom n' k
  end.

(** gonum's [combin.Binomial(n, k)]: panics for negative arguments and for
    [n < k]. *)
Definition Binomial (n k : Z) : option Z :=
  if decide (0 ≤ k ≤ n) then Some (binom (Z.to_nat n) (Z.to_nat k)) else None.

(** [getPascalTriangleRow(index uint)] *)
Definition getPascalTriangleRow (index : N) : option (list Q) :=
  let size := Z.of_N (index + 1) in
  mapM (λ i, b ← Binomial (Z.of_N index) i; Some (inject_Z b)) (seqZ 0 size).

(** [normalizeVec]: [ScaleVec(1/sum, v)]. *)
Definition normalizeVec (v : list Q) : list Q :=
  let sum := foldl Qplus 0%Q v in
  map (Qmult (1 / sum)) v.

(** [innerProduct] *)
Definition innerProduct (pixels kernel : list Q) : option Q :=
  if decide (len pixels ≠ len kernel) then None else
  Some (foldl (λ result pk, (result + fst pk * snd pk)%Q) 0%Q (zip pixels kernel)).

(** [convolve] *)
Definition convolve (m1 m2 : Dense.t) : option Q :=
  if decide (Dense.rows m1 ≠ Dense.rows m2 ∨ Dense.cols m1 ≠ Dense.cols m2) then None else
  foldM (λ result y,
    foldM (λ result x,
      v1 ← At m1 y x; v2 ← At m2 y x; Some (result + v1 * v2)%Q)
      result (seqZ 0 (Dense.cols m1)))
    0%Q (seqZ 0 (Dense.rows m1)).

(** ** Separable blur stage *)

(** [gaussianBlur(pixels, kernelSize uint)] *)
Definition gaussianBlur (pixels : Image) (kernelSize : N) : option Image :=
  if decide (kernelSize mod 2 = 0)%N then None else
  kernel ← getPascalTriangleRow (kernelSize - 1);
  let kernel := normalizeVec kernel in
  mapM (λ y,
    row ← idx pixels y;
    mapM (λ x,
      vecVert ← getPixelVector pixels y x (len kernel) VERTICAL;
      vecHor ← getPixelVector pixels y x (len kernel) HORIZONTAL;
      verticalSum ← innerProduct vecVert kernel;
      horizontalSum ← innerProduct vecHor kernel;
      let combinedRes := uint8_sqrt (verticalSum * verticalSum + horizontalSum * horizontalSum) in
      Some (GrayPixel.mk combinedRes 255))
      (seqZ 0 (len row)))
    (seqZ 0 (len pixels)).

(** ** Non-maximum suppression *)

(** [a < b] on [float64] values. *)
Definition Qlt_bool (a b : Q) : bool := negb (Qle_bool b a).

(** The chained conditionals of [getPixelInGradientDirection]: the
    coordinates [(pY, pX, qY, qX)] selected for the direction value, or a panic
    when the value is outside [-90, 90]. *)
Definition selectNeighbours (dirVal : Q) (x y : Z) : option (Z * Z * Z * Z) :=
  if Qle_bool (-(90)) dirVal && Qlt_bool dirVal (-(135 # 2)) then
    Some (y - 1, x, y + 1, x)
  else if Qle_bool (-(135 # 2)) dirVal && Qlt_bool dirVal (-(45 # 2)) then
    Some (y - 1, x + 1, y + 1, x - 1)
  else if Qle_bool (-(45 # 2)) dirVal && Qlt_bool dirVal (45 # 2) then
    Some (y, x + 1, y, x - 1)
  else if Qle_bool (45 # 2) dirVal && Qlt_bool dirVal (135 # 2) then
    Some (y + 1, x + 1, y - 1, x - 1)
  else if Qle_bool (135 # 2) dirVal && Qle_bool dirVal 90 then
    Some (y + 1, x, y - 1, x)
  else None.

(** [if (c < 0) || (c >= bound) { c = center }] *)
Definition fallback (c bound center : Z) : Z :=
  if decide (c < 0 ∨ bound ≤ c) then center else c.

(** [getPixelInGradientDirection] *)
Definition getPixelInGradientDirection (pixels : Image) (directions : list (list Q))
    (x y : Z) : option (GrayPixel.t * GrayPixel.t) :=
  let height := len pixels in
  row0 ← idx pixels 0;
  let width := len row0 in
  dirRow ← idx directions y;
  dirVal ← idx dirRow x;
  sel ← selectNeighbours dirVal x y;
  let '(pY, pX, qY, qX) := sel in
  let pY := fallback pY height y in
  let pX := fallback pX width x in
  let qY := fallback qY height y in
  let qX := fallback qX width x in
  p ← pixelAt pixels pY pX;
  q ← pixelAt pixels qY qX;
  Some (p, q).

(** [nonMaximumSuppression] *)
Definition nonMaximumSuppression (pixels : Image) (directions : list (list Q))
  : option Image :=
  if decide (len pixels ≠ len directions) then None else
  row0 ← idx pixels 0;
  dirRow0 ← idx directions 0;
  if decide (len row0 ≠ len dirRow0) then None else
  mapM (λ y,
    mapM (λ x,
      r ← pixelAt pixels y x;
      pq ← getPixelInGradientDirection pixels directions x y;
      let '(p, q) := pq in
      if (GrayPixel.y r <? GrayPixel.y p) || (GrayPixel.y r <? GrayPixel.y q)
      then Some (GrayPixel.mk 0 255)
      else Some r)
      (seqZ 0 (len row0)))
    (seqZ 0 (len pixels)).

(** ** Double-threshold classifier *)

(** The body of the inner loop of [doublethreshold] at column [x] of row [y];
    the state is the image (mutated in place) and the two sets. *)
Definition doublethresholdStep (high low : Q) (y : Z)
    (st : Image * gset Point * gset Point) (x : Z)
  : option (Image * gset Point * gset Point) :=
  let '(pixels, strong, weak) := st in
  p ← pixelAt pixels y x;
  let pixVal := inject_Z (GrayPixel.y p) in
  if Qlt_bool high pixVal then
    Some (pixels, {[ (x, y) ]} ∪ strong, weak)
  else if Qlt_bool pixVal high && Qlt_bool low pixVal then
    Some (pixels, strong, {[ (x, y) ]} ∪ weak)
  else
    pixels' ← setY pixels y x 0;
    Some (pixels', strong, weak).

(** [doublethreshold]: returns the strong and the weak set; the image it was
    given is returned as well, since the callers see the stores into it. *)
Definition doublethreshold (pixels : Image) (high low : Q)
  : option (Image * gset Point * gset Point) :=
  foldM (λ st y,
    row0 ← idx (fst (fst st)) 0;
    foldM (doublethresholdStep high low y) st (seqZ 0 (len row0)))
    (pixels, ∅, ∅) (seqZ 0 (len pixels)).

(** [maxPixelValue] *)
Definition maxPixelValue (pixels : Image) : option Z :=
  foldM (λ max y,
    row0 ← idx pixels 0;
    foldM (λ max x,
      p ← pixelAt pixels y x;
      let pixVal := GrayPixel.y p in
      Some (if decide (max < pixVal) then pixVal else max))
      max (seqZ 0 (len row0)))
    0 (seqZ 0 (len pixels)).

(** ** Gradient stage and the pipeline *)

Definition SOBEL_X : list Q := [1; 0; -(1); 2; 0; -(2); 1; 0; -(1)]%Q.
Definition SOBEL_Y : list Q := [1; 2; 1; 0; 0; 0; -(1); -(2); -(1)]%Q.

Section Pipeline.

(** [atanDeg r] is [math.Atan(r) * (180/math.Pi)] as the hardware computes
    it. *)
Variable atanDeg : Q → Q.

(** [fmul a b] is the [float64] product [a*b] as the hardware rounds it. *)
Variable fmul : Q → Q → Q.

(** The order in which [Iterator()] yields the elements of a set. *)
Variable iter : gset Point → list Point.

(** [sobel]: the magnitude image and the direction field. *)
Definition sobel (pixels : Image) : option (Image * list (list Q)) :=
  sobel_X ← NewDense 3 3 SOBEL_X;
  sobel_Y ← NewDense 3 3 SOBEL_Y;
  rows ← mapM (λ y,
    row ← idx pixels y;
    mapM (λ x,
      imagePane ← getSorroundingPixelMatrix pixels y x 3;
      sobelRes_X ← convolve imagePane sobel_X;
      sobelRes_Y ← convolve imagePane sobel_Y;
      let combinedRes :=
        uint8_sqrt (sobelRes_X * sobelRes_X + sobelRes_Y * sobelRes_Y) in
      let angle :=
        if Qeq_bool sobelRes_X 0 || Qeq_bool sobelRes_Y 0 then 0%Q
        else atanDeg (sobelRes_Y / sobelRes_X) in
      Some (GrayPixel.mk combinedRes 255, angle))
      (seqZ 0 (len row)))
    (seqZ 0 (len pixels));
  Some (map (map fst) rows, map (map snd) rows).

(** [CannyEdgeDetect] *)
Definition CannyEdgeDetect (pixels : Image) (blur : bool) (minRatio maxRatio : Q)
  : option Image :=
  pixels ← (if blur then gaussianBlur pixels 5 else Some pixels);
  pa ← sobel pixels;
  let '(pixels, angles) := pa in
  pixels ← nonMaximumSuppression pixels angles;
  max ← maxPixelValue pixels;
  let high := fmul maxRatio (inject_Z max) in
  let low := fmul minRatio (inject_Z max) in
  dt ← doublethreshold pixels high low;
  let '(pixels, strong, weak) := dt in
  et ← edgeTracking pixels strong (iter weak);
  Some (fst et).

End Pipeline.

(** ** Stores and shapes *)

(** The pixel with its intensity replaced. *)
Definition withY (v : Z) (p : GrayPixel.t) : GrayPixel.t :=
  GrayPixel.mk v (GrayPixel.a p).

(** The grid after a store that did not panic. *)
Definition storeY (v : Z) (r c : Z) (pixels : Image) : Image :=
  alter (alter (withY v) (Z.to_nat c)) (Z.to_nat r) pixels.

(** The lengths of the rows: stores never change them. *)
Definition shape (pixels : Image) : list nat := length <$> pixels.

(** The image after a pass of the linker: every visited pixel is set to
    zero. *)
Definition blacken (pixels : Image) (order : list Point) : option Image :=
  foldM (λ pixels w, setY pixels (Y w) (X w) 0) pixels order.

(** ** Predicates on images *)

(** All rows have [width] pixels. *)
Definition rectangular (width : Z) (pixels : Image) : Prop :=
  Forall (λ row, len row = width) pixels.

(** Every pixel has opacity 255. *)
Definition opaque (pixels : Image) : Prop :=
  Forall (Forall (λ p, GrayPixel.a p = 255)) pixels.

(** Every pixel has intensity [c]. *)
Definition constant (c : Z) (pixels : Image) : Prop :=
  Forall (Forall (λ p, GrayPixel.y p = c)) pixels.

(** Every direction lies in [-90, 90]. *)
Definition in_range (directions : list (list Q)) : Prop :=
  Forall (Forall (λ d, -(90) <= d ∧ d <= 90)%Q) directions.

(** ** The classes of the double threshold *)

Inductive edgeClass : Type := Strong | Weak | Suppressed.

(** The branch that the chained conditionals of [doublethreshold] take for
    a pixel of intensity [v]. *)
Definition classify (high low : Q) (v : Z) : edgeClass :=
  let pixVal := inject_Z v in
  if Qlt_bool high pixVal then Strong
  else if Qlt_bool pixVal high && Qlt_bool low pixVal then Weak
  else Suppressed.

(** The pixel that [doublethreshold] leaves in the image. *)
Definition classified (high low : Q) (p : GrayPixel.t) : GrayPixel.t :=
  match classify high low (GrayPixel.y p) with
  | Suppressed => withY 0 p
  | _ => p
  end.

(** The pixels that the two loops of [doublethreshold] have been through when
    they are about to visit column [xc] of row [yc]. *)
Definition visited (yc xc x y : Z) : Prop := y < yc ∨ (y = yc ∧ x < xc).

#[global] Instance visited_dec (yc xc x y : Z) : Decision (visited yc xc x y).
Proof. unfold visited. apply _. Defined.

(** The state of [doublethreshold] when it is about to visit column [xc] of
    row [yc] of the image [pixels]: the loop invariant. *)
Definition doublethreshold_inv (pixels : Image) (high low : Q) (yc xc : Z)
    (st : Image * gset Point * gset Point) : Prop :=
  let '(pixels', strong, weak) := st in
  shape pixels' = shape pixels ∧
  (∀ x y p, pixelAt pixels y x = Some p →
     pixelAt pixels' y x =
       Some (if decide (visited yc xc x y) then classified high low p else p)) ∧
  (∀ c, c ∈ strong ↔
     ∃ p, pixelAt pixels (Y c) (X c) = Some p ∧ visited yc xc (X c) (Y c) ∧
          classify high low (GrayPixel.y p) = Strong) ∧
  (∀ c, c ∈ weak ↔
     ∃ p, pixelAt pixels (Y c) (X c) = Some p ∧ visited yc xc (X c) (Y c) ∧
          classify high low (GrayPixel.y p) = Weak).

(** ** Sample images *)

(** An opaque pixel of the given intensity. *)
Definition px (v : Z) : GrayPixel.t := GrayPixel.mk v 255.

(** The flat image of the given size and intensity. *)
Definition flat_image (height width : nat) (c : Z) : Image :=
  replicate height (replicate width (px c)).

(** A weak centre whose right, left, lower, upper and three of its diagonal
    neighbours are strong; only the upper-left neighbour is dark. *)
Definition ring_image : Image :=
  map (map px) [[0; 200; 200]; [200; 100; 200]; [200; 200; 200]].

(** A strong pixel at (0,0) followed by two weak pixels down the diagonal. *)
Definition chain_image : Image :=
  map (map px) [[200; 0; 0]; [0; 100; 0]; [0; 0; 100]].

(** A 5x5 grid whose interior rises towards the lower right. *)
Definition ramp_image : Image :=
  map (map px)
    [[0; 0; 0; 0; 0]; [0; 10; 20; 30; 0]; [0; 20; 60; 70; 0];
     [0; 30; 70; 90; 0]; [0; 0; 0; 0; 0]].

(** One row of five distinct intensities. *)
Definition row_image : Image := [map px [10; 20; 30; 40; 50]].

(** A 5x5 grid whose pixel in row r and column c has intensity 10*r + c. *)
Definition grid_image : Image :=
  map (map px)
    [[0; 1; 2; 3; 4]; [10; 11; 12; 13; 14]; [20; 21; 22; 23; 24];
     [30; 31; 32; 33; 34]; [40; 41; 42; 43; 44]].

(** A vertical step edge from black to white. *)
Definition step_image : Image :=
  map (map px) [[0; 0; 255]; [0; 0; 255]; [0; 0; 255]].

(** A flat 3x3 image whose pixels have opacity 7. *)
Definition translucent_image : Image :=
  replicate 3 (replicate 3 (GrayPixel.mk 100 7)).

(** A 2x2 image, a direction field that puts its upper-left pixel in the bin
    [-67.5, -22.5), and one that puts it in [-22.5, 22.5). *)
Definition corner_image : Image := map (map px) [[10; 20]; [30; 40]].
Definition diagonal_directions : list (list Q) := [[-(45); 0]; [0; 0]]%Q.
Definition level_directions : list (list Q) := [[0; 0]; [0; 0]]%Q.

(** One row with a pixel equal to the high threshold 100, one above it, one
    equal to the low threshold 50 and one in between. *)
Definition threshold_image : Image := [map px [100; 200; 50; 60]].

(** ** Writing the result

    The part of [main.go] that turns the pixel array into an [image.Gray]
    and chooses the encoder. *)

(** [image.Rectangle]: the corners [Min] and [Max]. *)
Module Rectangle.
Record t : Type := mk { MinX : Z; MinY : Z; MaxX : Z; MaxY : Z }.
End Rectangle.

(** [image.Rect(x0, y0, x1, y1)]: the corners are put in order. *)
Definition Rect (x0 y0 x1 y1 : Z) : Rectangle.t :=
  let '(x0, x1) := if decide (x1 < x0) then (x1, x0) else (x0, x1) in
  let '(y0, y1) := if decide (y1 < y0) then (y1, y0) else (y0, y1) in
  Rectangle.mk x0 y0 x1 y1.

(** [r.Dx()] and [r.Dy()] *)
Definition Dx (r : Rectangle.t) : Z := Rectangle.MaxX r - Rectangle.MinX r.
Definition Dy (r : Rectangle.t) : Z := Rectangle.MaxY r - Rectangle.MinY r.

(** [Point{x, y}.In(r)] *)
Definition In (x y : Z) (r : Rectangle.t) : Prop :=
  Rectangle.MinX r ≤ x ∧ x < Rectangle.MaxX r ∧
  Rectangle.MinY r ≤ y ∧ y < Rectangle.MaxY r.

#[global] Instance In_dec (x y : Z) (r : Rectangle.t) : Decision (In x y r).
Proof. unfold In. apply _. Defined.

(** [image.Gray]: one byte per pixel, row after row. *)
Module Gray.
Record t : Type := mk { Pix : list Z; Stride : Z; Rect : Rectangle.t }.
End Gray.

(** [image.NewGray(r)]: a cleared buffer of [r.Dx() * r.Dy()] bytes. *)
Definition NewGray (r : Rectangle.t) : Gray.t :=
  Gray.mk (replicate (Z.to_nat (Dx r * Dy r)) 0) (Dx r) r.

(** [p.PixOffset(x, y)] *)
Definition PixOffset (p : Gray.t) (x y : Z) : Z :=
  (y - Rectangle.MinY (Gray.Rect p)) * Gray.Stride p + (x - Rectangle.MinX (Gray.Rect p)).

(** [p.SetGray(x, y, color.Gray{c})]: a store outside the rectangle is
    ignored. *)
Definition SetGray (p : Gray.t) (x y : Z) (c : Z) : option Gray.t :=
  if decide (In x y (Gray.Rect p)) then
    let i := PixOffset p x y in
    _ ← idx (Gray.Pix p) i;
    Some (Gray.mk (<[Z.to_nat i := c]> (Gray.Pix p)) (Gray.Stride p) (Gray.Rect p))
  else Some p.

(** [p.GrayAt(x, y).Y]: zero outside the rectangle. *)
Definition GrayAt (p : Gray.t) (x y : Z) : option Z :=
  if decide (In x y (Gray.Rect p)) then idx (Gray.Pix p) (PixOffset p x y)
  else Some 0.

(** [getImageFromArray] *)
Definition getImageFromArray (pixels : Image) : option Gray.t :=
  row0 ← idx pixels 0;
  let bounds := Rect 0 0 (len row0) (len pixels) in
  let img := NewGray bounds in
  foldM (λ img y,
    row ← idx pixels y;
    foldM (λ img x,
      p ← pixelAt pixels y x;
      SetGray img x y (GrayPixel.y p))
      img (seqZ 0 (len row)))
    img (seqZ 0 (len pixels)).

(** [os.IsPathSeparator] where the separator is the slash. *)
Definition IsPathSeparator (c : Ascii.ascii) : bool := Ascii.eqb c "/"%char.

(** The loop of [filepath.Ext] when [n] characters are left to look at: the
    index [i] of the code is [n - 1]. *)
Fixpoint Ext_loop (path : string) (n : nat) : string :=
  match n with
  | O => ""%string
  | S i =>
      match String.get i path with
      | Some c =>
          if IsPathSeparator c then ""%string
          else if Ascii.eqb c "."%char then String.substring i (String.length path - i) path
          else Ext_loop path i
      | None => ""%string
      end
  end.

(** [filepath.Ext(path)] *)
Definition Ext (path : string) : string := Ext_loop path (String.length path).

(** The encoder that [writeImage] hands the image to. *)
Inductive encoder : Type := PNG | JPEG (quality : Z).

(** [writeImage]: the encoder chosen for the path and the image handed to
    it.  The file is created and written by [os.Create] and the encoder; a
    failure of either ends the program and is not part of the model. *)
Definition writeImage (pixels : Image) (path : string) : option (encoder * Gray.t) :=
  grayImg ← getImageFromArray pixels;
  let ext := Ext path in
  if decide (ext = "png"%string) then Some (PNG, grayImg)
  else Some (JPEG 95, grayImg).

(** ** Further predicates and samples *)

(** The state of [maxPixelValue] when it is about to visit column [xc] of
    row [yc]: the loop invariant. *)
Definition maxPixelValue_inv (pixels : Image) (yc xc : Z) (max : Z) : Prop :=
  0 ≤ max ∧
  (∀ x y p, pixelAt pixels y x = Some p → visited yc xc x y → GrayPixel.y p ≤ max) ∧
  (max = 0 ∨ ∃ x y p, pixelAt pixels y x = Some p ∧ GrayPixel.y p = max).

(** The pixel kept when its intensity is above [high], with its intensity set
    to zero otherwise. *)
Definition thresholded (high : Q) (p : GrayPixel.t) : GrayPixel.t :=
  if Qlt_bool high (inject_Z (GrayPixel.y p)) then p else withY 0 p.

(** The index [i] reflected into [0, n) about the first and the last index:
    [-1] becomes [1] and [n] becomes [n - 2]. *)
Definition reflect (i n : Z) : Z :=
  if decide (i < 0) then - i
  else if decide (n ≤ i) then 2 * (n - 1) - i
  else i.

(** Every row has one intensity: the intensity changes from row to row
    only. *)
Definition row_constant (pixels : Image) : Prop :=
  Forall (λ row, ∃ c, Forall (λ p, GrayPixel.y p = c) row) pixels.

(** A direction field for the 5x5 samples: every gradient points to the
    lower right. *)
Definition slanted_directions : list (list Q) := replicate 5 (replicate 5 45%Q).

(** Three rows of one intensity each. *)
Definition rows_image : Image :=
  map (map px) [[10; 10; 10]; [50; 50; 50]; [200; 200; 200]].

(** * Properties *)

#[global] Arguments edgeTrackingStep : simpl never.
#[global] Arguments doublethresholdStep : simpl never.
#[global] Arguments getAdjacentPixels : simpl never.
#[global] Arguments setY : simpl never.
#[global] Arguments pixelAt : simpl never.

(** ** Indexing and loops *)

(** Runs through the successive binds of a body that returned. *)
Ltac destruct_binds H :=
  repeat match type of H with
         | (?o ≫= _) = Some _ => destruct o; simpl in H; [|done]
         end.

Section Indexing.
Context {A : Type}.
Implicit Types (s : list A) (i : Z) (v : A).

Lemma idx_Some s i v : idx s i = Some v ↔ 0 ≤ i ∧ s !! Z.to_nat i = Some v.
Proof. unfold idx. case_decide; naive_solver. Qed.

Lemma idx_bounds s i v : idx s i = Some v → 0 ≤ i < len s.
Proof.
  rewrite idx_Some. intros [Hi Hl]. apply lookup_lt_Some in Hl. unfold len. split; [done|].
  apply Z2Nat.inj_lt; [done | apply Nat2Z.is_nonneg |]. by rewrite Nat2Z.id.
Qed.

Lemma idx_is_Some s i : is_Some (idx s i) ↔ 0 ≤ i < len s.
Proof.
  split.
  - intros [v Hv]. by eapply idx_bounds.
  - intros [Hi Hl]. unfold idx, len in *. rewrite decide_True by done.
    apply lookup_lt_is_Some. lia.
Qed.

Lemma idx_None s i : idx s i = None ↔ ¬ (0 ≤ i < len s).
Proof. rewrite <- idx_is_Some, eq_None_not_Some. done. Qed.

Lemma idx_of_nat s (n : nat) : idx s (Z.of_nat n) = s !! n.
Proof. unfold idx. rewrite decide_True by lia. by rewrite Nat2Z.id. Qed.

End Indexing.

Lemma foldM_app {S A : Type} (body : S → A → option S) (s : S) (l1 l2 : list A) :
  foldM body s (l1 ++ l2) = (s' ← foldM body s l1; foldM body s' l2).
Proof.
  revert s. induction l1 as [|i l1 IH]; intros s; simpl; [done|].
  destruct (body s i) as [s'|]; simpl; [apply IH | done].
Qed.

(** The loop rule: an invariant indexed by the iterations already done, which
    every iteration re-establishes without panicking, holds of the final
    state when the loop is over. *)
Lemma foldM_invariant {S A : Type} (Inv : list A → S → Prop)
    (body : S → A → option S) (l : list A) (s : S) :
  Inv [] s →
  (∀ done i rest s, l = done ++ i :: rest → Inv done s →
     ∃ s', body s i = Some s' ∧ Inv (done ++ [i]) s') →
  ∃ s', foldM body s l = Some s' ∧ Inv l s'.
Proof.
  intros H0 Hstep.
  assert (∀ rest done s, l = done ++ rest → Inv done s →
            ∃ s', foldM body s rest = Some s' ∧ Inv l s') as Hgen.
  { induction rest as [|i rest IH]; intros done s0 Hl Hinv.
    - rewrite app_nil_r in Hl. subst done. by exists s0.
    - destruct (Hstep done i rest s0 Hl Hinv) as (s1 & Hb & Hinv1).
      destruct (IH (done ++ [i]) s1) as (s2 & Hf & Hinv2); [by rewrite <- app_assoc | done |].
      exists s2. simpl. rewrite Hb. simpl. done. }
  by apply (Hgen l [] s).
Qed.

Lemma seqZ_one (m : Z) : seqZ m 1 = [m].
Proof. done. Qed.

Lemma seqZ_two (m : Z) : seqZ m 2 = [m; m + 1].
Proof.
  unfold seqZ. simpl. change (Z.of_nat 0) with 0. change (Z.of_nat 1) with 1.
  by rewrite (Z.add_comm 1 m).
Qed.

Lemma seqZ_split (n : Z) (done : list Z) (i : Z) (rest : list Z) :
  seqZ 0 n = done ++ i :: rest → i = len done ∧ 0 ≤ i < n.
Proof.
  intros Hl.
  assert (seqZ 0 n !! length done = Some i) as Hi.
  { rewrite Hl. by apply list_lookup_middle. }
  apply lookup_seqZ in Hi. unfold len. lia.
Qed.

Lemma len_snoc {A : Type} (l : list A) (x : A) : len (l ++ [x]) = len l + 1.
Proof. unfold len. rewrite length_app. simpl. lia. Qed.

Lemma odd_length_padding (length : Z) :
  0 ≤ length → Z.rem length 2 ≠ 0 →
  2 * Z.quot length 2 + 1 = length ∧ 0 ≤ Z.quot length 2.
Proof.
  intros Hl Hr. pose proof (Z.quot_rem' length 2) as Hq.
  pose proof (Z.rem_bound_pos length 2 Hl ltac:(lia)) as Hb. lia.
Qed.

(** ** Rectangular images *)

Lemma pixelAt_nonneg (pixels : Image) (y x : Z) (p : GrayPixel.t) :
  pixelAt pixels y x = Some p → 0 ≤ y ∧ 0 ≤ x.
Proof.
  unfold pixelAt. intros Hp.
  destruct (idx pixels y) as [row|] eqn:Hrow; simplify_eq/=.
  apply idx_bounds in Hrow, Hp. lia.
Qed.

Lemma rectangular_pixelAt (width : Z) (pixels : Image) (y x : Z) :
  rectangular width pixels →
  is_Some (pixelAt pixels y x) ↔ 0 ≤ y < len pixels ∧ 0 ≤ x < width.
Proof.
  intros Hrect. unfold pixelAt. split.
  - intros [p Hp]. destruct (idx pixels y) as [row|] eqn:Hrow; simplify_eq/=.
    pose proof (idx_bounds _ _ _ Hrow) as Hy. apply idx_bounds in Hp.
    apply idx_Some in Hrow as [_ Hrow].
    unfold rectangular in Hrect. rewrite Forall_lookup in Hrect.
    specialize (Hrect _ _ Hrow). simpl in Hrect. lia.
  - intros [Hy Hx]. apply idx_is_Some in Hy as [row Hrow]. rewrite Hrow. simpl.
    apply idx_is_Some. apply idx_Some in Hrow as [_ Hrow].
    unfold rectangular in Hrect. rewrite Forall_lookup in Hrect.
    specialize (Hrect _ _ Hrow). simpl in Hrect. lia.
Qed.

Lemma rectangular_row (width : Z) (pixels : Image) (r : Z) (row : list GrayPixel.t) :
  rectangular width pixels → idx pixels r = Some row → len row = width.
Proof.
  intros Hrect Hrow. apply idx_Some in Hrow as [_ Hrow].
  unfold rectangular in Hrect. rewrite Forall_lookup in Hrect.
  apply (Hrect _ _ Hrow).
Qed.

(** ** The arithmetic of the model *)

(** [uint8_sqrt f] is the integer part of the square root of [f] as long as
    that fits eight bits. *)
Lemma uint8_sqrt_integer_part (f : Q) :
  (0 <= f)%Q → Z.sqrt (Qfloor f) < 256 →
  let r := uint8_sqrt f in
  (inject_Z (r * r) <= f ∧ f < inject_Z ((r + 1) * (r + 1)))%Q.
Proof.
  intros Hf Hfit.
  assert (0 ≤ Qfloor f) as Hfloor.
  { rewrite <- (Qfloor_Z 0). by apply Qfloor_resp_le. }
  pose proof (Z.sqrt_nonneg (Qfloor f)) as Hr.
  pose proof (Z.sqrt_spec (Qfloor f) Hfloor) as [Hlo Hhi].
  unfold uint8_sqrt, uint8_of_Z. rewrite Z.mod_small by lia. simpl. split.
  - apply Qle_trans with (inject_Z (Qfloor f)); [|apply Qfloor_le].
    rewrite <- Zle_Qle. lia.
  - apply Qlt_le_trans with (inject_Z (Qfloor f + 1)); [apply Qlt_floor|].
    rewrite <- Zle_Qle. lia.
Qed.

(** The kernel of the pipeline's blur. *)
Lemma kernel_of_size_5 :
  (map Qred ∘ normalizeVec) <$> getPascalTriangleRow 4 =
    Some [1 # 16; 1 # 4; 3 # 8; 1 # 4; 1 # 16]%Q.
Proof. vm_compute. reflexivity. Qed.

(** ** The neighbour set of the hysteresis linker *)

(** C10. For every image and every in-bounds coordinate (x, y), the set
    computed by [getAdjacentPixels] holds at most one coordinate: the
    upper-left diagonal neighbour (x-1, y-1) when it lies inside the image, and
    nothing when x = 0 or y = 0. *)
Theorem getAdjacentPixels_upper_left_only
    (pixels : Image) (row0 : list GrayPixel.t) (x y : Z) :
  idx pixels 0 = Some row0 →
  0 ≤ x < len row0 →
  0 ≤ y < len pixels →
  getAdjacentPixels pixels x y =
    Some (if decide (1 ≤ x ∧ 1 ≤ y) then {[ (x - 1, y - 1) ]} else ∅).
Proof.
  intros Hrow Hx Hy. unfold getAdjacentPixels. rewrite Hrow. simpl. f_equal.
  rewrite (Z.min_r _ (x + 1)), (Z.min_r _ (y + 1)) by lia.
  destruct (decide (1 ≤ x)) as [Hx1|Hx1], (decide (1 ≤ y)) as [Hy1|Hy1].
  - rewrite !Z.max_r by lia.
    replace (y + 1 - (y - 1)) with 2 by lia. replace (x + 1 - (x - 1)) with 2 by lia.
    rewrite decide_True by done. rewrite !seqZ_two. cbn.
    repeat case_decide; try lia. set_solver.
  - rewrite (Z.max_r _ (x - 1)), (Z.max_l _ (y - 1)) by lia.
    replace (y + 1 - 0) with 1 by lia. replace (x + 1 - (x - 1)) with 2 by lia.
    rewrite decide_False by lia. rewrite ?seqZ_two, ?seqZ_one. cbn.
    repeat case_decide; try lia; done.
  - rewrite (Z.max_l _ (x - 1)), (Z.max_r _ (y - 1)) by lia.
    replace (x + 1 - 0) with 1 by lia. replace (y + 1 - (y - 1)) with 2 by lia.
    rewrite decide_False by lia. rewrite ?seqZ_two, ?seqZ_one. cbn.
    repeat case_decide; try lia; done.
  - rewrite (Z.max_l _ (x - 1)), (Z.max_l _ (y - 1)) by lia.
    replace (x + 1 - 0) with 1 by lia. replace (y + 1 - 0) with 1 by lia.
    rewrite decide_False by lia. rewrite ?seqZ_two, ?seqZ_one. cbn.
    repeat case_decide; try lia; done.
Qed.

(** ** In-place stores *)

Lemma insert_as_alter {A : Type} (f : A → A) (l : list A) (i : nat) (x : A) :
  l !! i = Some x → <[i := f x]> l = alter f i l.
Proof.
  intros Hl. rewrite list_insert_alter. apply list_alter_ext; [|done].
  intros x' Hx'. congruence.
Qed.

Lemma setY_storeY (pixels : Image) (r c v : Z) :
  setY pixels r c v = (_ ← pixelAt pixels r c; Some (storeY v r c pixels)).
Proof.
  unfold setY, pixelAt, storeY.
  destruct (idx pixels r) as [row|] eqn:Hr; simpl; [|done].
  destruct (idx row c) as [p|] eqn:Hc; simpl; [|done].
  apply idx_Some in Hr as [_ Hr]. apply idx_Some in Hc as [_ Hc].
  f_equal. rewrite <- (insert_as_alter _ _ _ _ Hr). f_equal.
  by apply (insert_as_alter (withY v)).
Qed.

Lemma shape_storeY (v r c : Z) (pixels : Image) :
  shape (storeY v r c pixels) = shape pixels.
Proof.
  unfold shape, storeY. apply list_eq. intros i.
  rewrite !list_lookup_fmap, list_lookup_alter.
  case_decide as Hi; [subst i|done].
  destruct (pixels !! Z.to_nat r); simpl; [|done]. by rewrite length_alter.
Qed.

Lemma shape_len (p1 p2 : Image) : shape p1 = shape p2 → len p1 = len p2.
Proof.
  unfold shape, len. intros H. f_equal.
  by rewrite <- (length_fmap length p1), H, length_fmap.
Qed.

Lemma shape_idx (p1 p2 : Image) (r : Z) :
  shape p1 = shape p2 → len <$> idx p1 r = len <$> idx p2 r.
Proof.
  unfold shape, idx, len. intros H. case_decide; [|done].
  assert (length <$> p1 !! Z.to_nat r = length <$> p2 !! Z.to_nat r) as Hl.
  { by rewrite <- !list_lookup_fmap, H. }
  destruct (p1 !! Z.to_nat r), (p2 !! Z.to_nat r); simplify_eq/=; [|done].
  by rewrite Hl.
Qed.

Lemma pixelAt_is_Some_shape (p1 p2 : Image) (r c : Z) :
  shape p1 = shape p2 → is_Some (pixelAt p1 r c) → is_Some (pixelAt p2 r c).
Proof.
  intros Hs [p Hp]. unfold pixelAt in *.
  pose proof (shape_idx _ _ r Hs) as Hr.
  destruct (idx p1 r) as [row1|] eqn:H1; simplify_eq/=.
  destruct (idx p2 r) as [row2|] eqn:H2; simplify_eq/=.
  apply idx_is_Some. rewrite <- Hr. by eapply idx_bounds.
Qed.

Lemma getAdjacentPixels_shape (p1 p2 : Image) (x y : Z) :
  shape p1 = shape p2 → getAdjacentPixels p1 x y = getAdjacentPixels p2 x y.
Proof.
  intros Hs. unfold getAdjacentPixels.
  rewrite (shape_len _ _ Hs). pose proof (shape_idx _ _ 0 Hs) as Hr.
  destruct (idx p1 0), (idx p2 0); simplify_eq/=; [|done]. by rewrite Hr.
Qed.

Lemma pixelAt_storeY (v r c : Z) (pixels : Image) (r' c' : Z) :
  0 ≤ r → 0 ≤ c →
  pixelAt (storeY v r c pixels) r' c' =
    if decide (r' = r ∧ c' = c) then withY v <$> pixelAt pixels r' c'
    else pixelAt pixels r' c'.
Proof.
  intros Hr Hc. unfold pixelAt, storeY, idx.
  destruct (decide (0 ≤ r')) as [Hr'|Hr']; [|by rewrite decide_False by lia].
  rewrite list_lookup_alter.
  destruct (decide (Z.to_nat r = Z.to_nat r')) as [Hrr|Hrr];
    [|by rewrite decide_False by lia].
  assert (r' = r) as -> by lia.
  destruct (pixels !! Z.to_nat r) as [row|]; simpl; [|by destruct (decide _)].
  destruct (decide (0 ≤ c')) as [Hc'|Hc']; [|by rewrite decide_False by lia].
  rewrite list_lookup_alter.
  destruct (decide (Z.to_nat c = Z.to_nat c')) as [Hcc|Hcc];
    [|by rewrite decide_False by lia].
  assert (c' = c) as -> by lia. by rewrite decide_True.
Qed.

Lemma alter_alter_comm {A : Type} (f g : A → A) (l : list A) (i j : nat) :
  (∀ x, f (g x) = g (f x)) →
  alter f i (alter g j l) = alter g j (alter f i l).
Proof.
  intros Hfg. destruct (decide (i = j)) as [->|Hij].
  - rewrite !list_alter_alter_eq. apply list_alter_ext; [|done]. intros x _. apply Hfg.
  - by apply list_alter_alter_ne.
Qed.

Lemma storeY_comm (v r1 c1 r2 c2 : Z) (pixels : Image) :
  storeY v r1 c1 (storeY v r2 c2 pixels) = storeY v r2 c2 (storeY v r1 c1 pixels).
Proof.
  unfold storeY. apply alter_alter_comm. intros row.
  by apply alter_alter_comm.
Qed.

(** ** One pass of the hysteresis linker *)

Lemma intersects_iff (strong neighbours : gset Point) :
  (0 < size (strong ∩ neighbours))%nat ↔ ∃ n, n ∈ neighbours ∧ n ∈ strong.
Proof.
  split.
  - intros H. apply size_pos_elem_of in H as [n Hn]. exists n. set_solver.
  - intros (n & Hn1 & Hn2).
    assert (size (strong ∩ neighbours) ≠ 0%nat); [|lia].
    apply size_non_empty_iff. set_solver.
Qed.

(** What one iteration does when it does not panic. *)
Lemma edgeTrackingStep_Some (pixels : Image) (strong : gset Point) (w : Point)
    (pixels' : Image) (strong' : gset Point) :
  edgeTrackingStep (pixels, strong) w = Some (pixels', strong') →
  ∃ neighbours,
    getAdjacentPixels pixels (X w) (Y w) = Some neighbours ∧
    is_Some (pixelAt pixels (Y w) (X w)) ∧
    pixels' = storeY 0 (Y w) (X w) pixels ∧
    strong' = (if decide (0 < size (strong ∩ neighbours))%nat
               then {[ w ]} ∪ strong else strong).
Proof.
  unfold edgeTrackingStep. rewrite setY_storeY.
  destruct (getAdjacentPixels pixels (X w) (Y w)) as [nb|]; simpl; [|done].
  destruct (pixelAt pixels (Y w) (X w)) as [p|]; simpl; [|done].
  intros [= <- <-]. exists nb. eauto.
Qed.

Lemma edgeTracking_shape (order : list Point) (pixels : Image) (strong : gset Point)
    (pixels' : Image) (strong' : gset Point) :
  edgeTracking pixels strong order = Some (pixels', strong') →
  shape pixels' = shape pixels.
Proof.
  unfold edgeTracking. revert pixels strong.
  induction order as [|w order IH]; intros pixels strong; simpl.
  - by intros [= <- <-].
  - destruct (edgeTrackingStep (pixels, strong) w) as [[px1 s1]|] eqn:Hstep; simpl; [|done].
    intros Hrest. apply IH in Hrest. rewrite Hrest.
    apply edgeTrackingStep_Some in Hstep as (nb & _ & _ & -> & _).
    apply shape_storeY.
Qed.

(** The strong set only grows, and only by pixels the pass visits. *)
Lemma edgeTracking_strong_bounds (order : list Point) (pixels : Image)
    (strong : gset Point) (pixels' : Image) (strong' : gset Point) :
  edgeTracking pixels strong order = Some (pixels', strong') →
  strong ⊆ strong' ∧ strong' ⊆ strong ∪ list_to_set order.
Proof.
  unfold edgeTracking. revert pixels strong.
  induction order as [|w order IH]; intros pixels strong; simpl.
  - intros [= <- <-]. set_solver.
  - destruct (edgeTrackingStep (pixels, strong) w) as [[px1 s1]|] eqn:Hstep; simpl; [|done].
    intros Hrest. apply IH in Hrest as [Hlo Hhi].
    apply edgeTrackingStep_Some in Hstep as (nb & _ & _ & _ & ->).
    case_decide; set_solver.
Qed.

Lemma edgeTrackingStep_image (pixels : Image) (strong : gset Point) (w : Point) :
  fst <$> edgeTrackingStep (pixels, strong) w = setY pixels (Y w) (X w) 0.
Proof.
  unfold edgeTrackingStep.
  destruct (getAdjacentPixels pixels (X w) (Y w)) as [nb|] eqn:Hnb; simpl.
  - by destruct (setY pixels (Y w) (X w) 0).
  - unfold getAdjacentPixels in Hnb.
    destruct (idx pixels 0) as [row0|] eqn:H0; simplify_eq/=.
    apply idx_None in H0. unfold setY.
    destruct (idx pixels (Y w)) as [row|] eqn:Hr; simpl; [|done].
    apply idx_bounds in Hr. lia.
Qed.

Lemma edgeTracking_image (order : list Point) (pixels : Image) (strong : gset Point) :
  fst <$> edgeTracking pixels strong order = blacken pixels order.
Proof.
  unfold edgeTracking, blacken. revert pixels strong.
  induction order as [|w order IH]; intros pixels strong; simpl; [done|].
  rewrite <- (edgeTrackingStep_image pixels strong w).
  destruct (edgeTrackingStep (pixels, strong) w) as [[px1 s1]|]; simpl; [apply IH|done].
Qed.

Lemma setY_swap (pixels : Image) (r1 c1 r2 c2 v : Z) :
  (p1 ← setY pixels r1 c1 v; setY p1 r2 c2 v) =
  (p2 ← setY pixels r2 c2 v; setY p2 r1 c1 v).
Proof.
  rewrite (setY_storeY pixels r1 c1), (setY_storeY pixels r2 c2).
  destruct (pixelAt pixels r1 c1) as [q1|] eqn:H1;
    destruct (pixelAt pixels r2 c2) as [q2|] eqn:H2; simpl; rewrite ?setY_storeY.
  - destruct (pixelAt_is_Some_shape pixels (storeY v r1 c1 pixels) r2 c2) as [? ->];
      [by rewrite shape_storeY | by eauto |].
    destruct (pixelAt_is_Some_shape pixels (storeY v r2 c2 pixels) r1 c1) as [? ->];
      [by rewrite shape_storeY | by eauto |].
    simpl. f_equal. apply storeY_comm.
  - destruct (pixelAt (storeY v r1 c1 pixels) r2 c2) eqn:H3; simpl; [|done].
    destruct (pixelAt_is_Some_shape (storeY v r1 c1 pixels) pixels r2 c2) as [? ?];
      [apply shape_storeY | by eauto | congruence].
  - destruct (pixelAt (storeY v r2 c2 pixels) r1 c1) eqn:H3; simpl; [|done].
    destruct (pixelAt_is_Some_shape (storeY v r2 c2 pixels) pixels r1 c1) as [? ?];
      [apply shape_storeY | by eauto | congruence].
  - done.
Qed.

Lemma blacken_Permutation (o1 o2 : list Point) :
  o1 ≡ₚ o2 → ∀ pixels, blacken pixels o1 = blacken pixels o2.
Proof.
  unfold blacken. induction 1 as [|w o1 o2 _ IH|w1 w2 o|o1 o2 o3 _ IH1 _ IH2];
    intros pixels; simpl.
  - done.
  - destruct (setY pixels (Y w) (X w) 0); simpl; [apply IH|done].
  - pose proof (setY_swap pixels (Y w2) (X w2) (Y w1) (X w1) 0) as Hswap.
    destruct (setY pixels (Y w2) (X w2) 0) as [pa|];
      destruct (setY pixels (Y w1) (X w1) 0) as [pb|]; simpl in *.
    + by rewrite Hswap.
    + by rewrite Hswap.
    + by rewrite <- Hswap.
    + done.
  - by rewrite IH1.
Qed.

Lemma getAdjacentPixels_upper_left_only_witness :
  getAdjacentPixels chain_image 2 2 =
    Some (if decide (1 ≤ 2 ∧ 1 ≤ 2) then {[ (2 - 1, 2 - 1) ]} else ∅).
Proof.
  apply (getAdjacentPixels_upper_left_only chain_image (map px [200; 0; 0]) 2 2).
  - reflexivity.
  - vm_compute. split; [discriminate | reflexivity].
  - vm_compute. split; [discriminate | reflexivity].
Defined.

(** C1. The neighbour set handed to the linker is the one of
    [getAdjacentPixels], which holds the upper-left neighbour only: the weak
    centre of [ring_image] has seven strong 8-neighbours (left, right, top,
    bottom and three diagonals) and is not promoted. *)
Theorem edgeTracking_ignores_seven_neighbours :
  let strong : gset Point :=
    list_to_set [(1, 0); (2, 0); (0, 1); (2, 1); (0, 2); (1, 2); (2, 2)] in
  doublethreshold ring_image 150 50 = Some (ring_image, strong, {[ (1, 1) ]}) ∧
  getAdjacentPixels ring_image 1 1 = Some {[ (0, 0) ]} ∧
  edgeTracking ring_image strong [(1, 1)] =
    Some (map (map px) [[0; 200; 200]; [200; 0; 200]; [200; 200; 200]], strong).
Proof. vm_compute. done. Qed.

(** C8, as stated, fails: with the strong set {(0,0)} and the weak pixels
    visited in the order (1,1), (2,2), the pixel (2,2) is promoted although
    its only neighbour (1,1) is not in the original strong set; visited in
    the other order it is not promoted. *)
Lemma edgeTracking_chain_is_order_dependent :
  doublethreshold chain_image 150 50 =
    Some (chain_image, {[ (0, 0) ]}, {[ (1, 1); (2, 2) ]}) ∧
  getAdjacentPixels chain_image 2 2 = Some {[ (1, 1) ]} ∧
  (snd <$> edgeTracking chain_image {[ (0, 0) ]} [(1, 1); (2, 2)]) =
    Some {[ (0, 0); (1, 1); (2, 2) ]} ∧
  (snd <$> edgeTracking chain_image {[ (0, 0) ]} [(2, 2); (1, 1)]) =
    Some {[ (0, 0); (1, 1) ]}.
Proof. vm_compute. done. Qed.

(** A pass over pixels of the image does not panic. *)
Lemma edgeTracking_returns (order : list Point) (pixels : Image) (strong : gset Point) :
  (∀ c, c ∈ order → is_Some (pixelAt pixels (Y c) (X c))) →
  is_Some (edgeTracking pixels strong order).
Proof.
  unfold edgeTracking. revert pixels strong.
  induction order as [|w order IH]; intros pixels strong Hin; simpl; [by eexists|].
  destruct (Hin w) as [p Hp]; [by left|].
  assert (is_Some (edgeTrackingStep (pixels, strong) w)) as [[pixels1 strong1] Hstep].
  { unfold edgeTrackingStep. rewrite setY_storeY, Hp. simpl.
    unfold getAdjacentPixels. unfold pixelAt in Hp.
    destruct (idx pixels (Y w)) as [row|] eqn:Hrow; simplify_eq/=.
    apply idx_bounds in Hrow.
    destruct (proj2 (idx_is_Some pixels 0)) as [row0 ->]; [lia|]. simpl. by eexists. }
  rewrite Hstep. simpl. apply IH. intros c Hc.
  apply edgeTrackingStep_Some in Hstep as (_ & _ & _ & -> & _).
  apply (pixelAt_is_Some_shape pixels); [by rewrite shape_storeY|].
  apply Hin. by right.
Qed.

(** C8, amended. A pass over weak pixels of the image returns, and the
    promotion decision for a weak pixel [w] is taken against the strong set as
    it stands when [w] is visited: the set [strong1] left by the iterations
    before [w], which lies between the classifier's strong set and that set
    extended by the weak pixels visited earlier. *)
Theorem edgeTracking_decides_against_current_strong
    (pixels : Image) (strong : gset Point) (pre post : list Point) (w : Point) :
  (∀ c, c ∈ pre ++ w :: post → is_Some (pixelAt pixels (Y c) (X c))) →
  w ∉ strong → w ∉ pre → w ∉ post →
  ∃ pixels' strong' pixels1 strong1 neighbours,
    edgeTracking pixels strong (pre ++ w :: post) = Some (pixels', strong') ∧
    edgeTracking pixels strong pre = Some (pixels1, strong1) ∧
    getAdjacentPixels pixels (X w) (Y w) = Some neighbours ∧
    strong ⊆ strong1 ∧ strong1 ⊆ strong ∪ list_to_set pre ∧
    (w ∈ strong' ↔ ∃ n, n ∈ neighbours ∧ n ∈ strong1).
Proof.
  intros Hin Hs Hpre Hpost.
  destruct (edgeTracking_returns _ pixels strong Hin) as [[pixels' strong'] Hrun].
  exists pixels', strong'. unfold edgeTracking in *.
  pose proof Hrun as Hwhole. rewrite foldM_app in Hrun.
  destruct (foldM edgeTrackingStep (pixels, strong) pre) as [[pixels1 strong1]|] eqn:H1;
    simpl in Hrun; [|done].
  destruct (edgeTrackingStep (pixels1, strong1) w) as [[pixels2 strong2]|] eqn:H2;
    simpl in Hrun; [|done].
  pose proof (edgeTracking_shape _ _ _ _ _ H1) as Hshape.
  pose proof (edgeTracking_strong_bounds _ _ _ _ _ H1) as [Hlo1 Hhi1].
  pose proof (edgeTracking_strong_bounds _ _ _ _ _ Hrun) as [Hlo2 Hhi2].
  apply edgeTrackingStep_Some in H2 as (nb & Hnb & _ & _ & Hs2).
  rewrite (getAdjacentPixels_shape _ _ _ _ Hshape) in Hnb.
  exists pixels1, strong1, nb.
  split; [done|].
  repeat split; try done.
  - intros Hw. apply intersects_iff.
    destruct (decide (0 < size (strong1 ∩ nb))%nat) as [|Hno]; [done|].
    subst strong2. set_solver.
  - intros Hex. apply intersects_iff in Hex. rewrite decide_True in Hs2 by done.
    subst strong2. set_solver.
Qed.

Lemma edgeTracking_decides_against_current_strong_witness :
  ∃ pixels' strong' pixels1 strong1 neighbours,
    edgeTracking chain_image {[ (0, 0) ]} ([(1, 1)] ++ (2, 2) :: []) =
      Some (pixels', strong') ∧
    edgeTracking chain_image {[ (0, 0) ]} [(1, 1)] = Some (pixels1, strong1) ∧
    getAdjacentPixels chain_image (X (2, 2)) (Y (2, 2)) = Some neighbours ∧
    {[ (0, 0) ]} ⊆ strong1 ∧ strong1 ⊆ {[ (0, 0) ]} ∪ list_to_set [(1, 1)] ∧
    ((2, 2) ∈ strong' ↔ ∃ n, n ∈ neighbours ∧ n ∈ strong1).
Proof.
  apply (edgeTracking_decides_against_current_strong
           chain_image {[ (0, 0) ]} [(1, 1)] [] (2, 2)).
  - intros c Hc. simpl in Hc.
    apply elem_of_cons in Hc as [->|Hc]; [by eexists|].
    apply list_elem_of_singleton in Hc as ->. by eexists.
  - apply not_elem_of_singleton. discriminate.
  - apply not_elem_of_cons. split; [discriminate | apply not_elem_of_nil].
  - apply not_elem_of_nil.
Defined.

(** ** The sampler at the borders *)

Lemma mapM_seqZ_idx {B : Type} (f : Z → option B) (start n : Z) (k : list B) (i : Z) :
  mapM f (seqZ start n) = Some k → start ≤ i < start + n →
  ∃ b, f i = Some b ∧ idx k (i - start) = Some b.
Proof.
  intros Hk Hi. apply mapM_Some_1 in Hk.
  assert (seqZ start n !! Z.to_nat (i - start) = Some i) as Hl.
  { rewrite lookup_seqZ_lt by lia. f_equal. lia. }
  destruct (Forall2_lookup_l _ _ _ _ _ Hk Hl) as (b & Hb & Hf).
  exists b. split; [done|]. unfold idx. by rewrite decide_True by lia.
Qed.

(** What the sampler reads for a raw column to the left of the image: the
    pixel [-i] columns to the right of the centre.  The mirror image of the
    raw column [i] is the column [-i], so the two agree only for a centre in
    column 0. *)
Lemma getPixelVector_left_of_image (pixels : Image) (posY posX length i : Z)
    (row : list GrayPixel.t) (v : list Q) :
  idx pixels posY = Some row →
  getPixelVector pixels posY posX length HORIZONTAL = Some v →
  0 ≤ length → 0 ≤ posX → posX - Z.quot length 2 ≤ i → i < 0 →
  ∃ p, idx row (posX - i) = Some p ∧
       idx v (i - (posX - Z.quot length 2)) = Some (inject_Z (GrayPixel.y p)).
Proof.
  intros Hrow Hv Hlen Hpos Hlo Hneg. unfold getPixelVector in Hv.
  case_decide as Hodd; [done|].
  destruct (odd_length_padding length Hlen Hodd) as [Hpad Hpad0].
  destruct (mapM_seqZ_idx _ _ _ _ i Hv) as (q & Hq & Hvi); [lia|].
  rewrite Hrow in Hq. simpl in Hq. rewrite decide_True in Hq by done.
  unfold abs in Hq. rewrite decide_True in Hq by done.
  replace (posX + - i) with (posX - i) in Hq by lia.
  destruct (idx row (posX - i)) as [p|]; simplify_eq/=. by exists p.
Qed.

(** C2. With the centre one column away from the left border and N = 5, the
    raw column -1 is sampled from column 2 (intensity 30), not from its mirror
    image column 1 (intensity 20); with the centre one column away from the
    right border the raw column 5 is sampled from column 2 (30), not from its
    mirror image column 3 (40).  The matrix sampler does the same in both
    coordinates: centred at (1,1) its first sample is the pixel (2,2), not the
    mirror image (1,1). *)
Theorem sampler_offsets_from_centre_not_border :
  getPixelVector row_image 0 1 5 HORIZONTAL = Some [30; 10; 20; 30; 40]%Q ∧
  getPixelVector row_image 0 3 5 HORIZONTAL = Some [20; 30; 40; 50; 30]%Q ∧
  getPixelVector grid_image 1 0 5 VERTICAL = Some [20; 0; 10; 20; 30]%Q ∧
  (Dense.data <$> getSorroundingPixelMatrix grid_image 1 1 5) =
    Some [22; 20; 21; 22; 23;
           2;  0;  1;  2;  3;
          12; 10; 11; 12; 13;
          22; 20; 21; 22; 23;
          32; 30; 31; 32; 33]%Q.
Proof. vm_compute. done. Qed.

(** ** The blur stage on flat images *)

Lemma mapM_const {A B : Type} (f : A → option B) (l : list A) (b : B) :
  (∀ x, x ∈ l → f x = Some b) → mapM f l = Some (replicate (length l) b).
Proof.
  intros H. apply mapM_Some_2.
  induction l as [|x l IH]; simpl; constructor.
  - apply H. by left.
  - apply IH. intros x' Hx'. apply H. by right.
Qed.

Lemma mapM_fmap {A B : Type} (f : A → option B) (g : A → B) (l : list A) :
  (∀ x, x ∈ l → f x = Some (g x)) → mapM f l = Some (g <$> l).
Proof.
  intros H. apply mapM_Some_2.
  induction l as [|x l IH]; simpl; constructor.
  - apply H. by left.
  - apply IH. intros x' Hx'. apply H. by right.
Qed.

Lemma constant_pixelAt (c : Z) (pixels : Image) (r col : Z) (p : GrayPixel.t) :
  constant c pixels → pixelAt pixels r col = Some p → GrayPixel.y p = c.
Proof.
  unfold constant, pixelAt. intros Hc Hp.
  destruct (idx pixels r) as [row|] eqn:Hr; simplify_eq/=.
  apply idx_Some in Hr as [_ Hr]. apply idx_Some in Hp as [_ Hp].
  rewrite Forall_lookup in Hc. specialize (Hc _ _ Hr).
  rewrite Forall_lookup in Hc. by apply (Hc _ _ Hp).
Qed.

(** On a constant image that is wider and higher than the padding, every
    sample of the sampler is the constant. *)
Lemma getPixelVector_constant (c width : Z) (pixels : Image)
    (posY posX length : Z) (dir : direction) :
  rectangular width pixels → constant c pixels →
  0 ≤ posY < len pixels → 0 ≤ posX < width →
  0 ≤ length → Z.rem length 2 ≠ 0 →
  Z.quot length 2 < width → Z.quot length 2 < len pixels →
  getPixelVector pixels posY posX length dir =
    Some (replicate (Z.to_nat length) (inject_Z c)).
Proof.
  intros Hrect Hconst Hy Hx Hlen Hodd Hw Hh.
  destruct (odd_length_padding length Hlen Hodd) as [Hpad Hpad0].
  unfold getPixelVector. rewrite decide_False by done.
  set (padding := Z.quot length 2) in *.
  assert (∀ r col, 0 ≤ r < len pixels → 0 ≤ col < width →
            ∃ p, pixelAt pixels r col = Some p ∧ GrayPixel.y p = c) as Hpixel.
  { intros r col Hr Hcol.
    destruct (proj2 (rectangular_pixelAt width pixels r col Hrect)) as [p Hp]; [done|].
    exists p. split; [done|]. by eapply constant_pixelAt. }
  destruct dir.
  - replace (posX + padding - (posX - padding) + 1) with length by lia.
    rewrite <- (length_seqZ (posX - padding) length). apply mapM_const.
    intros i Hi. apply elem_of_seqZ in Hi.
    destruct (proj2 (idx_is_Some pixels posY) Hy) as [row Hrow]. rewrite Hrow. simpl.
    assert (len row = width) as Hrowlen.
    { apply idx_Some in Hrow as [_ Hrow].
      unfold rectangular in Hrect. rewrite Forall_lookup in Hrect.
      apply (Hrect _ _ Hrow). }
    assert (∀ col, 0 ≤ col < width →
              ∃ p, idx row col = Some p ∧ GrayPixel.y p = c) as Hcol.
    { intros col Hcol. destruct (Hpixel posY col Hy Hcol) as (p & Hp & Hpc).
      exists p. split; [|done]. unfold pixelAt in Hp. by rewrite Hrow in Hp. }
    rewrite Hrowlen. unfold abs.
    repeat case_decide;
      match goal with
      | |- (idx row ?col ≫= _) = _ =>
          destruct (Hcol col ltac:(lia)) as (p & -> & <-); done
      end.
  - replace (posY + padding - (posY - padding) + 1) with length by lia.
    rewrite <- (length_seqZ (posY - padding) length). apply mapM_const.
    intros i Hi. apply elem_of_seqZ in Hi. simpl. unfold abs.
    repeat case_decide;
      match goal with
      | |- (pixelAt pixels ?r posX ≫= _) = _ =>
          destruct (Hpixel r posX ltac:(lia) ltac:(lia)) as (p & -> & <-); done
      end.
Qed.

(** *** Sums of weights *)

Lemma foldl_Qplus_acc (l : list Q) (a : Q) :
  (foldl Qplus a l == a + foldl Qplus 0 l)%Q.
Proof.
  revert a. induction l as [|x l IH]; intros a; simpl.
  - ring.
  - rewrite (IH (a + x)%Q), (IH (0 + x)%Q). ring.
Qed.

Lemma foldl_Qplus_scale (k : Q) (l : list Q) :
  (foldl Qplus 0 (map (Qmult k) l) == k * foldl Qplus 0 l)%Q.
Proof.
  induction l as [|x l IH]; simpl.
  - ring.
  - rewrite (foldl_Qplus_acc _ (0 + k * x)%Q), (foldl_Qplus_acc l (0 + x)%Q), IH. ring.
Qed.

Lemma foldl_Qplus_nonneg (l : list Q) :
  Forall (λ q, 0 <= q)%Q l → (0 <= foldl Qplus 0 l)%Q.
Proof.
  induction 1 as [|x l Hx _ IH]; simpl.
  - apply Qle_refl.
  - rewrite foldl_Qplus_acc.
    apply Qle_trans with (0 + 0)%Q; [by rewrite Qplus_0_l; apply Qle_refl|].
    apply Qplus_le_compat; [|done]. by rewrite Qplus_0_l.
Qed.

(** The weights of [normalizeVec] sum to one. *)
Lemma normalizeVec_sum (v : list Q) :
  (0 < foldl Qplus 0 v)%Q → (foldl Qplus 0 (normalizeVec v) == 1)%Q.
Proof.
  intros Hpos. unfold normalizeVec. rewrite foldl_Qplus_scale.
  field. intros E. rewrite E in Hpos. by apply Qlt_irrefl in Hpos.
Qed.

(** The inner product of a constant vector with a kernel. *)
Lemma innerProduct_constant (x : Q) (kernel : list Q) :
  ∃ s, innerProduct (replicate (length kernel) x) kernel = Some s ∧
       (s == x * foldl Qplus 0 kernel)%Q.
Proof.
  unfold innerProduct. rewrite decide_False; cycle 1.
  { unfold len. rewrite length_replicate. intros Hne. by apply Hne. }
  eexists. split; [done|].
  assert (∀ a, foldl (λ result pk, result + fst pk * snd pk)%Q a
                 (zip (replicate (length kernel) x) kernel)
               == a + x * foldl Qplus 0 kernel)%Q as Hgen.
  { induction kernel as [|k kernel IH]; intros a; simpl.
    - ring.
    - rewrite IH, (foldl_Qplus_acc kernel (0 + k)%Q). ring. }
  rewrite Hgen. ring.
Qed.

Lemma binom_nonneg (n k : nat) : 0 ≤ binom n k.
Proof.
  revert n. induction k as [|k IH]; intros n.
  - by destruct n.
  - induction n as [|n IHn]; simpl; [done|]. specialize (IH n). lia.
Qed.

(** The kernel builder returns a row of [index + 1] non-negative weights
    with a positive sum. *)
Lemma getPascalTriangleRow_Some (index : N) :
  ∃ row, getPascalTriangleRow index = Some row ∧
         length row = S (N.to_nat index) ∧
         (0 < foldl Qplus 0 row)%Q.
Proof.
  unfold getPascalTriangleRow.
  set (weight := λ i : Z, inject_Z (binom (Z.to_nat (Z.of_N index)) (Z.to_nat i))).
  exists (weight <$> seqZ 0 (Z.of_N (index + 1))). split; [|split].
  - apply mapM_fmap. intros i Hi. apply elem_of_seqZ in Hi.
    unfold Binomial. by rewrite decide_True by lia.
  - rewrite length_fmap, length_seqZ. lia.
  - rewrite seqZ_cons by lia. simpl. rewrite foldl_Qplus_acc.
    assert (weight 0%Z == 1)%Q as ->.
    { unfold weight. simpl. by destruct (Z.to_nat (Z.of_N index)). }
    apply Qlt_le_trans with (0 + 1 + 0)%Q; [done|].
    apply Qplus_le_compat; [apply Qle_refl|].
    apply foldl_Qplus_nonneg. apply Forall_fmap, Forall_forall.
    intros i _. simpl. unfold weight.
    rewrite <- (Qle_bool_iff 0). unfold Qle_bool. simpl.
    apply Z.leb_le. pose proof (binom_nonneg (Z.to_nat (Z.of_N index)) (Z.to_nat i)). lia.
Qed.

Lemma uint8_sqrt_constant (v h : Q) (c : Z) :
  (v == inject_Z c)%Q → (h == inject_Z c)%Q →
  uint8_sqrt (v * v + h * h) = uint8_of_Z (Z.sqrt (2 * c * c)).
Proof.
  intros Hv Hh. unfold uint8_sqrt. f_equal. f_equal.
  rewrite <- (Qfloor_Z (2 * c * c)). apply Qfloor_comp.
  rewrite Hv, Hh. rewrite <- inject_Z_mult, <- inject_Z_plus.
  apply inject_Z_injective. ring.
Qed.

(** The intensity that the blur gives to a constant image of intensity [c] is
    [c] itself only for [c] below 3. *)
Lemma blurred_intensity_differs (c : Z) :
  3 ≤ c ≤ 255 → uint8_of_Z (Z.sqrt (2 * c * c)) ≠ c.
Proof.
  intros Hc.
  assert (Forall (λ c, uint8_of_Z (Z.sqrt (2 * c * c)) ≠ c) (seqZ 3 253)) as Hall.
  { apply (bool_decide_unpack _). vm_compute. exact I. }
  rewrite Forall_seqZ in Hall. apply Hall. lia.
Qed.

(** C3. The blur of a constant image is not that image: for every odd
    kernel size and every rectangular image of constant intensity [c] that is
    wider and higher than half the kernel, both partial sums are [c] and the
    blurred image has the intensity [uint8 (sqrt (c*c + c*c))], the integer
    part of [c * sqrt 2] reduced to eight bits, at every pixel. *)
Theorem gaussianBlur_constant_image
    (pixels : Image) (c width : Z) (kernelSize : N) :
  rectangular width pixels → constant c pixels →
  (kernelSize mod 2 ≠ 0)%N →
  Z.of_N kernelSize / 2 < width →
  Z.of_N kernelSize / 2 < len pixels →
  gaussianBlur pixels kernelSize =
    Some (flat_image (length pixels) (Z.to_nat width) (uint8_of_Z (Z.sqrt (2 * c * c)))).
Proof.
  intros Hrect Hconst Hodd Hw Hh. unfold gaussianBlur.
  rewrite decide_False by done.
  destruct (getPascalTriangleRow_Some (kernelSize - 1)) as (row & -> & Hrowlen & Hsum).
  simpl.
  set (kernel := normalizeVec row).
  assert (length kernel = N.to_nat kernelSize) as Hklen.
  { unfold kernel, normalizeVec. rewrite length_map, Hrowlen.
    assert (kernelSize ≠ 0)%N by (intros ->; by apply Hodd). lia. }
  assert (len kernel = Z.of_N kernelSize) as Hlen.
  { unfold len. rewrite Hklen. lia. }
  assert (Z.rem (len kernel) 2 ≠ 0) as Hrem.
  { rewrite Hlen. rewrite Z.rem_mod_nonneg by lia.
    change 2 with (Z.of_N 2). rewrite <- N2Z.inj_mod. lia. }
  assert (Z.quot (len kernel) 2 = Z.of_N kernelSize / 2) as Hquot.
  { rewrite Hlen. apply Z.quot_div_nonneg; lia. }
  unfold flat_image. rewrite <- (Nat2Z.id (length pixels)).
  rewrite <- (length_seqZ 0 (Z.of_nat (length pixels))).
  apply mapM_const. intros y Hy. apply elem_of_seqZ in Hy.
  destruct (proj2 (idx_is_Some pixels y)) as [prow Hprow]; [unfold len; lia|].
  rewrite Hprow. simpl.
  assert (len prow = width) as Hprowlen.
  { apply idx_Some in Hprow as [_ Hprow].
    unfold rectangular in Hrect. rewrite Forall_lookup in Hrect.
    apply (Hrect _ _ Hprow). }
  rewrite Hprowlen. rewrite <- (length_seqZ 0 width).
  apply mapM_const. intros x Hx. apply elem_of_seqZ in Hx.
  rewrite !(getPixelVector_constant c width) by (try done; unfold len in *; lia).
  simpl. replace (Z.to_nat (len kernel)) with (length kernel)
    by (unfold len; by rewrite Nat2Z.id).
  destruct (innerProduct_constant (inject_Z c) kernel) as (s & -> & Hs). simpl.
  f_equal. unfold px. f_equal.
  assert (s == inject_Z c)%Q as Hsc.
  { rewrite Hs. unfold kernel. rewrite (normalizeVec_sum row Hsum). ring. }
  by apply uint8_sqrt_constant.
Qed.

Lemma gaussianBlur_constant_image_witness :
  gaussianBlur (flat_image 5 5 100) 5 =
    Some (flat_image (length (flat_image 5 5 100)) (Z.to_nat 5)
            (uint8_of_Z (Z.sqrt (2 * 100 * 100)))) ∧
  uint8_of_Z (Z.sqrt (2 * 100 * 100)) = 141.
Proof.
  split; [|reflexivity].
  apply (gaussianBlur_constant_image (flat_image 5 5 100) 100 5 5).
  - repeat constructor.
  - repeat constructor.
  - discriminate.
  - reflexivity.
  - reflexivity.
Defined.

(** ** The gradient stage above 255 *)

(** C4. At the centre of [step_image] the horizontal gradient is -1020 and
    the vertical one 0, so the magnitude is 1020; the stored intensity is
    its low eight bits, 252, not 255. *)
Theorem sobel_magnitude_wraps_around (atanDeg : Q → Q) :
  (pane ← getSorroundingPixelMatrix step_image 1 1 3;
   sobel_X ← NewDense 3 3 SOBEL_X;
   sobel_Y ← NewDense 3 3 SOBEL_Y;
   gx ← convolve pane sobel_X;
   gy ← convolve pane sobel_Y;
   Some (Qred gx, Qred gy)) = Some ((-(1020))%Q, 0%Q) ∧
  (fst <$> sobel atanDeg step_image) =
    Some (map (map px) [[0; 252; 0]; [0; 252; 0]; [0; 252; 0]]).
Proof. vm_compute. done. Qed.

(** ** Opacity *)

Lemma mapM_Forall {A B : Type} (P : B → Prop) (f : A → option B)
    (l : list A) (k : list B) :
  mapM f l = Some k → (∀ x y, x ∈ l → f x = Some y → P y) → Forall P k.
Proof.
  intros H. apply mapM_Some_1 in H.
  induction H as [|x y l k Hxy _ IH]; intros HP; constructor.
  - apply (HP x); [left | done].
  - apply IH. intros x' y' Hin. apply HP. by right.
Qed.

(** A stage that builds its result row by row, with one pixel for every pixel
    of the input, returns a grid of the same shape. *)
Lemma mapM_rows_shape {A B : Type} (f : Z → Z → option B)
    (pixels : list (list A)) (out : list (list B)) :
  mapM (λ y, row ← idx pixels y; mapM (f y) (seqZ 0 (len row)))
       (seqZ 0 (len pixels)) = Some out →
  length <$> out = length <$> pixels.
Proof.
  intros H. apply mapM_Some_1 in H.
  apply list_eq. intros i. rewrite !list_lookup_fmap.
  pose proof (Forall2_length _ _ _ H) as Hlen. rewrite length_seqZ in Hlen.
  unfold len in Hlen. rewrite Nat2Z.id in Hlen.
  destruct (pixels !! i) as [row|] eqn:Hrow; simpl.
  - assert (seqZ 0 (len pixels) !! i = Some (Z.of_nat i)) as Hi.
    { rewrite lookup_seqZ_lt; [done|]. apply lookup_lt_Some in Hrow. unfold len. lia. }
    destruct (Forall2_lookup_l _ _ _ _ _ H Hi) as (orow & -> & Hf). simpl.
    rewrite idx_of_nat, Hrow in Hf. simpl in Hf.
    apply length_mapM in Hf. rewrite length_seqZ in Hf.
    unfold len in Hf. rewrite Nat2Z.id in Hf. by rewrite Hf.
  - apply lookup_ge_None in Hrow. rewrite (lookup_ge_None_2 out); [done|lia].
Qed.

Lemma opaque_pixelAt (pixels : Image) (r c : Z) (p : GrayPixel.t) :
  opaque pixels → pixelAt pixels r c = Some p → GrayPixel.a p = 255.
Proof.
  unfold opaque, pixelAt. intros Ho Hp.
  destruct (idx pixels r) as [row|] eqn:Hr; simplify_eq/=.
  apply idx_Some in Hr as [_ Hr]. apply idx_Some in Hp as [_ Hp].
  rewrite Forall_lookup in Ho. specialize (Ho _ _ Hr).
  rewrite Forall_lookup in Ho. by apply (Ho _ _ Hp).
Qed.

Lemma opaque_storeY (v r c : Z) (pixels : Image) :
  opaque pixels → opaque (storeY v r c pixels).
Proof.
  unfold opaque, storeY. intros Ho. apply Forall_alter; [done|].
  intros row _ Hrow. apply Forall_alter; [done|]. by intros p _ Hp.
Qed.

Lemma foldM_preserves {S A : Type} (Inv : S → Prop) (body : S → A → option S)
    (l : list A) (s s' : S) :
  (∀ s i s', Inv s → body s i = Some s' → Inv s') →
  Inv s → foldM body s l = Some s' → Inv s'.
Proof.
  intros Hbody. revert s. induction l as [|i l IH]; intros s Hs; simpl.
  - by intros [= <-].
  - destruct (body s i) as [s1|] eqn:Hb; simpl; [|done]. eauto.
Qed.

Lemma gaussianBlur_opaque (pixels : Image) (kernelSize : N) (out : Image) :
  gaussianBlur pixels kernelSize = Some out →
  shape out = shape pixels ∧ opaque out.
Proof.
  unfold gaussianBlur. case_decide; [done|].
  destruct (getPascalTriangleRow (kernelSize - 1)) as [kernel|]; simpl; [|done].
  intros Hrun. split; [by apply mapM_rows_shape in Hrun|].
  apply (mapM_Forall _ _ _ _ Hrun). intros y orow _ Hy.
  destruct (idx pixels y) as [row|]; simpl in Hy; [|done].
  apply (mapM_Forall _ _ _ _ Hy). intros x q _ Hq.
  destruct_binds Hq.
  by injection Hq as <-.
Qed.

Lemma sobel_opaque (atanDeg : Q → Q) (pixels out : Image) (angles : list (list Q)) :
  sobel atanDeg pixels = Some (out, angles) →
  shape out = shape pixels ∧ opaque out.
Proof.
  unfold sobel. simpl.
  match goal with |- (?o ≫= _) = _ → _ => destruct o as [rows|] eqn:H end; simpl; [|done].
  intros [= <- <-]. split.
  - apply mapM_rows_shape in H. unfold shape.
    rewrite <- H. rewrite <- !list_fmap_compose. apply list_fmap_ext.
    intros _ row _. simpl. by rewrite length_map.
  - unfold opaque. apply Forall_fmap.
    apply (mapM_Forall _ _ _ _ H). intros y orow _ Hy. simpl.
    destruct (idx pixels y) as [row|]; simpl in Hy; [|done].
    apply Forall_fmap.
    apply (mapM_Forall _ _ _ _ Hy). intros x q _ Hq.
    destruct_binds Hq.
    by injection Hq as <-.
Qed.

Lemma nonMaximumSuppression_opaque (pixels out : Image) (directions : list (list Q)) :
  opaque pixels → nonMaximumSuppression pixels directions = Some out → opaque out.
Proof.
  intros Ho. unfold nonMaximumSuppression.
  case_decide; [done|].
  destruct (idx pixels 0) as [row0|]; simpl; [|done].
  destruct (idx directions 0) as [dirRow0|]; simpl; [|done].
  case_decide; [done|]. intros Hrun.
  apply (mapM_Forall _ _ _ _ Hrun). intros y orow _ Hy.
  apply (mapM_Forall _ _ _ _ Hy). intros x out_p _ Hp.
  destruct (pixelAt pixels y x) as [r|] eqn:Hr; simpl in Hp; [|done].
  destruct (getPixelInGradientDirection pixels directions x y) as [[p q]|];
    simpl in Hp; [|done].
  destruct (_ || _); injection Hp as <-; [done|]. by eapply opaque_pixelAt.
Qed.

Lemma doublethreshold_opaque (pixels out : Image) (high low : Q)
    (strong weak : gset Point) :
  opaque pixels → doublethreshold pixels high low = Some (out, strong, weak) →
  opaque out.
Proof.
  intros Ho Hrun. unfold doublethreshold in Hrun.
  apply (foldM_preserves (λ st, opaque (fst (fst st))) _ _ _ _) in Hrun; [done| |done].
  intros st y st' Hst Hrow.
  destruct (idx (fst (fst st)) 0) as [row0|]; simpl in Hrow; [|done].
  apply (foldM_preserves (λ st, opaque (fst (fst st))) _ _ _ _) in Hrow; [done| |done].
  clear. intros [[px1 s1] w1] x st' Hst Hstep. simpl in Hst.
  unfold doublethresholdStep in Hstep. rewrite setY_storeY in Hstep.
  destruct (pixelAt px1 y x) as [p|]; simpl in Hstep; [|done].
  repeat (destruct (_ : bool) in Hstep); simplify_eq/=; try done.
  by apply opaque_storeY.
Qed.

Lemma edgeTracking_opaque (order : list Point) (pixels out : Image)
    (strong strong' : gset Point) :
  opaque pixels → edgeTracking pixels strong order = Some (out, strong') →
  opaque out.
Proof.
  intros Ho Hrun. unfold edgeTracking in Hrun.
  apply (foldM_preserves (λ st, opaque (fst st)) _ _ _ _) in Hrun; [done| |done].
  clear. intros [px1 s1] w [px2 s2] Hst Hstep. simpl in *.
  apply edgeTrackingStep_Some in Hstep as (_ & _ & _ & -> & _).
  by apply opaque_storeY.
Qed.

(** C5, as stated, fails: the pixels of [translucent_image] have opacity 7
    and the blurred image has opacity 255 at every coordinate. *)
Lemma gaussianBlur_does_not_copy_opacity :
  pixelAt translucent_image 0 0 = Some (GrayPixel.mk 100 7) ∧
  gaussianBlur translucent_image 5 = Some (flat_image 3 3 141) ∧
  pixelAt (flat_image 3 3 141) 0 0 = Some (GrayPixel.mk 141 255).
Proof. vm_compute. done. Qed.

(** ** Non-maximum suppression at the borders *)

(** C7, as stated, fails: at the upper-left pixel (intensity 10) with a
    direction in [-67.5, -22.5) the neighbour selected for [p] is row -1,
    column 1.  Only its row is replaced, so the pixel compared is the one in
    row 0, column 1 (intensity 20), not the centre, and it suppresses the
    centre. *)
Lemma gradient_neighbour_is_not_the_centre :
  selectNeighbours (-(45))%Q 0 0 = Some (-1, 1, 1, -1) ∧
  pixelAt corner_image 0 0 = Some (px 10) ∧
  getPixelInGradientDirection corner_image diagonal_directions 0 0 =
    Some (px 20, px 30) ∧
  nonMaximumSuppression corner_image diagonal_directions =
    Some (map (map px) [[0; 20]; [0; 40]]).
Proof. vm_compute. done. Qed.

Lemma fallback_out (c bound center : Z) :
  c < 0 ∨ bound ≤ c → fallback c bound center = center.
Proof. intros H. unfold fallback. by rewrite decide_True. Qed.

Lemma fallback_same (bound center : Z) : fallback center bound center = center.
Proof. unfold fallback. by case_decide. Qed.

(** C7, amended. On a rectangular image the two neighbours are always found.
    A selected neighbour that lands outside the image has each out-of-range
    coordinate replaced by the centre's coordinate, the row and the column
    separately.  The pixel compared is the centre pixel itself when the row is
    out of range or is the centre's row, and the column is out of range or is
    the centre's column, as it is for a neighbour selected by the horizontal
    and vertical bins that lands outside the image.  Then that neighbour does
    not suppress the centre. *)
Theorem gradient_neighbour_fallback
    (pixels : Image) (directions : list (list Q)) (width x y : Z)
    (dirRow : list Q) (dirVal : Q) (pY pX qY qX : Z) (r : GrayPixel.t) :
  rectangular width pixels →
  pixelAt pixels y x = Some r →
  idx directions y = Some dirRow →
  idx dirRow x = Some dirVal →
  selectNeighbours dirVal x y = Some (pY, pX, qY, qX) →
  let outY c := c < 0 ∨ len pixels ≤ c in
  let outX c := c < 0 ∨ width ≤ c in
  ∃ p q,
    getPixelInGradientDirection pixels directions x y = Some (p, q) ∧
    pixelAt pixels (fallback pY (len pixels) y) (fallback pX width x) = Some p ∧
    pixelAt pixels (fallback qY (len pixels) y) (fallback qX width x) = Some q ∧
    ((outY pY ∨ pY = y) → (outX pX ∨ pX = x) →
       p = r ∧ (GrayPixel.y r <? GrayPixel.y p) = false) ∧
    ((outY qY ∨ qY = y) → (outX qX ∨ qX = x) →
       q = r ∧ (GrayPixel.y r <? GrayPixel.y q) = false).
Proof.
  intros Hrect Hr HdirRow HdirVal Hsel outY outX.
  destruct (proj1 (rectangular_pixelAt width pixels y x Hrect)) as [Hy Hx]; [by eauto|].
  destruct (proj2 (idx_is_Some pixels 0)) as [row0 Hrow0]; [lia|].
  pose proof (rectangular_row _ _ _ _ Hrect Hrow0) as Hwidth.
  assert (∀ cY cX, is_Some (pixelAt pixels (fallback cY (len pixels) y)
                              (fallback cX width x))) as Hfound.
  { intros cY cX. apply (rectangular_pixelAt width); [done|].
    unfold fallback. repeat case_decide; lia. }
  destruct (Hfound pY pX) as [p Hp]. destruct (Hfound qY qX) as [q Hq].
  exists p, q.
  assert (∀ cY cX n, pixelAt pixels (fallback cY (len pixels) y)
                        (fallback cX width x) = Some n →
            (outY cY ∨ cY = y) → (outX cX ∨ cX = x) →
            n = r ∧ (GrayPixel.y r <? GrayPixel.y n) = false) as Hcentre.
  { intros cY cX n Hn HY HX.
    assert (fallback cY (len pixels) y = y) as HfY.
    { destruct HY as [HY| ->]; [by apply fallback_out | apply fallback_same]. }
    assert (fallback cX width x = x) as HfX.
    { destruct HX as [HX| ->]; [by apply fallback_out | apply fallback_same]. }
    rewrite HfY, HfX, Hr in Hn. injection Hn as <-.
    split; [done | apply Z.ltb_irrefl]. }
  split; [|split; [done|split; [done|split; by eapply Hcentre]]].
  unfold getPixelInGradientDirection.
  rewrite Hrow0, HdirRow. simpl. rewrite HdirVal. simpl. rewrite Hsel. simpl.
  rewrite Hwidth, Hp. simpl. by rewrite Hq.
Qed.

Lemma gradient_neighbour_fallback_witness :
  let outY c := c < 0 ∨ len corner_image ≤ c in
  let outX c := c < 0 ∨ 2 ≤ c in
  ∃ p q,
    getPixelInGradientDirection corner_image level_directions 0 0 = Some (p, q) ∧
    pixelAt corner_image (fallback 0 (len corner_image) 0) (fallback (0 + 1) 2 0) = Some p ∧
    pixelAt corner_image (fallback 0 (len corner_image) 0) (fallback (0 - 1) 2 0) = Some q ∧
    ((outY 0 ∨ 0 = 0) → (outX (0 + 1) ∨ 0 + 1 = 0) →
       p = px 10 ∧ (GrayPixel.y (px 10) <? GrayPixel.y p) = false) ∧
    ((outY 0 ∨ 0 = 0) → (outX (0 - 1) ∨ 0 - 1 = 0) →
       q = px 10 ∧ (GrayPixel.y (px 10) <? GrayPixel.y q) = false).
Proof.
  apply (gradient_neighbour_fallback corner_image level_directions 2 0 0
           [0; 0]%Q 0%Q 0 (0 + 1) 0 (0 - 1) (px 10)).
  - repeat constructor.
  - reflexivity.
  - reflexivity.
  - reflexivity.
  - reflexivity.
Defined.

(** ** The double-threshold classifier *)

Lemma Qlt_bool_iff (a b : Q) : Qlt_bool a b = true ↔ (a < b)%Q.
Proof.
  unfold Qlt_bool. rewrite negb_true_iff, <- not_true_iff_false, Qle_bool_iff.
  split; [apply Qnot_le_lt | apply Qlt_not_le].
Qed.

Lemma classify_Strong (high low : Q) (v : Z) :
  classify high low v = Strong ↔ (high < inject_Z v)%Q.
Proof.
  unfold classify. rewrite <- Qlt_bool_iff.
  destruct (Qlt_bool high (inject_Z v)); [done|].
  by destruct (_ && _).
Qed.

Lemma classify_Weak (high low : Q) (v : Z) :
  classify high low v = Weak ↔ (low < inject_Z v ∧ inject_Z v < high)%Q.
Proof.
  unfold classify. rewrite <- !Qlt_bool_iff.
  destruct (Qlt_bool high (inject_Z v)) eqn:Hs.
  - split; [done|]. intros [_ Hw]. apply Qlt_bool_iff in Hs, Hw.
    destruct (Qlt_irrefl high). by apply Qlt_trans with (inject_Z v).
  - destruct (Qlt_bool (inject_Z v) high), (Qlt_bool low (inject_Z v)); naive_solver.
Qed.

(** The body of the inner loop, by the class of the pixel it reads. *)
Lemma doublethresholdStep_classify (high low : Q) (y x : Z) (pixels : Image)
    (strong weak : gset Point) (p : GrayPixel.t) :
  pixelAt pixels y x = Some p →
  doublethresholdStep high low y (pixels, strong, weak) x =
    match classify high low (GrayPixel.y p) with
    | Strong => Some (pixels, {[ (x, y) ]} ∪ strong, weak)
    | Weak => Some (pixels, strong, {[ (x, y) ]} ∪ weak)
    | Suppressed => Some (storeY 0 y x pixels, strong, weak)
    end.
Proof.
  intros Hp. unfold doublethresholdStep, classify. rewrite setY_storeY, Hp. simpl.
  destruct (Qlt_bool high _); [done|]. by destruct (_ && _).
Qed.

(** One iteration of the inner loop takes the invariant from column [x] to
    column [x + 1]. *)
Lemma doublethresholdStep_inv (pixels : Image) (high low : Q) (width y x : Z)
    (st : Image * gset Point * gset Point) :
  rectangular width pixels →
  0 ≤ y < len pixels → 0 ≤ x < width →
  doublethreshold_inv pixels high low y x st →
  ∃ st', doublethresholdStep high low y st x = Some st' ∧
         doublethreshold_inv pixels high low y (x + 1) st'.
Proof.
  intros Hrect Hy Hx. destruct st as [[pixels' strong] weak].
  intros (Hshape & Hpix & Hstrong & Hweak).
  destruct (proj2 (rectangular_pixelAt width pixels y x Hrect)) as [p Hp]; [done|].
  pose proof (Hpix _ _ _ Hp) as Hp'.
  rewrite decide_False in Hp' by (unfold visited; lia).
  rewrite (doublethresholdStep_classify _ _ _ _ _ _ _ _ Hp').
  assert (∀ x' y', visited y (x + 1) x' y' ↔ visited y x x' y' ∨ (x' = x ∧ y' = y))
    as Hvis by (unfold visited; lia).
  assert (∀ (c : Point) (cls : edgeClass) (s : gset Point),
            classify high low (GrayPixel.y p) = cls →
            (∀ c, c ∈ s ↔ ∃ q, pixelAt pixels (Y c) (X c) = Some q ∧
                     visited y x (X c) (Y c) ∧ classify high low (GrayPixel.y q) = cls) →
            c ∈ {[ (x, y) ]} ∪ s ↔
              ∃ q, pixelAt pixels (Y c) (X c) = Some q ∧
                   visited y (x + 1) (X c) (Y c) ∧ classify high low (GrayPixel.y q) = cls)
    as Hadd.
  { intros c cls s Hcls Hs. rewrite elem_of_union, elem_of_singleton, Hs.
    setoid_rewrite Hvis. split.
    - intros [->|(q & Hq & Hv & Hc)]; [exists p; simpl; eauto 10 | eauto 10].
    - intros (q & Hq & [Hv|[Hcx Hcy]] & Hc); [right; eauto|left].
      destruct c as [cx cy]. simpl in *. by subst. }
  assert (∀ (c : Point) (cls : edgeClass) (s : gset Point),
            classify high low (GrayPixel.y p) ≠ cls →
            (∀ c, c ∈ s ↔ ∃ q, pixelAt pixels (Y c) (X c) = Some q ∧
                     visited y x (X c) (Y c) ∧ classify high low (GrayPixel.y q) = cls) →
            c ∈ s ↔
              ∃ q, pixelAt pixels (Y c) (X c) = Some q ∧
                   visited y (x + 1) (X c) (Y c) ∧ classify high low (GrayPixel.y q) = cls)
    as Hkeep.
  { intros c cls s Hcls Hs. rewrite Hs. setoid_rewrite Hvis. split.
    - intros (q & Hq & Hv & Hc). eauto 10.
    - intros (q & Hq & [Hv|[Hcx Hcy]] & Hc); [eauto|].
      rewrite Hcx, Hcy, Hp in Hq. injection Hq as <-. done. }
  assert (∀ x' y' q, pixelAt pixels y' x' = Some q →
            classified high low p = p →
            pixelAt pixels' y' x' =
              Some (if decide (visited y (x + 1) x' y') then classified high low q else q))
    as Hsame.
  { intros x' y' q Hq Hcl. rewrite (Hpix _ _ _ Hq).
    destruct (decide (x' = x ∧ y' = y)) as [[-> ->]|Hne].
    - rewrite Hp in Hq. injection Hq as <-.
      rewrite decide_False by (unfold visited; lia).
      rewrite decide_True by (unfold visited; lia). by rewrite Hcl.
    - destruct (decide (visited y x x' y')) as [Hv|Hv].
      + rewrite decide_True; [done|]. apply Hvis. by left.
      + rewrite decide_False; [done|]. rewrite Hvis. tauto. }
  destruct (classify high low (GrayPixel.y p)) eqn:Hcls.
  - eexists. split; [done|]. repeat split.
    + done.
    + intros x' y' q Hq. apply Hsame; [done|]. unfold classified. by rewrite Hcls.
    + by apply Hadd.
    + by apply Hadd.
    + by apply Hkeep.
    + by apply Hkeep.
  - eexists. split; [done|]. repeat split.
    + done.
    + intros x' y' q Hq. apply Hsame; [done|]. unfold classified. by rewrite Hcls.
    + by apply Hkeep.
    + by apply Hkeep.
    + by apply Hadd.
    + by apply Hadd.
  - eexists. split; [done|]. repeat split.
    + by rewrite shape_storeY.
    + intros x' y' q Hq. rewrite pixelAt_storeY by lia. rewrite (Hpix _ _ _ Hq).
      destruct (decide (y' = y ∧ x' = x)) as [[-> ->]|Hne].
      * rewrite Hp in Hq. injection Hq as <-.
        rewrite decide_False by (unfold visited; lia).
        rewrite decide_True by (unfold visited; lia).
        simpl. unfold classified. by rewrite Hcls.
      * destruct (decide (visited y x x' y')) as [Hv|Hv].
        -- rewrite decide_True; [done|]. apply Hvis. by left.
        -- rewrite decide_False; [done|]. rewrite Hvis. tauto.
    + by apply Hkeep.
    + by apply Hkeep.
    + by apply Hkeep.
    + by apply Hkeep.
Qed.

(** The inner loop takes the invariant through a whole row. *)
Lemma doublethreshold_row_inv (pixels : Image) (high low : Q) (width y : Z)
    (st : Image * gset Point * gset Point) :
  rectangular width pixels →
  0 ≤ y < len pixels → 0 ≤ width →
  doublethreshold_inv pixels high low y 0 st →
  ∃ st', foldM (doublethresholdStep high low y) st (seqZ 0 width) = Some st' ∧
         doublethreshold_inv pixels high low (y + 1) 0 st'.
Proof.
  intros Hrect Hy Hwidth Hinv.
  destruct (foldM_invariant
              (λ done st, doublethreshold_inv pixels high low y (len done) st)
              (doublethresholdStep high low y) (seqZ 0 width) st)
    as (st' & Hrun & Hinv'); [done| |].
  { intros done i rest s Hl Hs. apply seqZ_split in Hl as [-> Hi].
    rewrite len_snoc. by apply (doublethresholdStep_inv pixels high low width). }
  exists st'. split; [done|].
  unfold len in Hinv'. rewrite length_seqZ, Z2Nat.id in Hinv' by done.
  assert (∀ x' y' q, pixelAt pixels y' x' = Some q →
            visited y width x' y' ↔ visited (y + 1) 0 x' y') as Hvis.
  { intros x' y' q Hq.
    destruct (proj1 (rectangular_pixelAt width pixels y' x' Hrect)) as [_ Hx']; [by eauto|].
    unfold visited. lia. }
  destruct st' as [[pixels' strong] weak].
  destruct Hinv' as (Hshape & Hpix & Hstrong & Hweak).
  repeat split.
  - done.
  - intros x' y' q Hq. rewrite (Hpix _ _ _ Hq).
    by rewrite (decide_ext _ _ _ _ (Hvis _ _ _ Hq)).
  - rewrite Hstrong. intros (q & Hq & Hv & Hc). exists q.
    by rewrite <- (Hvis _ _ _ Hq).
  - rewrite Hstrong. intros (q & Hq & Hv & Hc). exists q.
    by rewrite (Hvis _ _ _ Hq).
  - rewrite Hweak. intros (q & Hq & Hv & Hc). exists q.
    by rewrite <- (Hvis _ _ _ Hq).
  - rewrite Hweak. intros (q & Hq & Hv & Hc). exists q.
    by rewrite (Hvis _ _ _ Hq).
Qed.

(** The two loops together: the classifier does not panic on a rectangular
    image and leaves the invariant with every row visited. *)
Lemma doublethreshold_inv_final (pixels : Image) (high low : Q) (width : Z) :
  rectangular width pixels →
  ∃ st, doublethreshold pixels high low = Some st ∧
        doublethreshold_inv pixels high low (len pixels) 0 st.
Proof.
  intros Hrect. unfold doublethreshold.
  destruct (foldM_invariant
              (λ done st, doublethreshold_inv pixels high low (len done) 0 st)
              (λ st y,
                 row0 ← idx (fst (fst st)) 0;
                 foldM (doublethresholdStep high low y) st (seqZ 0 (len row0)))
              (seqZ 0 (len pixels)) (pixels, ∅, ∅))
    as (st' & Hrun & Hinv').
  - repeat split.
    + intros x y p Hp. rewrite Hp. apply pixelAt_nonneg in Hp.
      by rewrite decide_False by (unfold visited, len; simpl; lia).
    + set_solver.
    + intros (q & Hq & Hv & _). apply pixelAt_nonneg in Hq.
      unfold visited, len in Hv. simpl in Hv. lia.
    + set_solver.
    + intros (q & Hq & Hv & _). apply pixelAt_nonneg in Hq.
      unfold visited, len in Hv. simpl in Hv. lia.
  - intros done y rest st Hl Hst. apply seqZ_split in Hl as [-> Hy].
    rewrite len_snoc.
    destruct st as [[pixels' strong] weak]. simpl.
    pose proof Hst as (Hshape & _).
    pose proof (shape_idx _ _ 0 Hshape) as H0.
    destruct (proj2 (idx_is_Some pixels 0)) as [row0 Hrow0]; [lia|].
    rewrite Hrow0 in H0.
    destruct (idx pixels' 0) as [row0'|]; simplify_eq/=.
    assert (len row0 = width) as Hw.
    { apply idx_Some in Hrow0 as [_ Hrow0].
      unfold rectangular in Hrect. rewrite Forall_lookup in Hrect.
      apply (Hrect _ _ Hrow0). }
    rewrite H0, Hw.
    apply (doublethreshold_row_inv pixels high low width); try done.
    rewrite <- Hw. unfold len. lia.
  - exists st'. split; [done|].
    unfold len in Hinv' at 1. rewrite length_seqZ in Hinv'.
    unfold len in Hinv' at 1. by rewrite Nat2Z.id in Hinv'.
Qed.

(** C6, as stated, fails: with high = 100 and low = 50 the pixel of intensity
    100, equal to the high threshold, is set to zero and joins neither set. *)
Lemma doublethreshold_zeroes_pixel_equal_to_high :
  doublethreshold threshold_image 100 50 =
    Some ([map px [0; 200; 0; 60]], {[ (1, 0) ]}, {[ (3, 0) ]}).
Proof. vm_compute. done. Qed.

(** C6, amended. On a rectangular image the classifier returns, and for
    every pixel: an intensity strictly greater than high puts it in the strong
    set; an intensity strictly between low and high puts it in the weak set;
    in both cases the pixel is left as it is.  Every remaining pixel, one with
    an intensity equal to high included, is set to zero and belongs to
    neither set.  The two sets hold coordinates of the image only. *)
Theorem doublethreshold_classifies (pixels : Image) (high low : Q) (width : Z) :
  rectangular width pixels →
  ∃ pixels' strong weak,
    doublethreshold pixels high low = Some (pixels', strong, weak) ∧
    (∀ c, c ∈ strong ∪ weak → is_Some (pixelAt pixels (Y c) (X c))) ∧
    ∀ x y p, pixelAt pixels y x = Some p →
      let v := inject_Z (GrayPixel.y p) in
      ((high < v)%Q →
         (x, y) ∈ strong ∧ ((x, y) ∉ weak) ∧ pixelAt pixels' y x = Some p) ∧
      ((low < v ∧ v < high)%Q →
         (x, y) ∈ weak ∧ ((x, y) ∉ strong) ∧ pixelAt pixels' y x = Some p) ∧
      (¬ (high < v)%Q → ¬ (low < v ∧ v < high)%Q →
         ((x, y) ∉ strong) ∧ ((x, y) ∉ weak) ∧ pixelAt pixels' y x = Some (withY 0 p)) ∧
      ((v == high)%Q →
         ((x, y) ∉ strong) ∧ ((x, y) ∉ weak) ∧ pixelAt pixels' y x = Some (withY 0 p)).
Proof.
  intros Hrect.
  destruct (doublethreshold_inv_final pixels high low width Hrect)
    as ([[pixels' strong] weak] & Hrun & Hshape & Hpix & Hstrong & Hweak).
  exists pixels', strong, weak. split; [done|]. split.
  { intros c [Hc|Hc]%elem_of_union.
    - apply Hstrong in Hc as (q & Hq & _). by eexists.
    - apply Hweak in Hc as (q & Hq & _). by eexists. }
  intros x y p Hp v.
  assert (visited (len pixels) 0 x y) as Hvis.
  { destruct (proj1 (rectangular_pixelAt width pixels y x Hrect)); [by eauto|].
    unfold visited. lia. }
  pose proof (Hpix _ _ _ Hp) as Hp'. rewrite decide_True in Hp' by done.
  unfold classified in Hp'.
  assert ((x, y) ∈ strong ↔ classify high low (GrayPixel.y p) = Strong) as HS.
  { rewrite Hstrong. simpl. split.
    - intros (q & Hq & _ & Hc). by simplify_eq.
    - intros Hc. exists p. eauto. }
  assert ((x, y) ∈ weak ↔ classify high low (GrayPixel.y p) = Weak) as HW.
  { rewrite Hweak. simpl. split.
    - intros (q & Hq & _ & Hc). by simplify_eq.
    - intros Hc. exists p. eauto. }
  assert (¬ (high < v)%Q → ¬ (low < v ∧ v < high)%Q →
          ((x, y) ∉ strong) ∧ ((x, y) ∉ weak) ∧ pixelAt pixels' y x = Some (withY 0 p))
    as Hrest.
  { subst v. intros Hns Hnw. rewrite HS, HW.
    destruct (classify high low (GrayPixel.y p)) eqn:Hc.
    - by apply classify_Strong in Hc.
    - by apply classify_Weak in Hc.
    - done. }
  subst v. split; [|split; [|split]].
  - intros Hs. apply (proj2 (classify_Strong high low _)) in Hs.
    split; [by apply HS|]. split; [by rewrite HW, Hs|]. by rewrite Hs in Hp'.
  - intros Hw. apply (proj2 (classify_Weak high low _)) in Hw.
    split; [by apply HW|]. split; [by rewrite HS, Hw|]. by rewrite Hw in Hp'.
  - done.
  - intros Heq. apply Hrest; rewrite Heq.
    + apply Qlt_irrefl.
    + intros [_ Hlt]. by apply Qlt_irrefl in Hlt.
Qed.

Lemma doublethreshold_classifies_witness :
  ∃ pixels' strong weak,
    doublethreshold threshold_image 100 50 = Some (pixels', strong, weak) ∧
    (∀ c, c ∈ strong ∪ weak → is_Some (pixelAt threshold_image (Y c) (X c))) ∧
    ∀ x y p, pixelAt threshold_image y x = Some p →
      let v := inject_Z (GrayPixel.y p) in
      ((100 < v)%Q →
         (x, y) ∈ strong ∧ ((x, y) ∉ weak) ∧ pixelAt pixels' y x = Some p) ∧
      ((50 < v ∧ v < 100)%Q →
         (x, y) ∈ weak ∧ ((x, y) ∉ strong) ∧ pixelAt pixels' y x = Some p) ∧
      (¬ (100 < v)%Q → ¬ (50 < v ∧ v < 100)%Q →
         ((x, y) ∉ strong) ∧ ((x, y) ∉ weak) ∧ pixelAt pixels' y x = Some (withY 0 p)) ∧
      ((v == 100)%Q →
         ((x, y) ∉ strong) ∧ ((x, y) ∉ weak) ∧ pixelAt pixels' y x = Some (withY 0 p)).
Proof.
  apply (doublethreshold_classifies threshold_image 100 50 4).
  repeat constructor.
Defined.

(** ** The stages return *)

Lemma mapM_returns {A B : Type} (f : A → option B) (l : list A) :
  (∀ x, x ∈ l → is_Some (f x)) →
  ∃ k, mapM f l = Some k ∧ length k = length l.
Proof.
  intros H.
  destruct (mapM_is_Some_2 f l) as [k Hk].
  { apply Forall_forall. intros x Hx. by apply H. }
  exists k. split; [done|]. symmetry. by eapply length_mapM.
Qed.

(** On a rectangular image that is wider and higher than the padding the
    sampler returns [length] samples. *)
Lemma getPixelVector_returns (width : Z) (pixels : Image)
    (posY posX length : Z) (dir : direction) :
  rectangular width pixels →
  0 ≤ posY < len pixels → 0 ≤ posX < width →
  0 ≤ length → Z.rem length 2 ≠ 0 →
  Z.quot length 2 < width → Z.quot length 2 < len pixels →
  ∃ v, getPixelVector pixels posY posX length dir = Some v ∧ len v = length.
Proof.
  intros Hrect Hy Hx Hlen Hodd Hw Hh.
  destruct (odd_length_padding length Hlen Hodd) as [Hpad Hpad0].
  unfold getPixelVector. rewrite decide_False by done.
  set (padding := Z.quot length 2) in *.
  assert (∀ r col, 0 ≤ r < len pixels → 0 ≤ col < width →
            ∃ p, pixelAt pixels r col = Some p) as Hpixel.
  { intros r col Hr Hcol. by apply (rectangular_pixelAt width). }
  assert (∀ (f : Z → option Q) (start : Z),
            (∀ i, start ≤ i < start + length → is_Some (f i)) →
            ∃ v, mapM f (seqZ start length) = Some v ∧ len v = length) as Hloop.
  { intros f start Hf. destruct (mapM_returns f (seqZ start length)) as (v & Hv & Hvl).
    - intros i Hi. apply Hf. by apply elem_of_seqZ.
    - exists v. split; [done|]. unfold len. rewrite Hvl, length_seqZ. lia. }
  destruct dir.
  - replace (posX + padding - (posX - padding) + 1) with length by lia.
    apply Hloop. intros i Hi.
    destruct (proj2 (idx_is_Some pixels posY) Hy) as [row Hrow]. rewrite Hrow. simpl.
    assert (len row = width) as Hrowlen.
    { apply idx_Some in Hrow as [_ Hrow].
      unfold rectangular in Hrect. rewrite Forall_lookup in Hrect.
      apply (Hrect _ _ Hrow). }
    assert (∀ col, 0 ≤ col < width → ∃ p, idx row col = Some p) as Hcol.
    { intros col Hcol. destruct (Hpixel posY col Hy Hcol) as (p & Hp).
      exists p. unfold pixelAt in Hp. by rewrite Hrow in Hp. }
    rewrite Hrowlen. unfold abs.
    repeat case_decide;
      match goal with
      | |- is_Some (idx row ?col ≫= _) =>
          destruct (Hcol col ltac:(lia)) as (p & ->); by eexists
      end.
  - replace (posY + padding - (posY - padding) + 1) with length by lia.
    apply Hloop. intros i Hi. simpl. unfold abs.
    repeat case_decide;
      match goal with
      | |- is_Some (pixelAt pixels ?r posX ≫= _) =>
          destruct (Hpixel r posX ltac:(lia) ltac:(lia)) as (p & ->); by eexists
      end.
Qed.

Lemma innerProduct_returns (pixels kernel : list Q) :
  len pixels = len kernel → is_Some (innerProduct pixels kernel).
Proof. intros Hl. unfold innerProduct. rewrite decide_False by (by intros ?). by eexists. Qed.

(** The blur stage returns on a rectangular image that is wider and higher
    than half the kernel. *)
Lemma gaussianBlur_returns (pixels : Image) (width : Z) (kernelSize : N) :
  rectangular width pixels →
  (kernelSize mod 2 ≠ 0)%N →
  Z.of_N kernelSize / 2 < width →
  Z.of_N kernelSize / 2 < len pixels →
  ∃ out, gaussianBlur pixels kernelSize = Some out ∧
         shape out = shape pixels ∧ opaque out.
Proof.
  intros Hrect Hodd Hw Hh.
  assert (is_Some (gaussianBlur pixels kernelSize)) as [out Hout].
  { unfold gaussianBlur. rewrite decide_False by done.
    destruct (getPascalTriangleRow_Some (kernelSize - 1)) as (row & -> & Hrowlen & _).
    simpl. set (kernel := normalizeVec row).
    assert (len kernel = Z.of_N kernelSize) as Hlen.
    { unfold len, kernel, normalizeVec. rewrite length_map, Hrowlen.
      assert (kernelSize ≠ 0)%N by (intros ->; by apply Hodd). lia. }
    assert (Z.rem (len kernel) 2 ≠ 0) as Hrem.
    { rewrite Hlen. rewrite Z.rem_mod_nonneg by lia.
      change 2 with (Z.of_N 2). rewrite <- N2Z.inj_mod. lia. }
    assert (Z.quot (len kernel) 2 = Z.of_N kernelSize / 2) as Hquot.
    { rewrite Hlen. apply Z.quot_div_nonneg; lia. }
    apply mapM_is_Some_2, Forall_forall. intros y Hy. apply elem_of_seqZ in Hy. simpl.
    destruct (proj2 (idx_is_Some pixels y)) as [prow Hprow]; [lia|].
    rewrite Hprow. simpl.
    pose proof (rectangular_row _ _ _ _ Hrect Hprow) as Hprowlen.
    apply mapM_is_Some_2, Forall_forall. intros x Hx. apply elem_of_seqZ in Hx. simpl.
    destruct (getPixelVector_returns width pixels y x (len kernel) VERTICAL)
      as (vecVert & -> & HlenV); try done; try lia.
    destruct (getPixelVector_returns width pixels y x (len kernel) HORIZONTAL)
      as (vecHor & -> & HlenH); try done; try lia.
    simpl.
    destruct (innerProduct_returns vecVert kernel HlenV) as [verticalSum ->].
    destruct (innerProduct_returns vecHor kernel HlenH) as [horizontalSum ->].
    by eexists. }
  exists out. split; [done|]. by apply gaussianBlur_opaque in Hout.
Qed.

Lemma foldM_returns {S A : Type} (body : S → A → option S) (l : list A) (s : S) :
  (∀ s i, i ∈ l → is_Some (body s i)) → is_Some (foldM body s l).
Proof.
  revert s. induction l as [|i l IH]; intros s Hbody; simpl; [by eexists|].
  destruct (Hbody s i) as [s1 ->]; [by left|]. simpl.
  apply IH. intros s' i' Hi'. apply Hbody. by right.
Qed.

Lemma length_concat_uniform {A : Type} (rows : list (list A)) (n : nat) :
  Forall (λ r, length r = n) rows → length (concat rows) = (length rows * n)%nat.
Proof.
  induction 1 as [|r rows Hr _ IH]; simpl; [done|].
  rewrite length_app, Hr, IH. done.
Qed.

(** On a rectangular image that is wider and higher than the padding the
    matrix sampler returns a [length] x [length] matrix. *)
Lemma getSorroundingPixelMatrix_returns (width : Z) (pixels : Image)
    (posY posX length : Z) :
  rectangular width pixels →
  0 ≤ posY < len pixels → 0 ≤ posX < width →
  0 ≤ length → Z.rem length 2 ≠ 0 →
  Z.quot length 2 < width → Z.quot length 2 < len pixels →
  ∃ m, getSorroundingPixelMatrix pixels posY posX length = Some m ∧
       Dense.rows m = length ∧ Dense.cols m = length ∧
       len (Dense.data m) = length * length.
Proof.
  intros Hrect Hy Hx Hlen Hodd Hw Hh.
  destruct (odd_length_padding length Hlen Hodd) as [Hpad Hpad0].
  unfold getSorroundingPixelMatrix. rewrite decide_False by done.
  set (padding := Z.quot length 2) in *.
  destruct (proj2 (idx_is_Some pixels 0)) as [row0 Hrow0]; [lia|].
  rewrite Hrow0. simpl. rewrite (rectangular_row _ _ _ _ Hrect Hrow0).
  replace (posX + padding - (posX - padding) + 1) with length by lia.
  replace (posY + padding - (posY - padding) + 1) with length by lia.
  match goal with
  | |- ∃ m, (mapM ?f ?l ≫= _) = _ ∧ _ =>
      destruct (mapM_returns f l) as (values & Hvalues & Hvlen)
  end.
  { intros y' Hy'. apply elem_of_seqZ in Hy'. simpl.
    apply mapM_is_Some_2, Forall_forall. intros x' Hx'. apply elem_of_seqZ in Hx'. simpl.
    match goal with
    | |- is_Some (pixelAt pixels ?r ?col ≫= _) =>
        destruct (proj2 (rectangular_pixelAt width pixels r col Hrect)) as [p ->];
          [|by eexists]
    end.
    unfold abs. repeat case_decide; lia. }
  rewrite Hvalues. simpl.
  assert (Forall (λ r, List.length r = Z.to_nat length) values) as Hrows.
  { apply (mapM_Forall _ _ _ _ Hvalues). intros y' r _ Hr.
    apply length_mapM in Hr. by rewrite length_seqZ in Hr. }
  assert (len (concat values) = length * length) as Hdata.
  { unfold len. rewrite (length_concat_uniform _ _ Hrows), Hvlen, length_seqZ. lia. }
  unfold NewDense. rewrite decide_True by lia. by eexists.
Qed.

(** [convolve] returns on two matrices of the same dimensions. *)
Lemma convolve_returns (m1 m2 : Dense.t) :
  Dense.rows m1 = Dense.rows m2 → Dense.cols m1 = Dense.cols m2 →
  len (Dense.data m1) = Dense.rows m1 * Dense.cols m1 →
  len (Dense.data m2) = Dense.rows m2 * Dense.cols m2 →
  is_Some (convolve m1 m2).
Proof.
  intros Hrows Hcols Hd1 Hd2. unfold convolve. rewrite decide_False by lia.
  assert (∀ m y x, len (Dense.data m) = Dense.rows m * Dense.cols m →
            0 ≤ y < Dense.rows m → 0 ≤ x < Dense.cols m → is_Some (At m y x)) as HAt.
  { intros m y x Hd Hy Hx. unfold At. rewrite decide_True by done.
    apply idx_is_Some. rewrite Hd. nia. }
  apply foldM_returns. intros result y Hy. apply elem_of_seqZ in Hy.
  apply foldM_returns. intros result' x Hx. apply elem_of_seqZ in Hx.
  destruct (HAt m1 y x) as [v1 ->]; [done|lia|lia|].
  destruct (HAt m2 y x) as [v2 ->]; [done|lia|lia|].
  by eexists.
Qed.

(** The gradient stage returns on a rectangular image of at least two rows
    and two columns; the direction field has the shape of the image and lies
    in [-90, 90] when the scaled arctangent does. *)
Lemma sobel_returns (atanDeg : Q → Q) (pixels : Image) (width : Z) :
  rectangular width pixels → 2 ≤ width → 2 ≤ len pixels →
  ∃ out angles,
    sobel atanDeg pixels = Some (out, angles) ∧
    shape out = shape pixels ∧ opaque out ∧
    length <$> angles = shape pixels ∧
    ((∀ r, -(90) <= atanDeg r ∧ atanDeg r <= 90)%Q → in_range angles).
Proof.
  intros Hrect Hw Hh.
  assert (is_Some (sobel atanDeg pixels)) as [[out angles] Hrun].
  { unfold sobel. simpl.
    match goal with |- is_Some (?o ≫= _) => assert (is_Some o) as [rows ->] end;
      [|by eexists].
    apply mapM_is_Some_2, Forall_forall. intros y Hy. apply elem_of_seqZ in Hy. simpl.
    destruct (proj2 (idx_is_Some pixels y)) as [prow Hprow]; [lia|].
    rewrite Hprow. simpl.
    pose proof (rectangular_row _ _ _ _ Hrect Hprow) as Hprowlen.
    apply mapM_is_Some_2, Forall_forall. intros x Hx. apply elem_of_seqZ in Hx. simpl.
    destruct (getSorroundingPixelMatrix_returns width pixels y x 3 Hrect
                ltac:(lia) ltac:(lia) ltac:(lia) ltac:(done)
                ltac:(change (Z.quot 3 2) with 1; lia)
                ltac:(change (Z.quot 3 2) with 1; lia))
      as (pane & -> & Hr & Hc & Hd).
    simpl.
    destruct (convolve_returns pane (Dense.mk 3 3 SOBEL_X)) as [gx ->];
      [done | done | by rewrite Hr, Hc | done |].
    destruct (convolve_returns pane (Dense.mk 3 3 SOBEL_Y)) as [gy ->];
      [done | done | by rewrite Hr, Hc | done |].
    by eexists. }
  exists out, angles. split; [done|].
  destruct (sobel_opaque _ _ _ _ Hrun) as [Hshape Hopaque].
  split; [done|]. split; [done|].
  revert Hrun. unfold sobel. simpl.
  match goal with
  | |- (?o ≫= _) = _ → _ => destruct o as [rows|] eqn:Hrows
  end; simpl; [|done].
  intros [= <- <-]. split.
  - apply mapM_rows_shape in Hrows. unfold shape. rewrite <- Hrows.
    rewrite <- !list_fmap_compose. apply list_fmap_ext.
    intros _ row _. simpl. by rewrite length_map.
  - intros Hatan. unfold in_range. apply Forall_fmap.
    apply (mapM_Forall _ _ _ _ Hrows). intros y orow _ Hy. simpl.
    destruct (idx pixels y) as [row|]; simpl in Hy; [|done].
    apply Forall_fmap.
    apply (mapM_Forall _ _ _ _ Hy). intros x q _ Hq.
    destruct_binds Hq.
    injection Hq as <-. simpl.
    destruct (_ || _); [done | apply Hatan].
Qed.

Lemma Qle_bool_false (a b : Q) : Qle_bool a b = false ↔ (b < a)%Q.
Proof.
  rewrite <- not_true_iff_false, Qle_bool_iff.
  split; [apply Qnot_le_lt | apply Qlt_not_le].
Qed.

Lemma Qlt_bool_false (a b : Q) : Qlt_bool a b = false ↔ (b <= a)%Q.
Proof. unfold Qlt_bool. by rewrite negb_false_iff, Qle_bool_iff. Qed.

(** The five bins cover [-90, 90]. *)
Lemma selectNeighbours_returns (dirVal : Q) (x y : Z) :
  (-(90) <= dirVal ∧ dirVal <= 90)%Q → is_Some (selectNeighbours dirVal x y).
Proof.
  intros [Hlo Hhi]. unfold selectNeighbours.
  repeat match goal with
         | |- is_Some (if ?b then _ else _) =>
             destruct b eqn:?; [by eexists|]
         end.
  repeat match goal with
         | H : _ && _ = false |- _ => apply andb_false_iff in H
         end.
  repeat match goal with
         | H : _ ∨ _ |- _ => destruct H
         end;
  repeat match goal with
         | H : Qle_bool _ _ = false |- _ => apply Qle_bool_false in H
         | H : Qlt_bool _ _ = false |- _ => apply Qlt_bool_false in H
         end; lra.
Qed.

Lemma getPixelInGradientDirection_returns (pixels : Image)
    (directions : list (list Q)) (width x y : Z) (dirRow : list Q) (dirVal : Q) :
  rectangular width pixels →
  0 ≤ y < len pixels → 0 ≤ x < width →
  idx directions y = Some dirRow → idx dirRow x = Some dirVal →
  (-(90) <= dirVal ∧ dirVal <= 90)%Q →
  is_Some (getPixelInGradientDirection pixels directions x y).
Proof.
  intros Hrect Hy Hx HdirRow HdirVal Hrange.
  destruct (proj2 (idx_is_Some pixels 0)) as [row0 Hrow0]; [lia|].
  pose proof (rectangular_row _ _ _ _ Hrect Hrow0) as Hwidth.
  unfold getPixelInGradientDirection.
  rewrite Hrow0, HdirRow. simpl. rewrite HdirVal. simpl.
  destruct (selectNeighbours_returns dirVal x y Hrange) as [[[[pY pX] qY] qX] ->].
  simpl. rewrite Hwidth.
  assert (∀ cY cX, is_Some (pixelAt pixels (fallback cY (len pixels) y)
                              (fallback cX width x))) as Hfound.
  { intros cY cX. apply (rectangular_pixelAt width); [done|].
    unfold fallback. repeat case_decide; lia. }
  destruct (Hfound pY pX) as [p ->]. destruct (Hfound qY qX) as [q ->].
  by eexists.
Qed.

Lemma rectangular_shape (width : Z) (pixels : Image) :
  rectangular width pixels ↔
  0 ≤ width ∧ shape pixels = replicate (length pixels) (Z.to_nat width) ∨ pixels = [].
Proof.
  unfold rectangular, shape, len. split.
  - intros Hrect. destruct pixels as [|row pixels]; [by right|left].
    split; [apply Forall_inv in Hrect; lia|].
    symmetry. apply replicate_as_Forall_2; [by rewrite length_fmap|].
    apply Forall_fmap. eapply Forall_impl; [done|]. simpl. lia.
  - intros [[Hw Hs]| ->]; [|done].
    assert (Forall (λ n, n = Z.to_nat width) (List.length <$> pixels)) as H.
    { rewrite Hs. apply Forall_replicate. done. }
    apply Forall_fmap in H. eapply Forall_impl; [done|]. simpl. lia.
Qed.

Lemma shape_rectangular (width : Z) (p1 p2 : Image) :
  shape p1 = shape p2 → rectangular width p2 → rectangular width p1.
Proof.
  intros Hs Hrect. unfold rectangular in *. rewrite Forall_lookup in *.
  intros i row Hrow.
  assert (shape p2 !! i = Some (length row)) as H2.
  { rewrite <- Hs. unfold shape. by rewrite list_lookup_fmap, Hrow. }
  unfold shape in H2. rewrite list_lookup_fmap in H2.
  destruct (p2 !! i) as [row2|] eqn:Hrow2; simplify_eq/=.
  specialize (Hrect _ _ Hrow2). unfold len in *. simpl in *. lia.
Qed.

(** Non-maximum suppression returns on a rectangular image whose direction
    field has its shape and lies in [-90, 90]. *)
Lemma nonMaximumSuppression_returns (pixels : Image) (directions : list (list Q))
    (width : Z) :
  rectangular width pixels → 1 ≤ len pixels →
  length <$> directions = shape pixels → in_range directions →
  ∃ out, nonMaximumSuppression pixels directions = Some out ∧
         shape out = shape pixels.
Proof.
  intros Hrect Hh Hshape Hrange.
  assert (len directions = len pixels) as Hlen.
  { unfold len. f_equal.
    rewrite <- (length_fmap length directions), Hshape. apply length_fmap. }
  assert (∀ r row, idx pixels r = Some row →
            ∃ dirRow, idx directions r = Some dirRow ∧ len dirRow = width) as Hdir.
  { intros r row Hrow. pose proof (rectangular_row _ _ _ _ Hrect Hrow) as Hw.
    pose proof (idx_bounds _ _ _ Hrow) as Hr.
    destruct (proj2 (idx_is_Some directions r)) as [dirRow HdirRow]; [lia|].
    exists dirRow. split; [done|].
    apply idx_Some in Hrow as [_ Hrow]. apply idx_Some in HdirRow as [_ HdirRow].
    assert (shape pixels !! Z.to_nat r = Some (length dirRow)) as Hl.
    { by rewrite <- Hshape, list_lookup_fmap, HdirRow. }
    unfold shape in Hl. rewrite list_lookup_fmap, Hrow in Hl. simpl in Hl.
    unfold len in *. injection Hl as Hl. lia. }
  destruct (proj2 (idx_is_Some pixels 0)) as [row0 Hrow0]; [lia|].
  destruct (Hdir 0 row0 Hrow0) as (dirRow0 & HdirRow0 & Hw0).
  pose proof (rectangular_row _ _ _ _ Hrect Hrow0) as Hwidth.
  unfold nonMaximumSuppression. rewrite decide_False by lia.
  rewrite Hrow0, HdirRow0. simpl. rewrite decide_False by lia.
  match goal with
  | |- ∃ out, mapM ?f ?l = _ ∧ _ =>
      destruct (mapM_returns f l) as (out & Hout & Houtlen)
  end.
  { intros y Hy. apply elem_of_seqZ in Hy. simpl.
    apply mapM_is_Some_2, Forall_forall. intros x Hx. apply elem_of_seqZ in Hx. simpl.
    destruct (proj2 (rectangular_pixelAt width pixels y x Hrect)) as [r Hr]; [lia|].
    rewrite Hr. simpl.
    destruct (proj2 (idx_is_Some pixels y)) as [row Hrow]; [lia|].
    destruct (Hdir y row Hrow) as (dirRow & HdirRow & Hw).
    destruct (proj2 (idx_is_Some dirRow x)) as [dirVal HdirVal]; [lia|].
    destruct (getPixelInGradientDirection_returns pixels directions width x y
                dirRow dirVal) as [[p q] ->]; try done; try lia.
    - unfold in_range in Hrange. rewrite Forall_lookup in Hrange.
      apply idx_Some in HdirRow as [_ HdirRow]. specialize (Hrange _ _ HdirRow).
      rewrite Forall_lookup in Hrange.
      apply idx_Some in HdirVal as [_ HdirVal]. apply (Hrange _ _ HdirVal).
    - simpl. destruct (_ || _); by eexists. }
  exists out. split; [done|].
  assert (Forall (λ r, length r = Z.to_nat width) out) as Hrows.
  { apply (mapM_Forall _ _ _ _ Hout). intros y' r _ Hr.
    apply length_mapM in Hr. rewrite length_seqZ in Hr. lia. }
  rewrite length_seqZ in Houtlen. unfold len in Houtlen. rewrite Nat2Z.id in Houtlen.
  apply rectangular_shape in Hrect as [[_ ->]| ->]; [|unfold len in Hh; simpl in Hh; lia].
  unfold shape. symmetry. apply replicate_as_Forall_2; [by rewrite length_fmap|].
  apply Forall_fmap. eapply Forall_impl; [done|]. simpl. done.
Qed.

Lemma maxPixelValue_returns (pixels : Image) (width : Z) :
  rectangular width pixels → is_Some (maxPixelValue pixels).
Proof.
  intros Hrect. unfold maxPixelValue.
  apply foldM_returns. intros max y Hy. apply elem_of_seqZ in Hy.
  destruct (proj2 (idx_is_Some pixels 0)) as [row0 Hrow0]; [lia|].
  rewrite Hrow0. simpl. rewrite (rectangular_row _ _ _ _ Hrect Hrow0).
  apply foldM_returns. intros max' x Hx. apply elem_of_seqZ in Hx.
  destruct (proj2 (rectangular_pixelAt width pixels y x Hrect)) as [r ->]; [lia|].
  by eexists.
Qed.

(** ** The pipeline *)

(** On a rectangular image of at least three rows and columns (two when the
    blur is skipped) the pipeline returns an image of the same shape whose
    pixels all have opacity 255. *)
Lemma CannyEdgeDetect_returns
    (atanDeg : Q → Q) (fmul : Q → Q → Q) (iter : gset Point → list Point)
    (pixels : Image) (width : Z) (blur : bool) (minRatio maxRatio : Q) :
  rectangular width pixels →
  (if blur then 3 else 2) ≤ width →
  (if blur then 3 else 2) ≤ len pixels →
  (∀ r, -(90) <= atanDeg r ∧ atanDeg r <= 90)%Q →
  (∀ weak, iter weak ≡ₚ elements weak) →
  ∃ out, CannyEdgeDetect atanDeg fmul iter pixels blur minRatio maxRatio = Some out ∧
         shape out = shape pixels ∧ opaque out.
Proof.
  intros Hrect Hw Hh Hatan Hiter. unfold CannyEdgeDetect.
  assert (∃ blurred, (if blur then gaussianBlur pixels 5 else Some pixels) = Some blurred ∧
                     shape blurred = shape pixels) as (blurred & -> & Hs1).
  { destruct blur; [|by exists pixels].
    destruct (gaussianBlur_returns pixels width 5 Hrect) as (out & Hout & Hs & _);
      [done | change (Z.of_N 5 / 2) with 2; lia | change (Z.of_N 5 / 2) with 2; lia |].
    by exists out. }
  simpl.
  pose proof (shape_rectangular width _ _ Hs1 Hrect) as Hrect1.
  pose proof (shape_len _ _ Hs1) as Hlen1.
  destruct (sobel_returns atanDeg blurred width Hrect1)
    as (magnitude & angles & -> & Hs2 & Ho2 & Hsa & Hrange);
    [destruct blur; lia | destruct blur; lia |].
  simpl.
  pose proof (shape_rectangular width _ _ Hs2 Hrect1) as Hrect2.
  pose proof (shape_len _ _ Hs2) as Hlen2.
  destruct (nonMaximumSuppression_returns magnitude angles width Hrect2)
    as (thinned & Hnms & Hs3);
    [destruct blur; lia | by rewrite Hsa, Hs2 | by apply Hrange |].
  rewrite Hnms. simpl.
  pose proof (nonMaximumSuppression_opaque _ _ _ Ho2 Hnms) as Ho3.
  pose proof (shape_rectangular width _ _ Hs3 Hrect2) as Hrect3.
  destruct (maxPixelValue_returns thinned width Hrect3) as [max ->]. simpl.
  destruct (doublethreshold_inv_final thinned
              (fmul maxRatio (inject_Z max)) (fmul minRatio (inject_Z max)) width Hrect3)
    as ([[classified strong] weak] & Hdt & Hs4 & _ & _ & Hweak).
  rewrite Hdt. simpl.
  pose proof (doublethreshold_opaque _ _ _ _ _ _ Ho3 Hdt) as Ho4.
  destruct (edgeTracking_returns (iter weak) classified strong) as [[final strong'] Het].
  { intros c Hc. rewrite Hiter in Hc. apply elem_of_elements in Hc.
    apply Hweak in Hc as (q & Hq & _).
    apply (pixelAt_is_Some_shape thinned); [done | by eexists]. }
  rewrite Het. simpl. exists final. split; [done|]. split.
  - rewrite (edgeTracking_shape _ _ _ _ _ Het). congruence.
  - by eapply edgeTracking_opaque.
Qed.

(** C5, amended. The blur stage and the gradient stage return an image of
    the shape of their input in which every pixel has opacity 255, whatever
    the opacities of the input; and so has every pixel of the image returned
    by the pipeline. *)
Theorem stages_write_opacity_255
    (atanDeg : Q → Q) (fmul : Q → Q → Q) (iter : gset Point → list Point)
    (pixels : Image) (width : Z) :
  rectangular width pixels → 3 ≤ width → 3 ≤ len pixels →
  (∀ r, -(90) <= atanDeg r ∧ atanDeg r <= 90)%Q →
  (∀ weak, iter weak ≡ₚ elements weak) →
  (∃ out, gaussianBlur pixels 5 = Some out ∧
          shape out = shape pixels ∧ opaque out) ∧
  (∃ out angles, sobel atanDeg pixels = Some (out, angles) ∧
          shape out = shape pixels ∧ opaque out) ∧
  (∀ blur minRatio maxRatio,
     ∃ out, CannyEdgeDetect atanDeg fmul iter pixels blur minRatio maxRatio = Some out ∧
            shape out = shape pixels ∧ opaque out).
Proof.
  intros Hrect Hw Hh Hatan Hiter. split; [|split].
  - apply (gaussianBlur_returns pixels width 5 Hrect); [done| |];
      change (Z.of_N 5 / 2) with 2; lia.
  - destruct (sobel_returns atanDeg pixels width Hrect)
      as (out & angles & Hrun & Hs & Ho & _); [lia | lia |].
    by exists out, angles.
  - intros blur minRatio maxRatio.
    apply (CannyEdgeDetect_returns atanDeg fmul iter pixels width); try done;
      destruct blur; lia.
Qed.

Lemma stages_write_opacity_255_witness :
  (∃ out, gaussianBlur translucent_image 5 = Some out ∧
          shape out = shape translucent_image ∧ opaque out) ∧
  (∃ out angles, sobel (λ _, 0%Q) translucent_image = Some (out, angles) ∧
          shape out = shape translucent_image ∧ opaque out) ∧
  (∀ blur minRatio maxRatio,
     ∃ out, CannyEdgeDetect (λ _, 0%Q) Qmult elements translucent_image
              blur minRatio maxRatio = Some out ∧
            shape out = shape translucent_image ∧ opaque out).
Proof.
  apply (stages_write_opacity_255 (λ _, 0%Q) Qmult elements translucent_image 3).
  - repeat constructor.
  - reflexivity.
  - discriminate.
  - intros r. split; discriminate.
  - intros weak. reflexivity.
Defined.

(** C9. The image returned by the pipeline is the same whatever the order in
    which the linker's iterator yields the weak set: two runs on the same
    input and parameters end alike, and on a rectangular image of at least
    three rows and columns both return the same image. *)
Theorem CannyEdgeDetect_deterministic
    (atanDeg : Q → Q) (fmul : Q → Q → Q) (iter1 iter2 : gset Point → list Point)
    (pixels : Image) (blur : bool) (minRatio maxRatio : Q) :
  (∀ weak, iter1 weak ≡ₚ elements weak) →
  (∀ weak, iter2 weak ≡ₚ elements weak) →
  CannyEdgeDetect atanDeg fmul iter1 pixels blur minRatio maxRatio =
  CannyEdgeDetect atanDeg fmul iter2 pixels blur minRatio maxRatio ∧
  ∀ width,
    rectangular width pixels → 3 ≤ width → 3 ≤ len pixels →
    (∀ r, -(90) <= atanDeg r ∧ atanDeg r <= 90)%Q →
    ∃ out,
      CannyEdgeDetect atanDeg fmul iter1 pixels blur minRatio maxRatio = Some out ∧
      CannyEdgeDetect atanDeg fmul iter2 pixels blur minRatio maxRatio = Some out.
Proof.
  intros H1 H2.
  assert (CannyEdgeDetect atanDeg fmul iter1 pixels blur minRatio maxRatio =
          CannyEdgeDetect atanDeg fmul iter2 pixels blur minRatio maxRatio) as Heq.
  { unfold CannyEdgeDetect.
    destruct (if blur then gaussianBlur pixels 5 else Some pixels) as [blurred|];
      simpl; [|done].
    destruct (sobel atanDeg blurred) as [[magnitude angles]|]; simpl; [|done].
    destruct (nonMaximumSuppression magnitude angles) as [thinned|]; simpl; [|done].
    destruct (maxPixelValue thinned) as [max|]; simpl; [|done].
    destruct (doublethreshold thinned _ _) as [[[classified strong] weak]|]; simpl; [|done].
    assert (∀ order, (et ← edgeTracking classified strong order; Some (fst et)) =
                     blacken classified order) as Himg.
    { intros order. rewrite <- (edgeTracking_image order classified strong).
      by destruct (edgeTracking classified strong order). }
    rewrite !Himg. apply blacken_Permutation. by rewrite H1, H2. }
  split; [done|].
  intros width Hrect Hw Hh Hatan.
  destruct (CannyEdgeDetect_returns atanDeg fmul iter1 pixels width blur
              minRatio maxRatio Hrect) as (out & Hout & _); try done; try (destruct blur; lia).
  exists out. split; [done|]. by rewrite <- Heq.
Qed.

Lemma CannyEdgeDetect_deterministic_witness :
  CannyEdgeDetect (λ _, 0%Q) Qmult elements ramp_image false (1 # 5) (3 # 5) =
  CannyEdgeDetect (λ _, 0%Q) Qmult (reverse ∘ elements) ramp_image false (1 # 5) (3 # 5) ∧
  ∃ out,
    CannyEdgeDetect (λ _, 0%Q) Qmult elements ramp_image false (1 # 5) (3 # 5) =
      Some out ∧
    CannyEdgeDetect (λ _, 0%Q) Qmult (reverse ∘ elements) ramp_image false
      (1 # 5) (3 # 5) = Some out.
Proof.
  destruct (CannyEdgeDetect_deterministic (λ _, 0%Q) Qmult elements (reverse ∘ elements)
              ramp_image false (1 # 5) (3 # 5)) as [Heq Hout].
  - intros weak. reflexivity.
  - intros weak. apply reverse_Permutation.
  - split; [exact Heq|]. apply (Hout 5).
    + repeat constructor.
    + discriminate.
    + discriminate.
    + intros r. split; discriminate.
Defined.

(** * Further properties of the code *)

(** ** The maximum intensity *)

Lemma maxPixelValue_inv_final (pixels : Image) (width : Z) :
  rectangular width pixels →
  ∃ max, maxPixelValue pixels = Some max ∧
         maxPixelValue_inv pixels (len pixels) 0 max.
Proof.
  intros Hrect. unfold maxPixelValue.
  assert (0 ≤ len pixels) as Hrows by (unfold len; lia).
  cut (∃ max, foldM (λ max y,
                row0 ← idx pixels 0;
                foldM (λ max x,
                  p ← pixelAt pixels y x;
                  let pixVal := GrayPixel.y p in
                  Some (if decide (max < pixVal) then pixVal else max))
                  max (seqZ 0 (len row0)))
                0 (seqZ 0 (len pixels)) = Some max ∧
              maxPixelValue_inv pixels (len (seqZ 0 (len pixels))) 0 max).
  { assert (len (seqZ 0 (len pixels)) = len pixels) as ->; [|done].
    unfold len at 1. rewrite length_seqZ. lia. }
  apply (foldM_invariant (λ done max, maxPixelValue_inv pixels (len done) 0 max)).
  { split; [done|]. split; [|by left].
    intros x y p Hp Hv. apply pixelAt_nonneg in Hp.
    unfold visited, len in Hv. simpl in Hv. lia. }
  intros doneY y restY max Hl Hinv. apply seqZ_split in Hl as [-> Hy].
  rewrite len_snoc.
  destruct (proj2 (idx_is_Some pixels 0)) as [row0 Hrow0]; [lia|].
  rewrite Hrow0. simpl. rewrite (rectangular_row _ _ _ _ Hrect Hrow0).
  assert (0 ≤ width) as Hwidth.
  { rewrite <- (rectangular_row _ _ _ _ Hrect Hrow0). unfold len. lia. }
  destruct (foldM_invariant
              (λ done max, maxPixelValue_inv pixels (len doneY) (len done) max)
              (λ max x, p ← pixelAt pixels (len doneY) x;
                        let pixVal := GrayPixel.y p in
                        Some (if decide (max < pixVal) then pixVal else max))
              (seqZ 0 width) max) as (max' & Hrun & Hinv'); [done| |].
  { intros doneX x restX m Hl (Hm0 & Hub & Hatt). apply seqZ_split in Hl as [-> Hx].
    rewrite len_snoc.
    destruct (proj2 (rectangular_pixelAt width pixels (len doneY) (len doneX) Hrect))
      as [p Hp]; [done|].
    rewrite Hp. simpl. eexists. split; [done|].
    split; [case_decide; lia|]. split.
    - intros x' y' q Hq Hv.
      destruct (decide (x' = len doneX ∧ y' = len doneY)) as [[-> ->]|Hne].
      + rewrite Hp in Hq. injection Hq as <-. case_decide; lia.
      + assert (GrayPixel.y q ≤ m); [|case_decide; lia].
        apply (Hub x' y'); [done|]. unfold visited in *. lia.
    - case_decide; [|done]. right. by exists (len doneX), (len doneY), p. }
  exists max'. split; [done|].
  assert (len (seqZ 0 width) = width) as Hlen
    by (unfold len; rewrite length_seqZ; lia).
  rewrite Hlen in Hinv'.
  destruct Hinv' as (Hm0 & Hub & Hatt). split; [done|]. split; [|done].
  intros x' y' q Hq Hv. apply (Hub x' y'); [done|].
  destruct (proj1 (rectangular_pixelAt width pixels y' x' Hrect)); [by eauto|].
  unfold visited in *. lia.
Qed.

(** X1. On a rectangular image [maxPixelValue] returns, and what it returns
    is at least every intensity of the image and is either 0 or the intensity
    of one of its pixels: the largest intensity, and 0 for an image without
    pixels. *)
Theorem maxPixelValue_is_the_maximum (pixels : Image) (width : Z) :
  rectangular width pixels →
  ∃ max, maxPixelValue pixels = Some max ∧
         (∀ x y p, pixelAt pixels y x = Some p → GrayPixel.y p ≤ max) ∧
         (max = 0 ∨ ∃ x y p, pixelAt pixels y x = Some p ∧ GrayPixel.y p = max).
Proof.
  intros Hrect.
  destruct (maxPixelValue_inv_final pixels width Hrect) as (max & Hrun & _ & Hub & Hatt).
  exists max. split; [done|]. split; [|done].
  intros x y p Hp. apply (Hub x y); [done|].
  destruct (proj1 (rectangular_pixelAt width pixels y x Hrect)); [by eauto|].
  unfold visited. lia.
Qed.

Lemma maxPixelValue_is_the_maximum_witness :
  ∃ max, maxPixelValue ramp_image = Some max ∧
         (∀ x y p, pixelAt ramp_image y x = Some p → GrayPixel.y p ≤ max) ∧
         (max = 0 ∨ ∃ x y p, pixelAt ramp_image y x = Some p ∧ GrayPixel.y p = max).
Proof.
  apply (maxPixelValue_is_the_maximum ramp_image 5). repeat constructor.
Defined.

(** ** The neighbours along the gradient *)

Lemma selectNeighbours_range (dirVal : Q) (x y : Z) :
  is_Some (selectNeighbours dirVal x y) → (-(90) <= dirVal ∧ dirVal <= 90)%Q.
Proof.
  unfold selectNeighbours. intros Hsome.
  repeat match type of Hsome with
         | is_Some (if ?b then _ else _) => destruct b eqn:?
         end;
  try (by destruct Hsome);
  repeat match goal with
         | H : _ && _ = true |- _ => apply andb_true_iff in H as [? ?]
         | H : Qle_bool _ _ = true |- _ => apply Qle_bool_iff in H
         | H : Qlt_bool _ _ = true |- _ => apply Qlt_bool_iff in H
         end; lra.
Qed.

Lemma selectNeighbours_opposite (dirVal : Q) (x y pY pX qY qX : Z) :
  selectNeighbours dirVal x y = Some (pY, pX, qY, qX) →
  ∃ dy dx, -1 ≤ dy ≤ 1 ∧ -1 ≤ dx ≤ 1 ∧ (dy ≠ 0 ∨ dx ≠ 0) ∧
           pY = y + dy ∧ pX = x + dx ∧ qY = y - dy ∧ qX = x - dx.
Proof.
  unfold selectNeighbours. intros Hsel.
  repeat match type of Hsel with
         | (if ?b then _ else _) = _ => destruct b
         end; [..|done]; injection Hsel as <- <- <- <-.
  - exists (-1), 0. lia.
  - exists (-1), 1. lia.
  - exists 0, 1. lia.
  - exists 1, 1. lia.
  - exists 1, 0. lia.
Qed.

(** X2. [getPixelInGradientDirection] panics exactly on a direction outside
    [-90, 90]: at a pixel of a rectangular image whose direction is [dirVal]
    it returns if and only if [-90 <= dirVal <= 90]. *)
Theorem getPixelInGradientDirection_returns_iff_in_range (pixels : Image)
    (directions : list (list Q)) (width x y : Z) (dirRow : list Q) (dirVal : Q) :
  rectangular width pixels →
  0 ≤ y < len pixels → 0 ≤ x < width →
  idx directions y = Some dirRow → idx dirRow x = Some dirVal →
  is_Some (getPixelInGradientDirection pixels directions x y) ↔
  (-(90) <= dirVal ∧ dirVal <= 90)%Q.
Proof.
  intros Hrect Hy Hx HdirRow HdirVal. split.
  - unfold getPixelInGradientDirection. intros [pq Hpq].
    destruct (idx pixels 0) as [row0|]; simpl in Hpq; [|done].
    rewrite HdirRow in Hpq. simpl in Hpq. rewrite HdirVal in Hpq. simpl in Hpq.
    apply (selectNeighbours_range dirVal x y).
    destruct (selectNeighbours dirVal x y); [by eexists | done].
  - by apply (getPixelInGradientDirection_returns pixels directions width x y dirRow).
Qed.

Lemma getPixelInGradientDirection_returns_iff_in_range_witness :
  is_Some (getPixelInGradientDirection corner_image diagonal_directions 0 0) ↔
  (-(90) <= -(45) ∧ -(45) <= 90)%Q.
Proof.
  apply (getPixelInGradientDirection_returns_iff_in_range
           corner_image diagonal_directions 2 0 0 [-(45); 0]%Q (-(45))%Q);
    [repeat constructor | unfold len; simpl; lia | lia | reflexivity | reflexivity].
Defined.

(** X3. Away from the border the two pixels that
    [getPixelInGradientDirection] returns are two opposite neighbours of the
    pixel: for a direction in [-90, 90] there is an offset [(dy, dx)] other
    than [(0, 0)], with both parts in [-1, 1], such that the first is the pixel
    at [(y + dy, x + dx)] and the second the one at [(y - dy, x - dx)]. *)
Theorem gradient_neighbours_are_opposite (pixels : Image)
    (directions : list (list Q)) (width x y : Z) (dirRow : list Q) (dirVal : Q) :
  rectangular width pixels →
  1 ≤ y < len pixels - 1 → 1 ≤ x < width - 1 →
  idx directions y = Some dirRow → idx dirRow x = Some dirVal →
  (-(90) <= dirVal ∧ dirVal <= 90)%Q →
  ∃ p q dy dx,
    getPixelInGradientDirection pixels directions x y = Some (p, q) ∧
    -1 ≤ dy ≤ 1 ∧ -1 ≤ dx ≤ 1 ∧ (dy ≠ 0 ∨ dx ≠ 0) ∧
    pixelAt pixels (y + dy) (x + dx) = Some p ∧
    pixelAt pixels (y - dy) (x - dx) = Some q.
Proof.
  intros Hrect Hy Hx HdirRow HdirVal Hrange.
  destruct (proj2 (idx_is_Some pixels 0)) as [row0 Hrow0]; [lia|].
  pose proof (rectangular_row _ _ _ _ Hrect Hrow0) as Hwidth.
  unfold getPixelInGradientDirection.
  rewrite Hrow0, HdirRow. simpl. rewrite HdirVal. simpl.
  destruct (selectNeighbours_returns dirVal x y Hrange) as [[[[pY pX] qY] qX] Hsel].
  rewrite Hsel. simpl. rewrite Hwidth.
  apply selectNeighbours_opposite in Hsel
    as (dy & dx & Hdy & Hdx & Hne & -> & -> & -> & ->).
  unfold fallback. rewrite !decide_False by lia.
  destruct (proj2 (rectangular_pixelAt width pixels (y + dy) (x + dx) Hrect))
    as [p Hp]; [lia|].
  destruct (proj2 (rectangular_pixelAt width pixels (y - dy) (x - dx) Hrect))
    as [q Hq]; [lia|].
  rewrite Hp, Hq. simpl. by exists p, q, dy, dx.
Qed.

Lemma gradient_neighbours_are_opposite_witness :
  ∃ p q dy dx,
    getPixelInGradientDirection ramp_image slanted_directions 2 2 = Some (p, q) ∧
    -1 ≤ dy ≤ 1 ∧ -1 ≤ dx ≤ 1 ∧ (dy ≠ 0 ∨ dx ≠ 0) ∧
    pixelAt ramp_image (2 + dy) (2 + dx) = Some p ∧
    pixelAt ramp_image (2 - dy) (2 - dx) = Some q.
Proof.
  apply (gradient_neighbours_are_opposite ramp_image slanted_directions 5 2 2
           (replicate 5 45%Q) 45%Q);
    [repeat constructor | unfold len; simpl; lia | lia | reflexivity | reflexivity
    | split; vm_compute; discriminate].
Defined.

(** ** Non-maximum suppression, pixel by pixel *)

(** What [nonMaximumSuppression] stores for the pixel [r] whose neighbours
    along the gradient are [p] and [q]. *)
Lemma nonMaximumSuppression_pixel (pixels : Image) (directions : list (list Q))
    (out : Image) (x y : Z) (r : GrayPixel.t) :
  nonMaximumSuppression pixels directions = Some out →
  shape out = shape pixels →
  pixelAt pixels y x = Some r →
  ∃ p q, getPixelInGradientDirection pixels directions x y = Some (p, q) ∧
         pixelAt out y x =
           Some (if (GrayPixel.y r <? GrayPixel.y p) || (GrayPixel.y r <? GrayPixel.y q)
                 then GrayPixel.mk 0 255 else r).
Proof.
  unfold nonMaximumSuppression. intros Hout Hshape Hr.
  case_decide; [done|].
  destruct (idx pixels 0) as [row0|] eqn:Hrow0; simpl in Hout; [|done].
  destruct (idx directions 0) as [dirRow0|]; simpl in Hout; [|done].
  case_decide; [done|].
  assert (is_Some (pixelAt out y x)) as [o Ho].
  { apply (pixelAt_is_Some_shape pixels); [done | by eexists]. }
  unfold pixelAt in Ho.
  destruct (idx out y) as [row|] eqn:Hrow; simpl in Ho; [|done].
  pose proof (idx_bounds _ _ _ Hrow) as Hy. pose proof (idx_bounds _ _ _ Ho) as Hx.
  rewrite (shape_len _ _ Hshape) in Hy.
  destruct (mapM_seqZ_idx _ _ _ _ y Hout) as (row' & Hrow' & Hidx); [lia|].
  rewrite Z.sub_0_r, Hrow in Hidx. injection Hidx as <-.
  pose proof (length_mapM _ _ _ Hrow') as Hlen. rewrite length_seqZ in Hlen.
  destruct (mapM_seqZ_idx _ _ _ _ x Hrow') as (o' & Ho' & Hidx).
  { unfold len in *. lia. }
  rewrite Z.sub_0_r, Ho in Hidx. injection Hidx as <-.
  rewrite Hr in Ho'. simpl in Ho'.
  destruct (getPixelInGradientDirection pixels directions x y) as [[p q]|];
    simpl in Ho'; [|done].
  exists p, q. split; [done|].
  unfold pixelAt. rewrite Hrow. simpl. rewrite Ho.
  by destruct (_ || _); injection Ho' as <-.
Qed.

(** The two pixels that [getPixelInGradientDirection] returns are pixels of
    the image at most one row and one column away. *)
Lemma getPixelInGradientDirection_near (pixels : Image) (directions : list (list Q))
    (x y : Z) (p q : GrayPixel.t) :
  getPixelInGradientDirection pixels directions x y = Some (p, q) →
  ∃ pY pX qY qX,
    pixelAt pixels pY pX = Some p ∧ pixelAt pixels qY qX = Some q ∧
    -1 ≤ pY - y ≤ 1 ∧ -1 ≤ pX - x ≤ 1 ∧ -1 ≤ qY - y ≤ 1 ∧ -1 ≤ qX - x ≤ 1.
Proof.
  unfold getPixelInGradientDirection. intros Hpq.
  destruct (idx pixels 0) as [row0|]; simpl in Hpq; [|done].
  destruct (idx directions y) as [dirRow|]; simpl in Hpq; [|done].
  destruct (idx dirRow x) as [dirVal|]; simpl in Hpq; [|done].
  destruct (selectNeighbours dirVal x y) as [[[[pY pX] qY] qX]|] eqn:Hsel;
    simpl in Hpq; [|done].
  apply selectNeighbours_opposite in Hsel
    as (dy & dx & Hdy & Hdx & _ & -> & -> & -> & ->).
  destruct (pixelAt pixels (fallback (y + dy) _ _) _) as [p'|] eqn:Hp;
    simpl in Hpq; [|done].
  destruct (pixelAt pixels (fallback (y - dy) _ _) _) as [q'|] eqn:Hq;
    simpl in Hpq; [|done].
  injection Hpq as <- <-.
  eexists _, _, _, _. split; [exact Hp|]. split; [exact Hq|].
  unfold fallback. repeat case_decide; lia.
Qed.

(** X4. On a rectangular image with a direction field of the same shape and
    directions in [-90, 90], [nonMaximumSuppression] returns an image of the
    same shape in which every pixel is either the pixel of the input,
    intensity and opacity unchanged, or the black pixel of opacity 255. *)
Theorem nonMaximumSuppression_keeps_or_blackens (pixels : Image)
    (directions : list (list Q)) (width : Z) :
  rectangular width pixels → 1 ≤ len pixels →
  length <$> directions = shape pixels → in_range directions →
  ∃ out, nonMaximumSuppression pixels directions = Some out ∧
         shape out = shape pixels ∧
         ∀ x y r, pixelAt pixels y x = Some r →
           pixelAt out y x = Some r ∨ pixelAt out y x = Some (GrayPixel.mk 0 255).
Proof.
  intros Hrect Hh Hshape Hrange.
  destruct (nonMaximumSuppression_returns pixels directions width)
    as (out & Hout & Hs); [done..|].
  exists out. split; [done|]. split; [done|].
  intros x y r Hr.
  destruct (nonMaximumSuppression_pixel _ _ _ _ _ _ Hout Hs Hr) as (p & q & _ & ->).
  destruct (_ || _); auto.
Qed.

Lemma nonMaximumSuppression_keeps_or_blackens_witness :
  ∃ out, nonMaximumSuppression ramp_image slanted_directions = Some out ∧
         shape out = shape ramp_image ∧
         ∀ x y r, pixelAt ramp_image y x = Some r →
           pixelAt out y x = Some r ∨ pixelAt out y x = Some (GrayPixel.mk 0 255).
Proof.
  apply (nonMaximumSuppression_keeps_or_blackens ramp_image slanted_directions 5);
    [repeat constructor | unfold len; simpl; lia | reflexivity
    | repeat constructor; vm_compute; discriminate].
Defined.

(** X5. A pixel that is at least as bright as every pixel at most one row
    and one column away from it is never suppressed: [nonMaximumSuppression]
    returns it unchanged, whatever the direction of its gradient. *)
Theorem nonMaximumSuppression_keeps_local_maxima (pixels : Image)
    (directions : list (list Q)) (width : Z) (x y : Z) (r : GrayPixel.t) :
  rectangular width pixels → 1 ≤ len pixels →
  length <$> directions = shape pixels → in_range directions →
  pixelAt pixels y x = Some r →
  (∀ x' y' n, -1 ≤ y' - y ≤ 1 → -1 ≤ x' - x ≤ 1 →
     pixelAt pixels y' x' = Some n → GrayPixel.y n ≤ GrayPixel.y r) →
  ∃ out, nonMaximumSuppression pixels directions = Some out ∧
         pixelAt out y x = Some r.
Proof.
  intros Hrect Hh Hshape Hrange Hr Hmax.
  destruct (nonMaximumSuppression_returns pixels directions width)
    as (out & Hout & Hs); [done..|].
  exists out. split; [done|].
  destruct (nonMaximumSuppression_pixel _ _ _ _ _ _ Hout Hs Hr) as (p & q & Hpq & ->).
  apply getPixelInGradientDirection_near in Hpq
    as (pY & pX & qY & qX & Hp & Hq & HpY & HpX & HqY & HqX).
  pose proof (Hmax _ _ _ HpY HpX Hp). pose proof (Hmax _ _ _ HqY HqX Hq).
  rewrite (proj2 (Z.ltb_ge _ _)), (proj2 (Z.ltb_ge _ _)) by done. done.
Qed.

Lemma nonMaximumSuppression_keeps_local_maxima_witness :
  ∃ out, nonMaximumSuppression ramp_image slanted_directions = Some out ∧
         pixelAt out 3 3 = Some (px 90).
Proof.
  apply (nonMaximumSuppression_keeps_local_maxima ramp_image slanted_directions 5);
    [repeat constructor | unfold len; simpl; lia | reflexivity
    | repeat constructor; vm_compute; discriminate | reflexivity |].
  intros x' y' n Hy Hx.
  assert (y' ∈ [2; 3; 4]) as Hy' by (rewrite !elem_of_cons; lia).
  assert (x' ∈ [2; 3; 4]) as Hx' by (rewrite !elem_of_cons; lia).
  rewrite !elem_of_cons, elem_of_nil in Hy', Hx'.
  destruct Hy' as [->|[->|[->|[]]]], Hx' as [->|[->|[->|[]]]];
    intros [= <-]; simpl; lia.
Defined.

(** X6. [nonMaximumSuppression] leaves the maximum intensity as it is:
    [maxPixelValue] returns the same value on its result as on its argument,
    so the thresholds that [CannyEdgeDetect] derives from the thinned image
    are those of the gradient image. *)
Theorem nonMaximumSuppression_preserves_maximum (pixels : Image)
    (directions : list (list Q)) (width : Z) :
  rectangular width pixels → 1 ≤ len pixels →
  length <$> directions = shape pixels → in_range directions →
  ∃ out max, nonMaximumSuppression pixels directions = Some out ∧
             maxPixelValue pixels = Some max ∧
             maxPixelValue out = Some max.
Proof.
  intros Hrect Hh Hshape Hrange.
  destruct (nonMaximumSuppression_returns pixels directions width)
    as (out & Hout & Hs); [done..|].
  assert (rectangular width out) as Hrect' by by apply (shape_rectangular _ _ pixels).
  destruct (maxPixelValue_inv_final pixels width Hrect) as (m & Hm & Hm0 & Hub & Hatt).
  destruct (maxPixelValue_inv_final out width Hrect') as (m' & Hm' & Hm0' & Hub' & Hatt').
  assert (∀ pix w x y p, rectangular w pix → pixelAt pix y x = Some p →
            visited (len pix) 0 x y) as Hvis.
  { intros pix w x y p Hw Hp.
    destruct (proj1 (rectangular_pixelAt w pix y x Hw)); [by eauto|].
    unfold visited. lia. }
  exists out, m. split; [done|]. split; [done|]. rewrite Hm'. f_equal.
  apply Z.le_antisymm.
  - destruct Hatt' as [->|(x & y & o & Ho & <-)]; [done|].
    assert (is_Some (pixelAt pixels y x)) as [r Hr].
    { apply (pixelAt_is_Some_shape out); [done | by eexists]. }
    destruct (nonMaximumSuppression_pixel _ _ _ _ _ _ Hout Hs Hr) as (p & q & _ & Ho').
    rewrite Ho in Ho'. injection Ho' as ->.
    destruct (_ || _); simpl; [done|].
    apply (Hub x y); [done | by eapply Hvis].
  - destruct Hatt as [->|(x & y & r & Hr & <-)]; [done|].
    destruct (nonMaximumSuppression_pixel _ _ _ _ _ _ Hout Hs Hr) as (p & q & Hpq & Ho).
    apply getPixelInGradientDirection_near in Hpq
      as (pY & pX & qY & qX & Hp & Hq & _).
    pose proof (Hub _ _ _ Hp (Hvis _ _ _ _ _ Hrect Hp)).
    pose proof (Hub _ _ _ Hq (Hvis _ _ _ _ _ Hrect Hq)).
    rewrite (proj2 (Z.ltb_ge _ _)), (proj2 (Z.ltb_ge _ _)) in Ho by done.
    apply (Hub' x y _ Ho). by eapply Hvis.
Qed.

Lemma nonMaximumSuppression_preserves_maximum_witness :
  ∃ out max, nonMaximumSuppression ramp_image slanted_directions = Some out ∧
             maxPixelValue ramp_image = Some max ∧
             maxPixelValue out = Some max.
Proof.
  apply (nonMaximumSuppression_preserves_maximum ramp_image slanted_directions 5);
    [repeat constructor | unfold len; simpl; lia | reflexivity
    | repeat constructor; vm_compute; discriminate].
Defined.

(** ** The classifier followed by the linker *)

(** Two images of the same shape with the same pixels are the same image. *)
Lemma image_ext (p1 p2 : Image) :
  shape p1 = shape p2 →
  (∀ x y, pixelAt p1 y x = pixelAt p2 y x) →
  p1 = p2.
Proof.
  intros Hshape Hpix. apply list_eq. intros i.
  assert (length <$> p1 !! i = length <$> p2 !! i) as Hlen.
  { unfold shape in Hshape. by rewrite <- !list_lookup_fmap, Hshape. }
  destruct (p1 !! i) as [r1|] eqn:H1, (p2 !! i) as [r2|] eqn:H2; simplify_eq/=;
    [|done].
  f_equal. apply list_eq. intros j.
  specialize (Hpix (Z.of_nat j) (Z.of_nat i)). unfold pixelAt in Hpix.
  by rewrite !idx_of_nat, H1, H2 in Hpix; simpl in Hpix; rewrite !idx_of_nat in Hpix.
Qed.

(** The image after a pass of the linker, pixel by pixel. *)
Lemma blacken_pixelAt (order : list Point) (pixels : Image) :
  (∀ c, c ∈ order → is_Some (pixelAt pixels (Y c) (X c))) →
  ∃ out, blacken pixels order = Some out ∧
         shape out = shape pixels ∧
         ∀ x y, ((x, y) ∈ order → pixelAt out y x = withY 0 <$> pixelAt pixels y x) ∧
                ((x, y) ∉ order → pixelAt out y x = pixelAt pixels y x).
Proof.
  unfold blacken. revert pixels.
  induction order as [|w order IH]; intros pixels Hin; simpl.
  { exists pixels. split; [done|]. split; [done|]. intros x y.
    split; [by intros ?%elem_of_nil | done]. }
  destruct (Hin w) as [pw Hpw]; [by left|].
  pose proof (pixelAt_nonneg _ _ _ _ Hpw) as [HwY HwX].
  rewrite setY_storeY, Hpw. simpl.
  destruct (IH (storeY 0 (Y w) (X w) pixels)) as (out & Hout & Hshape & Hpix).
  { intros c Hc. apply (pixelAt_is_Some_shape pixels); [by rewrite shape_storeY|].
    apply Hin. by right. }
  exists out. split; [done|]. split; [by rewrite Hshape, shape_storeY|].
  intros x y. destruct (Hpix x y) as [Hyes Hno].
  rewrite pixelAt_storeY in Hyes, Hno by done.
  destruct w as [wx wy]. unfold X, Y in *. simpl in *.
  assert (∀ o : option GrayPixel.t, withY 0 <$> (withY 0 <$> o) = withY 0 <$> o)
    as Hidem by by intros [?|].
  destruct (decide ((x, y) ∈ order)) as [Hin'|Hnin].
  - split; [|intros Hn; contradict Hn; by right].
    intros _. rewrite (Hyes Hin'). case_decide; [apply Hidem | done].
  - rewrite (Hno Hnin). split.
    + intros [Heq|?]%elem_of_cons; [|done]. injection Heq as -> ->.
      by rewrite decide_True.
    + intros Hn. rewrite decide_False; [done|].
      intros [-> ->]. apply Hn. by left.
Qed.

(** What the linker leaves of the image that the classifier has been
    through. *)
Lemma hysteresis_pixels (pixels pixels' : Image) (strong weak : gset Point)
    (high low : Q) (width : Z) (order : list Point) :
  rectangular width pixels →
  doublethreshold_inv pixels high low (len pixels) 0 (pixels', strong, weak) →
  order ≡ₚ elements weak →
  ∃ out strong', edgeTracking pixels' strong order = Some (out, strong') ∧
     shape out = shape pixels ∧
     ∀ x y p, pixelAt pixels y x = Some p → pixelAt out y x = Some (thresholded high p).
Proof.
  intros Hrect (Hshape & Hpix & _ & Hweak) Horder.
  assert (∀ x y p, pixelAt pixels y x = Some p → visited (len pixels) 0 x y) as Hvis.
  { intros x y p Hp.
    destruct (proj1 (rectangular_pixelAt width pixels y x Hrect)); [by eauto|].
    unfold visited. lia. }
  assert (∀ c, c ∈ order → is_Some (pixelAt pixels' (Y c) (X c))) as Hin.
  { intros c Hc. rewrite Horder in Hc. apply elem_of_elements in Hc.
    apply Hweak in Hc as (q & Hq & _).
    apply (pixelAt_is_Some_shape pixels); [done | by eexists]. }
  destruct (edgeTracking_returns order pixels' strong Hin) as [[out strong'] Het].
  exists out, strong'. split; [done|].
  pose proof (edgeTracking_image order pixels' strong) as Himg.
  rewrite Het in Himg. simpl in Himg.
  destruct (blacken_pixelAt order pixels' Hin) as (out' & Hout' & Hshape' & Hpix').
  rewrite Hout' in Himg. injection Himg as ->.
  split; [congruence|].
  intros x y p Hp. destruct (Hpix' x y) as [Hyes Hno].
  rewrite (Hpix _ _ _ Hp), decide_True in Hyes, Hno by by eapply Hvis.
  assert ((x, y) ∈ order ↔ classify high low (GrayPixel.y p) = Weak) as Hmem.
  { rewrite Horder, elem_of_elements, Hweak. split.
    - intros (q & Hq & _ & Hw). unfold X, Y in Hq. simpl in Hq. congruence.
    - intros Hw. exists p. split; [done|]. split; [by eapply Hvis | done]. }
  unfold classified, thresholded in *.
  destruct (classify high low (GrayPixel.y p)) eqn:Hclass.
  - rewrite Hno by (rewrite Hmem; congruence).
    apply classify_Strong in Hclass. apply Qlt_bool_iff in Hclass. by rewrite Hclass.
  - rewrite Hyes by by apply Hmem.
    apply classify_Weak in Hclass as [_ Hlt].
    rewrite (proj2 (Qlt_bool_false _ _)); [done | by apply Qlt_le_weak].
  - rewrite Hno by (rewrite Hmem; congruence).
    assert (Qlt_bool high (inject_Z (GrayPixel.y p)) = false) as ->; [|done].
    apply not_true_iff_false. rewrite Qlt_bool_iff, <- (classify_Strong high low).
    congruence.
Qed.

(** X7. On a rectangular image [doublethreshold] followed by [edgeTracking]
    over the weak set, in any order, is a single threshold at [high]: both
    return, the shape is kept, and a pixel of the resulting image is the pixel
    of the input when its intensity is above [high] and has intensity 0 and
    the opacity of the input otherwise; [low] has no part in it. *)
Theorem doublethreshold_then_edgeTracking_is_one_threshold (pixels : Image)
    (high low : Q) (width : Z) :
  rectangular width pixels →
  ∃ pixels' strong weak,
    doublethreshold pixels high low = Some (pixels', strong, weak) ∧
    ∀ order, order ≡ₚ elements weak →
      ∃ out strong', edgeTracking pixels' strong order = Some (out, strong') ∧
        shape out = shape pixels ∧
        ∀ x y p, pixelAt pixels y x = Some p →
                 pixelAt out y x = Some (thresholded high p).
Proof.
  intros Hrect.
  destruct (doublethreshold_inv_final pixels high low width Hrect)
    as ([[pixels' strong] weak] & Hdt & Hinv).
  exists pixels', strong, weak. split; [done|].
  intros order Horder. by eapply hysteresis_pixels.
Qed.

Lemma doublethreshold_then_edgeTracking_is_one_threshold_witness :
  ∃ pixels' strong weak,
    doublethreshold threshold_image 100 50 = Some (pixels', strong, weak) ∧
    ∀ order, order ≡ₚ elements weak →
      ∃ out strong', edgeTracking pixels' strong order = Some (out, strong') ∧
        shape out = shape threshold_image ∧
        ∀ x y p, pixelAt threshold_image y x = Some p →
                 pixelAt out y x = Some (thresholded 100 p).
Proof.
  apply (doublethreshold_then_edgeTracking_is_one_threshold threshold_image 100 50 4).
  repeat constructor.
Defined.

(** The rows of the image that [nonMaximumSuppression] returns all have the
    length of the first row of its argument. *)
Lemma nonMaximumSuppression_rectangular (pixels : Image) (directions : list (list Q))
    (out : Image) :
  nonMaximumSuppression pixels directions = Some out →
  ∃ width, rectangular width out.
Proof.
  unfold nonMaximumSuppression. intros Hout.
  case_decide; [done|].
  destruct (idx pixels 0) as [row0|]; simpl in Hout; [|done].
  destruct (idx directions 0) as [dirRow0|]; simpl in Hout; [|done].
  case_decide; [done|].
  exists (len row0). apply (mapM_Forall _ _ _ _ Hout). intros y row _ Hrow.
  apply length_mapM in Hrow. rewrite length_seqZ in Hrow. unfold len in *. lia.
Qed.

(** The last two stages of the pipeline on a rectangular image. *)
Lemma pipeline_tail (iter : gset Point → list Point) (pixels : Image)
    (high low : Q) (width : Z) :
  (∀ weak, iter weak ≡ₚ elements weak) →
  rectangular width pixels →
  ∃ out,
    (dt ← doublethreshold pixels high low;
     let '(pixels, strong, weak) := dt in
     et ← edgeTracking pixels strong (iter weak);
     Some (fst et)) = Some out ∧
    shape out = shape pixels ∧
    ∀ x y p, pixelAt pixels y x = Some p → pixelAt out y x = Some (thresholded high p).
Proof.
  intros Hiter Hrect.
  destruct (doublethreshold_inv_final pixels high low width Hrect)
    as ([[pixels' strong] weak] & -> & Hinv). simpl.
  destruct (hysteresis_pixels pixels pixels' strong weak high low width (iter weak))
    as (out & strong' & -> & Hshape & Hpix); [done..|].
  simpl. by exists out.
Qed.

(** X8. The lower ratio has no effect on what [CannyEdgeDetect] returns:
    with an iterator that yields the elements of the weak set once each, two
    runs that differ only in [minRatio] give the same result, panics
    included. *)
Theorem CannyEdgeDetect_ignores_minRatio
    (atanDeg : Q → Q) (fmul : Q → Q → Q) (iter : gset Point → list Point)
    (pixels : Image) (blur : bool) (minRatio1 minRatio2 maxRatio : Q) :
  (∀ weak, iter weak ≡ₚ elements weak) →
  CannyEdgeDetect atanDeg fmul iter pixels blur minRatio1 maxRatio =
  CannyEdgeDetect atanDeg fmul iter pixels blur minRatio2 maxRatio.
Proof.
  intros Hiter. unfold CannyEdgeDetect.
  destruct (if blur then gaussianBlur pixels 5 else Some pixels) as [blurred|];
    simpl; [|done].
  destruct (sobel atanDeg blurred) as [[magnitude angles]|]; simpl; [|done].
  destruct (nonMaximumSuppression magnitude angles) as [thinned|] eqn:Hnms;
    simpl; [|done].
  destruct (maxPixelValue thinned) as [max|]; simpl; [|done].
  apply nonMaximumSuppression_rectangular in Hnms as [width Hrect].
  destruct (pipeline_tail iter thinned (fmul maxRatio (inject_Z max))
              (fmul minRatio1 (inject_Z max)) width Hiter Hrect)
    as (out1 & -> & Hs1 & Hp1).
  destruct (pipeline_tail iter thinned (fmul maxRatio (inject_Z max))
              (fmul minRatio2 (inject_Z max)) width Hiter Hrect)
    as (out2 & -> & Hs2 & Hp2).
  f_equal. apply image_ext; [congruence|].
  intros x y. destruct (pixelAt thinned y x) as [p|] eqn:Hp.
  - by rewrite (Hp1 _ _ _ Hp), (Hp2 _ _ _ Hp).
  - assert (∀ out, shape out = shape thinned → pixelAt out y x = None) as Hnone.
    { intros out Hs. apply eq_None_not_Some. intros Hsome.
      apply (pixelAt_is_Some_shape _ thinned) in Hsome; [|done].
      rewrite Hp in Hsome. by destruct Hsome. }
    by rewrite !Hnone.
Qed.

Lemma CannyEdgeDetect_ignores_minRatio_witness :
  CannyEdgeDetect (λ _, 0%Q) Qmult elements ramp_image false (1 # 10) (3 # 5) =
  CannyEdgeDetect (λ _, 0%Q) Qmult elements ramp_image false (1 # 2) (3 # 5).
Proof.
  apply (CannyEdgeDetect_ignores_minRatio (λ _, 0%Q) Qmult elements ramp_image false).
  intros weak. reflexivity.
Defined.

(** X9. When the upper ratio does not lower the maximum, as with the ratio 1
    that the command line accepts, nothing is above the high threshold:
    [CannyEdgeDetect] returns an image of the shape of its input in which
    every pixel has intensity 0. *)
Theorem CannyEdgeDetect_black_when_high_reaches_maximum
    (atanDeg : Q → Q) (fmul : Q → Q → Q) (iter : gset Point → list Point)
    (pixels : Image) (width : Z) (blur : bool) (minRatio maxRatio : Q) :
  rectangular width pixels →
  (if blur then 3 else 2) ≤ width →
  (if blur then 3 else 2) ≤ len pixels →
  (∀ r, -(90) <= atanDeg r ∧ atanDeg r <= 90)%Q →
  (∀ weak, iter weak ≡ₚ elements weak) →
  (∀ m, 0 <= m → m <= fmul maxRatio m)%Q →
  ∃ out, CannyEdgeDetect atanDeg fmul iter pixels blur minRatio maxRatio = Some out ∧
         shape out = shape pixels ∧
         ∀ x y p, pixelAt out y x = Some p → GrayPixel.y p = 0.
Proof.
  intros Hrect Hw Hh Hatan Hiter Hmul. unfold CannyEdgeDetect.
  assert (∃ blurred, (if blur then gaussianBlur pixels 5 else Some pixels) = Some blurred ∧
                     shape blurred = shape pixels) as (blurred & -> & Hs1).
  { destruct blur; [|by exists pixels].
    destruct (gaussianBlur_returns pixels width 5 Hrect) as (out & Hout & Hs & _);
      [done | change (Z.of_N 5 / 2) with 2; lia | change (Z.of_N 5 / 2) with 2; lia |].
    by exists out. }
  simpl.
  pose proof (shape_rectangular width _ _ Hs1 Hrect) as Hrect1.
  pose proof (shape_len _ _ Hs1) as Hlen1.
  destruct (sobel_returns atanDeg blurred width Hrect1)
    as (magnitude & angles & -> & Hs2 & _ & Hsa & Hrange);
    [destruct blur; lia | destruct blur; lia |].
  simpl.
  pose proof (shape_rectangular width _ _ Hs2 Hrect1) as Hrect2.
  pose proof (shape_len _ _ Hs2) as Hlen2.
  destruct (nonMaximumSuppression_returns magnitude angles width Hrect2)
    as (thinned & -> & Hs3);
    [destruct blur; lia | by rewrite Hsa, Hs2 | by apply Hrange |].
  simpl.
  pose proof (shape_rectangular width _ _ Hs3 Hrect2) as Hrect3.
  destruct (maxPixelValue_inv_final thinned width Hrect3) as (max & -> & Hm0 & Hub & _).
  simpl.
  destruct (pipeline_tail iter thinned (fmul maxRatio (inject_Z max))
              (fmul minRatio (inject_Z max)) width Hiter Hrect3)
    as (out & -> & Hs4 & Hpix).
  exists out. split; [done|]. split; [congruence|].
  intros x y p Hp.
  assert (is_Some (pixelAt thinned y x)) as [q Hq].
  { apply (pixelAt_is_Some_shape out); [done | by eexists]. }
  rewrite (Hpix _ _ _ Hq) in Hp. injection Hp as <-.
  assert (GrayPixel.y q ≤ max) as Hle.
  { apply (Hub x y); [done|].
    destruct (proj1 (rectangular_pixelAt width thinned y x Hrect3)); [by eauto|].
    unfold visited. lia. }
  unfold thresholded. rewrite (proj2 (Qlt_bool_false _ _)); [done|].
  apply Qle_trans with (inject_Z max).
  - rewrite <- Zle_Qle. done.
  - apply Hmul. by rewrite <- (Zle_Qle 0).
Qed.

Lemma CannyEdgeDetect_black_when_high_reaches_maximum_witness :
  ∃ out, CannyEdgeDetect (λ _, 0%Q) Qmult elements ramp_image false (1 # 5) 1 = Some out ∧
         shape out = shape ramp_image ∧
         ∀ x y p, pixelAt out y x = Some p → GrayPixel.y p = 0.
Proof.
  apply (CannyEdgeDetect_black_when_high_reaches_maximum
           (λ _, 0%Q) Qmult elements ramp_image 5 false (1 # 5) 1);
    [repeat constructor | simpl; lia | unfold len; simpl; lia
    | intros r; split; vm_compute; discriminate
    | intros weak; reflexivity
    | intros m Hm; rewrite Qmult_1_l; apply Qle_refl].
Defined.

(** ** The weights of the blur kernel *)













(** ** Multiply and accumulate *)

Lemma foldM_ext {S A : Type} (f g : S → A → option S) (l : list A) (s : S) :
  (∀ s i, i ∈ l → f s i = g s i) → foldM f s l = foldM g s l.
Proof.
  revert s. induction l as [|i l IH]; intros s Hext; simpl; [done|].
  rewrite (Hext s i) by by left.
  destruct (g s i) as [s'|]; simpl; [|done].
  apply IH. intros s'' j Hj. apply Hext. by right.
Qed.

(** A loop that multiplies and accumulates [n] consecutive entries of two
    slices. *)
Lemma multiply_accumulate_segment (d1 d2 : list Q) (base : Z) (n : nat) :
  ∀ (s : Z) (a : Q),
    0 ≤ base + s →
    (Z.to_nat (base + s) + n ≤ length d1)%nat →
    (Z.to_nat (base + s) + n ≤ length d2)%nat →
    foldM (λ result x,
             v1 ← idx d1 (base + x); v2 ← idx d2 (base + x);
             Some (result + v1 * v2)%Q) a (seqZ s (Z.of_nat n)) =
    Some (foldl (λ result pk, (result + fst pk * snd pk)%Q) a
            (zip (take n (drop (Z.to_nat (base + s)) d1))
                 (take n (drop (Z.to_nat (base + s)) d2)))).
Proof.
  induction n as [|n IH]; intros s a Hs H1 H2; [done|].
  rewrite seqZ_cons by lia. simpl.
  destruct (lookup_lt_is_Some_2 d1 (Z.to_nat (base + s))) as [v1 Hv1]; [lia|].
  destruct (lookup_lt_is_Some_2 d2 (Z.to_nat (base + s))) as [v2 Hv2]; [lia|].
  rewrite (proj2 (idx_Some d1 (base + s) v1)), (proj2 (idx_Some d2 (base + s) v2)) by done.
  simpl. rewrite (drop_S _ _ _ Hv1), (drop_S _ _ _ Hv2). simpl.
  replace (Z.pred (Z.of_nat (S n))) with (Z.of_nat n) by lia.
  rewrite IH by lia.
  by replace (Z.to_nat (base + Z.succ s)) with (S (Z.to_nat (base + s))) by lia.
Qed.

(** [convolve] on two matrices of [r] rows and [c] columns multiplies and
    accumulates the entries of the two slices in their order. *)
Lemma convolve_data (r c : Z) (d1 d2 : list Q) :
  0 ≤ r → 0 ≤ c → len d1 = r * c → len d2 = r * c →
  convolve (Dense.mk r c d1) (Dense.mk r c d2) =
    Some (foldl (λ result pk, (result + fst pk * snd pk)%Q) 0%Q (zip d1 d2)).
Proof.
  intros Hr Hc H1 H2. unfold convolve. simpl.
  rewrite decide_False by (intros [?|?]; done).
  set (f := λ (result : Q) (pk : Q * Q), (result + fst pk * snd pk)%Q).
  destruct (foldM_invariant
              (λ done result,
                 result = foldl f 0%Q (zip (take (Z.to_nat (len done * c)) d1)
                                            (take (Z.to_nat (len done * c)) d2)))
              (λ result y,
                 foldM (λ result x,
                          v1 ← At (Dense.mk r c d1) y x;
                          v2 ← At (Dense.mk r c d2) y x;
                          Some (result + v1 * v2)%Q) result (seqZ 0 c))
              (seqZ 0 r) 0%Q) as (result & -> & ->); [done| |].
  - intros done y rest a Hl ->. apply seqZ_split in Hl as [-> Hy].
    rewrite len_snoc.
    rewrite (foldM_ext _ (λ result x,
                            v1 ← idx d1 (len done * c + x);
                            v2 ← idx d2 (len done * c + x);
                            Some (result + v1 * v2)%Q)).
    2:{ intros a x Hx. apply elem_of_seqZ in Hx. unfold At. simpl.
        by rewrite !decide_True by lia. }
    replace (seqZ 0 c) with (seqZ 0 (Z.of_nat (Z.to_nat c))) by by rewrite Z2Nat.id.
    unfold len in H1, H2.
    rewrite multiply_accumulate_segment by nia.
    eexists. split; [done|].
    rewrite Z.add_0_r.
    replace (Z.to_nat ((len done + 1) * c))
      with (Z.to_nat (len done * c) + Z.to_nat c)%nat by nia.
    rewrite <- !take_take_drop, zip_with_app, foldl_app; [done|].
    rewrite !length_take. nia.
  - f_equal. unfold len at 1 2. rewrite length_seqZ.
    rewrite !take_ge; [done | |]; unfold len in *; nia.
Qed.

(** X12. [convolve] on two matrices built by [NewDense] with the same
    dimensions is [innerProduct] on their data: the sum of the products of the
    entries at the same position, accumulated in row-major order; neither
    matrix is flipped. *)
Theorem convolve_is_innerProduct (r c : Z) (d1 d2 : list Q) (m1 m2 : Dense.t) :
  NewDense r c d1 = Some m1 → NewDense r c d2 = Some m2 →
  convolve m1 m2 = innerProduct d1 d2.
Proof.
  unfold NewDense. intros Hm1 Hm2.
  case_decide as H1; [|done]. case_decide as H2; [|done].
  injection Hm1 as <-. injection Hm2 as <-.
  rewrite convolve_data by lia.
  unfold innerProduct. rewrite decide_False by lia. done.
Qed.

Lemma convolve_is_innerProduct_witness :
  convolve (Dense.mk 3 3 SOBEL_X) (Dense.mk 3 3 SOBEL_Y) = innerProduct SOBEL_X SOBEL_Y.
Proof.
  apply (convolve_is_innerProduct 3 3 SOBEL_X SOBEL_Y); reflexivity.
Defined.

(** ** Flat images *)

Lemma flat_image_shape (height width : nat) (c : Z) :
  shape (flat_image height width c) = replicate height width.
Proof.
  unfold shape, flat_image. by rewrite fmap_replicate, length_replicate.
Qed.

Lemma flat_image_rectangular (height width : nat) (c : Z) :
  rectangular (Z.of_nat width) (flat_image height width c).
Proof.
  unfold rectangular, flat_image. apply Forall_replicate.
  unfold len. by rewrite length_replicate.
Qed.

Lemma flat_image_pixelAt (height width : nat) (c : Z) (y x : Z) (p : GrayPixel.t) :
  pixelAt (flat_image height width c) y x = Some p → p = px c.
Proof.
  unfold pixelAt, flat_image. intros Hp.
  destruct (idx _ y) as [row|] eqn:Hrow; simpl in Hp; [|done].
  apply idx_Some in Hrow as [_ Hrow]. apply lookup_replicate in Hrow as [-> _].
  apply idx_Some in Hp as [_ Hp]. by apply lookup_replicate in Hp as [-> _].
Qed.

(** An image of the shape of a flat image whose pixels are all [px c] is
    that flat image. *)
Lemma flat_image_ext (out : Image) (height width : nat) (c : Z) :
  shape out = replicate height width →
  (∀ x y p, pixelAt out y x = Some p → p = px c) →
  out = flat_image height width c.
Proof.
  intros Hshape Hpix. apply image_ext; [by rewrite flat_image_shape|].
  intros x y.
  destruct (pixelAt out y x) as [p|] eqn:Hp.
  - assert (is_Some (pixelAt (flat_image height width c) y x)) as [q Hq].
    { apply (pixelAt_is_Some_shape out); [by rewrite flat_image_shape | by eexists]. }
    rewrite Hq. f_equal.
    by rewrite (Hpix _ _ _ Hp), (flat_image_pixelAt _ _ _ _ _ _ Hq).
  - symmetry. apply eq_None_not_Some. intros Hsome.
    apply (pixelAt_is_Some_shape _ out) in Hsome; [|by rewrite flat_image_shape].
    rewrite Hp in Hsome. by destruct Hsome.
Qed.

(** ** The gradient of a flat image *)

Lemma concat_replicate {A : Type} (n m : nat) (x : A) :
  concat (replicate n (replicate m x)) = replicate (n * m) x.
Proof.
  induction n as [|n IH]; simpl; [done|].
  by rewrite IH, replicate_add.
Qed.

(** On a constant image every entry of the pane around a pixel is the
    constant. *)
Lemma getSorroundingPixelMatrix_constant (c width : Z) (pixels : Image)
    (posY posX length : Z) :
  rectangular width pixels → constant c pixels →
  0 ≤ posY < len pixels → 0 ≤ posX < width →
  0 ≤ length → Z.rem length 2 ≠ 0 →
  Z.quot length 2 < width → Z.quot length 2 < len pixels →
  getSorroundingPixelMatrix pixels posY posX length =
    Some (Dense.mk length length
            (replicate (Z.to_nat length * Z.to_nat length) (inject_Z c))).
Proof.
  intros Hrect Hconst Hy Hx Hlen Hodd Hw Hh.
  destruct (odd_length_padding length Hlen Hodd) as [Hpad Hpad0].
  unfold getSorroundingPixelMatrix. rewrite decide_False by done.
  set (padding := Z.quot length 2) in *.
  destruct (proj2 (idx_is_Some pixels 0)) as [row0 Hrow0]; [lia|].
  rewrite Hrow0. simpl. rewrite (rectangular_row _ _ _ _ Hrect Hrow0).
  replace (posX + padding - (posX - padding) + 1) with length by lia.
  replace (posY + padding - (posY - padding) + 1) with length by lia.
  rewrite (mapM_const _ _ (replicate (Z.to_nat length) (inject_Z c))).
  - simpl. rewrite length_seqZ, concat_replicate.
    unfold NewDense. rewrite decide_True; [done|].
    unfold len. rewrite length_replicate. nia.
  - intros y' Hy'. apply elem_of_seqZ in Hy'.
    rewrite <- (length_seqZ (posX - padding) length).
    apply mapM_const. intros x' Hx'. apply elem_of_seqZ in Hx'.
    match goal with
    | |- pixelAt pixels ?r ?col ≫= _ = _ =>
        destruct (proj2 (rectangular_pixelAt width pixels r col Hrect)) as [p Hp]
    end.
    { unfold abs. repeat case_decide; lia. }
    rewrite Hp. simpl. by rewrite (constant_pixelAt _ _ _ _ _ Hconst Hp).
Qed.

(** The gradient stage on a constant image: no magnitude, no direction. *)
Lemma sobel_constant (atanDeg : Q → Q) (pixels : Image) (c width : Z) :
  rectangular width pixels → constant c pixels →
  2 ≤ width → 2 ≤ len pixels →
  sobel atanDeg pixels =
    Some (flat_image (length pixels) (Z.to_nat width) 0,
          replicate (length pixels) (replicate (Z.to_nat width) 0%Q)).
Proof.
  intros Hrect Hconst Hw Hh. unfold sobel. simpl.
  rewrite (mapM_const _ _ (replicate (Z.to_nat width) (px 0, 0%Q))).
  - simpl. rewrite length_seqZ. unfold len. rewrite Nat2Z.id.
    change map with (@fmap list _).
    unfold flat_image. by rewrite !fmap_replicate.
  - intros y Hy. apply elem_of_seqZ in Hy.
    destruct (proj2 (idx_is_Some pixels y)) as [prow Hprow]; [lia|].
    rewrite Hprow. simpl. rewrite (rectangular_row _ _ _ _ Hrect Hprow).
    rewrite <- (length_seqZ 0 width).
    apply mapM_const. intros x Hx. apply elem_of_seqZ in Hx.
    rewrite (getSorroundingPixelMatrix_constant c width) by
      (try done; try lia; change (Z.quot 3 2) with 1; lia).
    simpl.
    match goal with
    | |- Some ({| GrayPixel.y := uint8_sqrt (?sx * ?sx + ?sy * ?sy);
                  GrayPixel.a := _ |}, _) = _ =>
        remember sx as gx eqn:Egx; remember sy as gy eqn:Egy
    end.
    assert (gx == 0)%Q as Hx0 by (subst gx; ring).
    assert (gy == 0)%Q as Hy0 by (subst gy; ring).
    rewrite (proj2 (Qeq_bool_iff gx 0) Hx0). simpl.
    f_equal. f_equal. unfold px. f_equal.
    unfold uint8_sqrt. rewrite Hx0, Hy0. done.
Qed.

(** The blur stage on a constant image returns a constant image of the same
    shape. *)
Lemma gaussianBlur_constant (pixels : Image) (c width : Z) (kernelSize : N) :
  rectangular width pixels → constant c pixels →
  (kernelSize mod 2 ≠ 0)%N →
  Z.of_N kernelSize / 2 < width →
  Z.of_N kernelSize / 2 < len pixels →
  ∃ out c', gaussianBlur pixels kernelSize = Some out ∧
            shape out = shape pixels ∧ constant c' out.
Proof.
  intros Hrect Hconst Hodd Hw Hh.
  destruct (gaussianBlur_returns pixels width kernelSize Hrect Hodd Hw Hh)
    as (out & Hout & Hshape & _).
  exists out, (uint8_of_Z (Z.sqrt (2 * c * c))). split; [done|]. split; [done|].
  revert Hout. unfold gaussianBlur. rewrite decide_False by done.
  destruct (getPascalTriangleRow_Some (kernelSize - 1)) as (row & -> & Hrowlen & Hsum).
  simpl. set (kernel := normalizeVec row).
  assert (len kernel = Z.of_N kernelSize) as Hlen.
  { unfold len, kernel, normalizeVec. rewrite length_map, Hrowlen.
    assert (kernelSize ≠ 0)%N by (intros ->; by apply Hodd). lia. }
  assert (Z.rem (len kernel) 2 ≠ 0) as Hrem.
  { rewrite Hlen. rewrite Z.rem_mod_nonneg by lia.
    change 2 with (Z.of_N 2). rewrite <- N2Z.inj_mod. lia. }
  assert (Z.quot (len kernel) 2 = Z.of_N kernelSize / 2) as Hquot.
  { rewrite Hlen. apply Z.quot_div_nonneg; lia. }
  intros Hout. unfold constant.
  apply (mapM_Forall _ _ _ _ Hout). intros y orow Hy Horow.
  apply elem_of_seqZ in Hy.
  destruct (idx pixels y) as [prow|] eqn:Hprow; simpl in Horow; [|done].
  rewrite (rectangular_row _ _ _ _ Hrect Hprow) in Horow.
  apply (mapM_Forall _ _ _ _ Horow). intros x p Hx Hp.
  apply elem_of_seqZ in Hx.
  rewrite !(getPixelVector_constant c width) in Hp by (try done; unfold len in *; lia).
  simpl in Hp.
  replace (Z.to_nat (len kernel)) with (length kernel) in Hp
    by (unfold len; by rewrite Nat2Z.id).
  destruct (innerProduct_constant (inject_Z c) kernel) as (s & Hs & Heq).
  rewrite Hs in Hp. simpl in Hp. injection Hp as <-. simpl.
  assert (s == inject_Z c)%Q as Hsc.
  { rewrite Heq. unfold kernel. rewrite (normalizeVec_sum row Hsum). ring. }
  by apply uint8_sqrt_constant.
Qed.

(** X13. The gradient of a constant image of at least two rows and two
    columns vanishes: [sobel] returns the black image of the same size and a
    direction field of zeros, whatever the constant. *)
Theorem sobel_flat_image_has_no_gradient
    (atanDeg : Q → Q) (pixels : Image) (c width : Z) :
  rectangular width pixels → constant c pixels →
  2 ≤ width → 2 ≤ len pixels →
  sobel atanDeg pixels =
    Some (flat_image (length pixels) (Z.to_nat width) 0,
          replicate (length pixels) (replicate (Z.to_nat width) 0%Q)).
Proof. apply sobel_constant. Qed.

Lemma sobel_flat_image_has_no_gradient_witness :
  sobel (λ _, 0%Q) (flat_image 3 4 100) =
    Some (flat_image (length (flat_image 3 4 100)) (Z.to_nat 4) 0,
          replicate (length (flat_image 3 4 100)) (replicate (Z.to_nat 4) 0%Q)).
Proof.
  apply (sobel_flat_image_has_no_gradient (λ _, 0%Q) (flat_image 3 4 100) 100 4);
    [repeat constructor | repeat constructor | lia | unfold len; simpl; lia].
Defined.

(** X14. An image without contrast has no edges: on a constant image of
    at least three rows and columns (two when the blur is skipped)
    [CannyEdgeDetect] returns the black image of the same size, whatever the
    constant, the ratios and the arctangent. *)
Theorem CannyEdgeDetect_flat_image_is_black
    (atanDeg : Q → Q) (fmul : Q → Q → Q) (iter : gset Point → list Point)
    (pixels : Image) (c width : Z) (blur : bool) (minRatio maxRatio : Q) :
  rectangular width pixels → constant c pixels →
  (if blur then 3 else 2) ≤ width →
  (if blur then 3 else 2) ≤ len pixels →
  (∀ weak, iter weak ≡ₚ elements weak) →
  CannyEdgeDetect atanDeg fmul iter pixels blur minRatio maxRatio =
    Some (flat_image (length pixels) (Z.to_nat width) 0).
Proof.
  intros Hrect Hconst Hw Hh Hiter. unfold CannyEdgeDetect.
  assert (∃ blurred c', (if blur then gaussianBlur pixels 5 else Some pixels) = Some blurred ∧
                        shape blurred = shape pixels ∧ constant c' blurred)
    as (blurred & c' & -> & Hs1 & Hc1).
  { destruct blur; [|by exists pixels, c].
    apply (gaussianBlur_constant pixels c width 5 Hrect Hconst);
      [done | change (Z.of_N 5 / 2) with 2; lia | change (Z.of_N 5 / 2) with 2; lia]. }
  simpl.
  pose proof (shape_rectangular width _ _ Hs1 Hrect) as Hrect1.
  pose proof (shape_len _ _ Hs1) as Hlen1.
  assert (2 ≤ width) as Hw2 by (destruct blur; lia).
  assert (2 ≤ len pixels) as Hh2 by (destruct blur; lia).
  rewrite (sobel_constant atanDeg blurred c' width Hrect1 Hc1) by lia. simpl.
  assert (length blurred = length pixels) as -> by (unfold len in Hlen1; lia).
  set (black := flat_image (length pixels) (Z.to_nat width) 0).
  assert (shape black = replicate (length pixels) (Z.to_nat width)) as Hsb
    by apply flat_image_shape.
  assert (rectangular width black) as Hrectb.
  { rewrite <- (Z2Nat.id width) by lia. apply flat_image_rectangular. }
  assert (len black = len pixels) as Hlenb.
  { unfold len, black, flat_image. by rewrite length_replicate. }
  destruct (nonMaximumSuppression_returns black
              (replicate (length pixels) (replicate (Z.to_nat width) 0%Q)) width Hrectb)
    as (thinned & Hnms & Hs3).
  { lia. }
  { rewrite Hsb, fmap_replicate. by rewrite length_replicate. }
  { unfold in_range. do 2 apply Forall_replicate. split; vm_compute; discriminate. }
  rewrite Hnms. simpl.
  assert (thinned = black) as ->.
  { apply flat_image_ext; [congruence|]. intros x y p Hp.
    assert (is_Some (pixelAt black y x)) as [r Hr].
    { apply (pixelAt_is_Some_shape thinned); [done | by eexists]. }
    destruct (nonMaximumSuppression_pixel _ _ _ _ _ _ Hnms Hs3 Hr) as (p' & q' & _ & Hp').
    rewrite Hp in Hp'. injection Hp' as ->.
    apply flat_image_pixelAt in Hr as ->. by destruct (_ || _). }
  destruct (maxPixelValue_returns black width Hrectb) as [max ->]. simpl.
  destruct (pipeline_tail iter black (fmul maxRatio (inject_Z max))
              (fmul minRatio (inject_Z max)) width Hiter Hrectb)
    as (out & -> & Hs4 & Hpix).
  f_equal. apply flat_image_ext; [congruence|]. intros x y p Hp.
  assert (is_Some (pixelAt black y x)) as [r Hr].
  { apply (pixelAt_is_Some_shape out); [done | by eexists]. }
  rewrite (Hpix _ _ _ Hr) in Hp. injection Hp as <-.
  apply flat_image_pixelAt in Hr as ->.
  unfold thresholded. by destruct (Qlt_bool _ _).
Qed.

Lemma CannyEdgeDetect_flat_image_is_black_witness :
  CannyEdgeDetect (λ _, 0%Q) Qmult elements (flat_image 4 5 100) true (1 # 5) (3 # 5) =
    Some (flat_image (length (flat_image 4 5 100)) (Z.to_nat 5) 0).
Proof.
  apply (CannyEdgeDetect_flat_image_is_black
           (λ _, 0%Q) Qmult elements (flat_image 4 5 100) 100 5 true);
    [repeat constructor | repeat constructor | simpl; lia | unfold len; simpl; lia
    | intros weak; reflexivity].
Defined.

(** ** Images too small for the samplers *)

Lemma mapM_seqZ_first_None {B : Type} (f : Z → option B) (start n : Z) :
  0 < n → f start = None → mapM f (seqZ start n) = None.
Proof. intros Hn Hf. rewrite seqZ_cons by done. simpl. by rewrite Hf. Qed.

(** The blur with a kernel of size five panics on an image that has pixels
    but fewer than three rows or fewer than three columns. *)
Lemma gaussianBlur_small (pixels : Image) (width : Z) :
  rectangular width pixels → 1 ≤ len pixels → 1 ≤ width →
  width < 3 ∨ len pixels < 3 →
  gaussianBlur pixels 5 = None.
Proof.
  intros Hrect Hh Hw Hsmall. unfold gaussianBlur. rewrite decide_False by done.
  destruct (getPascalTriangleRow_Some (5 - 1)) as (row & -> & Hrowlen & _). simpl.
  assert (len (normalizeVec row) = 5) as ->.
  { unfold len, normalizeVec. rewrite length_map, Hrowlen. done. }
  destruct (proj2 (idx_is_Some pixels 0)) as [row0 Hrow0]; [lia|].
  pose proof (rectangular_row _ _ _ _ Hrect Hrow0) as Hwidth.
  apply mapM_seqZ_first_None; [lia|]. rewrite Hrow0. simpl.
  rewrite mapM_seqZ_first_None; [done | lia |].
  assert (len pixels < 3 → getPixelVector pixels 0 0 5 VERTICAL = None) as Hvert.
  { intros Hlt. unfold getPixelVector. rewrite decide_False by done.
    change (Z.quot 5 2) with 2. cbv zeta.
    apply mapM_seqZ_first_None; [done|].
    rewrite decide_True by done. change (0 + abs (0 - 2)) with 2.
    assert (pixelAt pixels 2 0 = None) as ->; [|done].
    apply eq_None_not_Some. rewrite (rectangular_pixelAt width) by done. lia. }
  assert (width < 3 → getPixelVector pixels 0 0 5 HORIZONTAL = None) as Hhor.
  { intros Hlt. unfold getPixelVector. rewrite decide_False by done.
    change (Z.quot 5 2) with 2. cbv zeta.
    apply mapM_seqZ_first_None; [done|]. cbv beta. rewrite Hrow0.
    cbn [mbind option_bind].
    rewrite decide_True by done. change (0 + abs (0 - 2)) with 2.
    assert (idx row0 2 = None) as ->; [|done].
    apply idx_None. lia. }
  destruct (getPixelVector pixels 0 0 5 VERTICAL) as [vecVert|] eqn:Hv; simpl; [|done].
  destruct Hsmall as [Hlt|Hlt]; [by rewrite Hhor|].
  by specialize (Hvert Hlt).
Qed.

(** The gradient stage panics on an image that has pixels but a single row
    or a single column. *)
Lemma sobel_small (atanDeg : Q → Q) (pixels : Image) (width : Z) :
  rectangular width pixels → 1 ≤ len pixels → 1 ≤ width →
  width < 2 ∨ len pixels < 2 →
  sobel atanDeg pixels = None.
Proof.
  intros Hrect Hh Hw Hsmall. unfold sobel. simpl.
  destruct (proj2 (idx_is_Some pixels 0)) as [row0 Hrow0]; [lia|].
  pose proof (rectangular_row _ _ _ _ Hrect Hrow0) as Hwidth.
  rewrite mapM_seqZ_first_None; [done | lia |].
  rewrite Hrow0. simpl.
  rewrite mapM_seqZ_first_None; [done | lia |].
  assert (getSorroundingPixelMatrix pixels 0 0 3 = None) as ->; [|done].
  unfold getSorroundingPixelMatrix. rewrite decide_False by done.
  change (Z.quot 3 2) with 1. cbv zeta. rewrite Hrow0.
  cbn [mbind option_bind].
  rewrite mapM_seqZ_first_None; [done | done |].
  apply mapM_seqZ_first_None; [done|].
  rewrite !decide_True by done. change (0 + abs (0 - 1)) with 1.
  assert (pixelAt pixels 1 1 = None) as ->; [|done].
  apply eq_None_not_Some. rewrite (rectangular_pixelAt width) by done. lia.
Qed.

(** X15. On a rectangular image that has pixels, [CannyEdgeDetect] returns
    exactly when the image has at least three rows and three columns, two of
    each when the blur is skipped; on a smaller image the samplers index
    outside the image and the run panics. *)
Theorem CannyEdgeDetect_returns_iff_large_enough
    (atanDeg : Q → Q) (fmul : Q → Q → Q) (iter : gset Point → list Point)
    (pixels : Image) (width : Z) (blur : bool) (minRatio maxRatio : Q) :
  rectangular width pixels → 1 ≤ len pixels → 1 ≤ width →
  (∀ r, -(90) <= atanDeg r ∧ atanDeg r <= 90)%Q →
  (∀ weak, iter weak ≡ₚ elements weak) →
  is_Some (CannyEdgeDetect atanDeg fmul iter pixels blur minRatio maxRatio) ↔
  (if blur then 3 else 2) ≤ width ∧ (if blur then 3 else 2) ≤ len pixels.
Proof.
  intros Hrect Hh Hw Hatan Hiter. split.
  - intros [out Hout].
    destruct (decide ((if blur then 3 else 2) ≤ width ∧
                      (if blur then 3 else 2) ≤ len pixels)) as [|Hsmall]; [done|].
    exfalso. revert Hout. unfold CannyEdgeDetect. destruct blur.
    + rewrite (gaussianBlur_small pixels width) by (try done; lia). done.
    + simpl. rewrite (sobel_small atanDeg pixels width) by (try done; lia). done.
  - intros [Hw' Hh'].
    destruct (CannyEdgeDetect_returns atanDeg fmul iter pixels width blur
                minRatio maxRatio Hrect Hw' Hh' Hatan Hiter) as (out & -> & _).
    by eexists.
Qed.

Lemma CannyEdgeDetect_returns_iff_large_enough_witness :
  is_Some (CannyEdgeDetect (λ _, 0%Q) Qmult elements corner_image true (1 # 5) (3 # 5)) ↔
  3 ≤ 2 ∧ 3 ≤ len corner_image.
Proof.
  apply (CannyEdgeDetect_returns_iff_large_enough
           (λ _, 0%Q) Qmult elements corner_image 2 true);
    [repeat constructor | unfold len; simpl; lia | lia
    | intros r; split; vm_compute; discriminate
    | intros weak; reflexivity].
Defined.

(** ** Writing the result *)

Lemma substring_get (path : string) (i m : nat) (c : Ascii.ascii) :
  String.get i path = Some c →
  ∃ rest, String.substring i (S m) path = String c rest.
Proof.
  revert i. induction path as [|c' path IH]; intros i Hget; [by destruct i|].
  destruct i as [|i]; simpl in *.
  - injection Hget as ->. by eexists.
  - by apply IH.
Qed.

Lemma get_Some_lt (path : string) (i : nat) (c : Ascii.ascii) :
  String.get i path = Some c → (i < String.length path)%nat.
Proof.
  revert i. induction path as [|c' path IH]; intros i Hget; [by destruct i|].
  destruct i as [|i]; simpl in *; [lia|]. apply IH in Hget. lia.
Qed.

(** The extension that [filepath.Ext] returns is empty or begins with the
    dot. *)
Lemma Ext_dot (path : string) :
  Ext path = ""%string ∨ ∃ rest, Ext path = String "."%char rest.
Proof.
  unfold Ext.
  assert (∀ n, Ext_loop path n = ""%string ∨
               ∃ rest, Ext_loop path n = String "."%char rest) as Hloop; [|done].
  induction n as [|i IH]; simpl; [by left|].
  destruct (String.get i path) as [c|] eqn:Hget; [|by left].
  destruct (IsPathSeparator c); [by left|].
  destruct (Ascii.eqb c ".") eqn:Hdot; [|done].
  apply Ascii.eqb_eq in Hdot as ->. right.
  pose proof (get_Some_lt _ _ _ Hget) as Hlt.
  replace (String.length path - i)%nat with (S (String.length path - S i)) by lia.
  by apply substring_get.
Qed.

(** X16. [writeImage] hands every image to the JPEG encoder with quality
    95, whatever the path: the extension that [filepath.Ext] returns begins
    with the dot, so it never equals [png], and a path that ends in [.png]
    gets JPEG data as well. *)
Theorem writeImage_always_encodes_JPEG (pixels : Image) (path : string) :
  writeImage pixels path =
    (grayImg ← getImageFromArray pixels; Some (JPEG 95, grayImg)).
Proof.
  unfold writeImage.
  destruct (getImageFromArray pixels) as [grayImg|]; simpl; [|done].
  rewrite decide_False; [done|].
  destruct (Ext_dot path) as [->|[rest ->]]; discriminate.
Qed.

(** The buffer of [getImageFromArray] when its loops are about to visit
    column [xc] of row [yc]: the bytes of the pixels visited so far hold their
    intensities, the others are still clear. *)
Lemma getImageFromArray_inv_step (pixels : Image) (w h : Z) (img : Gray.t)
    (y x : Z) (p : GrayPixel.t) :
  0 ≤ w → 0 ≤ y < h →
  pixelAt pixels y x = Some p →
  Gray.Stride img = w → Gray.Rect img = Rectangle.mk 0 0 w h →
  (∀ x' y', 0 ≤ x' < w → 0 ≤ y' < h →
     idx (Gray.Pix img) (y' * w + x') =
       Some (if decide (visited y x x' y')
             then from_option GrayPixel.y 0 (pixelAt pixels y' x') else 0)) →
  ∃ img', SetGray img x y (GrayPixel.y p) = Some img' ∧
    Gray.Stride img' = w ∧ Gray.Rect img' = Rectangle.mk 0 0 w h ∧
    ∀ x' y', 0 ≤ x' < w → 0 ≤ y' < h →
      idx (Gray.Pix img') (y' * w + x') =
        Some (if decide (visited y (x + 1) x' y')
              then from_option GrayPixel.y 0 (pixelAt pixels y' x') else 0).
Proof.
  intros Hw Hy Hp Hstride Hrect Hpix.
  pose proof (pixelAt_nonneg _ _ _ _ Hp) as [_ Hx].
  unfold SetGray, PixOffset. rewrite Hrect, Hstride. simpl.
  destruct (decide (In x y (Rectangle.mk 0 0 w h))) as [Hin|Hout].
  - unfold In in Hin. simpl in Hin.
    rewrite !Z.sub_0_r, (Hpix x y) by lia. simpl.
    eexists. split; [done|]. simpl. split; [done|]. split; [done|].
    intros x' y' Hx' Hy'.
    destruct (decide (x' = x ∧ y' = y)) as [[-> ->]|Hne].
    + rewrite decide_True by (unfold visited; lia). rewrite Hp. simpl.
      apply idx_Some. split; [nia|].
      apply list_lookup_insert_eq.
      specialize (Hpix x y ltac:(lia) ltac:(lia)).
      apply idx_Some in Hpix as [_ Hpix]. by apply lookup_lt_Some in Hpix.
    + specialize (Hpix x' y' Hx' Hy'). apply idx_Some in Hpix as [Hnn Hpix].
      apply idx_Some. split; [done|].
      assert (y * w + x ≠ y' * w + x') as Hoff.
      { intros Heq. destruct (Z.lt_trichotomy y y') as [Hlt|[->|Hgt]].
        - assert ((y + 1) * w ≤ y' * w) by nia. lia.
        - apply Hne. lia.
        - assert ((y' + 1) * w ≤ y * w) by nia. lia. }
      assert (0 ≤ y * w + x) by nia.
      rewrite list_lookup_insert_ne by lia. rewrite Hpix. f_equal.
      destruct (decide (visited y x x' y')), (decide (visited y (x + 1) x' y'));
        try done; unfold visited in *; lia.
  - exists img. split; [done|]. split; [done|]. split; [done|].
    intros x' y' Hx' Hy'. rewrite (Hpix x' y') by done. f_equal.
    unfold In in Hout. simpl in Hout.
    destruct (decide (visited y x x' y')), (decide (visited y (x + 1) x' y'));
      try done; unfold visited in *; lia.
Qed.

(** X17. [getImageFromArray] on an image with a first row returns a gray
    image whose rectangle is as wide as the first row and as high as the
    image; the intensity that [GrayAt] reads at a column of the first row is
    that of the pixel at the same place, and zero where a shorter row has no
    pixel; right of the first row it is zero, so longer rows are cut.  The
    opacities are not written. *)
Theorem getImageFromArray_GrayAt (pixels : Image) (row0 : list GrayPixel.t) :
  idx pixels 0 = Some row0 →
  ∃ img, getImageFromArray pixels = Some img ∧
    Gray.Rect img = Rectangle.mk 0 0 (len row0) (len pixels) ∧
    (∀ x y, x < len row0 →
       GrayAt img x y = Some (from_option GrayPixel.y 0 (pixelAt pixels y x))) ∧
    (∀ x y, len row0 ≤ x → GrayAt img x y = Some 0).
Proof.
  intros Hrow0. unfold getImageFromArray. rewrite Hrow0. simpl.
  set (w := len row0). set (h := len pixels).
  assert (0 ≤ w) as Hw by (unfold w, len; lia).
  assert (0 ≤ h) as Hh by (unfold h, len; lia).
  assert (Rect 0 0 w h = Rectangle.mk 0 0 w h) as ->.
  { unfold Rect. by rewrite !decide_False by lia. }
  set (Inv := λ (yc xc : Z) (img : Gray.t),
         Gray.Stride img = w ∧ Gray.Rect img = Rectangle.mk 0 0 w h ∧
         ∀ x' y', 0 ≤ x' < w → 0 ≤ y' < h →
           idx (Gray.Pix img) (y' * w + x') =
             Some (if decide (visited yc xc x' y')
                   then from_option GrayPixel.y 0 (pixelAt pixels y' x') else 0)).
  destruct (foldM_invariant (λ done img, Inv (len done) 0 img)
              (λ img y,
                 row ← idx pixels y;
                 foldM (λ img x, p ← pixelAt pixels y x; SetGray img x y (GrayPixel.y p))
                   img (seqZ 0 (len row)))
              (seqZ 0 h) (NewGray (Rectangle.mk 0 0 w h)))
    as (img & Himg & Hstride & Hrect & Hpix).
  - split; [by unfold NewGray, Dx; simpl; rewrite Z.sub_0_r|]. split; [done|].
    intros x' y' Hx' Hy'. rewrite decide_False by (unfold visited, len; simpl; lia).
    apply idx_Some. split; [nia|].
    apply lookup_replicate. split; [done|].
    unfold Dx, Dy. simpl. nia.
  - intros doneY y restY img0 Hl Hinv. apply seqZ_split in Hl as [-> Hy].
    rewrite len_snoc.
    destruct (proj2 (idx_is_Some pixels (len doneY))) as [row Hrow]; [done|].
    rewrite Hrow. simpl.
    destruct (foldM_invariant (λ done img, Inv (len doneY) (len done) img)
                (λ img x, p ← pixelAt pixels (len doneY) x;
                          SetGray img x (len doneY) (GrayPixel.y p))
                (seqZ 0 (len row)) img0) as (img1 & Hrun & Hs1 & Hr1 & Hp1); [done| |].
    + intros doneX x restX img1 Hl (Hs1 & Hr1 & Hp1).
      apply seqZ_split in Hl as [-> Hx]. rewrite len_snoc.
      destruct (proj2 (idx_is_Some row (len doneX))) as [p Hp]; [done|].
      assert (pixelAt pixels (len doneY) (len doneX) = Some p) as Hpa.
      { unfold pixelAt. by rewrite Hrow. }
      rewrite Hpa. simpl.
      by apply (getImageFromArray_inv_step pixels w h img1).
    + exists img1. split; [done|]. split; [done|]. split; [done|].
      intros x' y' Hx' Hy'. rewrite (Hp1 x' y') by done. f_equal.
      assert (len (seqZ 0 (len row)) = len row) as ->
        by (unfold len; rewrite length_seqZ; lia).
      destruct (decide (visited (len doneY) (len row) x' y')) as [Hv|Hv],
               (decide (visited (len doneY + 1) 0 x' y')) as [Hv'|Hv'];
        try done; unfold visited in *; try lia.
      assert (y' = len doneY ∧ len row ≤ x') as [-> Hx''] by lia.
      unfold pixelAt. rewrite Hrow. simpl.
      by rewrite (proj2 (idx_None row x')) by lia.
  - exists img. split; [done|]. split; [done|].
    assert (len (seqZ 0 h) = h) as Hlen by (unfold len; rewrite length_seqZ; lia).
    rewrite Hlen in Hpix.
    split.
    + intros x y Hx. unfold GrayAt, PixOffset. rewrite Hrect, Hstride. simpl.
      destruct (decide (In x y (Rectangle.mk 0 0 w h))) as [Hin|Hout].
      * unfold In in Hin. simpl in Hin.
        rewrite !Z.sub_0_r, (Hpix x y) by lia.
        by rewrite decide_True by (unfold visited; lia).
      * unfold In in Hout. simpl in Hout.
        destruct (pixelAt pixels y x) as [p|] eqn:Hp; [|done].
        pose proof (pixelAt_nonneg _ _ _ _ Hp) as [? ?].
        unfold pixelAt in Hp. destruct (idx pixels y) as [row|] eqn:Hrow; [|done].
        apply idx_bounds in Hrow. fold h in Hrow. lia.
    + intros x y Hx. unfold GrayAt. rewrite Hrect.
      rewrite decide_False; [done|]. unfold In. simpl. lia.
Qed.

Lemma getImageFromArray_GrayAt_witness :
  ∃ img, getImageFromArray corner_image = Some img ∧
    Gray.Rect img = Rectangle.mk 0 0 (len (map px [10; 20])) (len corner_image) ∧
    (∀ x y, x < len (map px [10; 20]) →
       GrayAt img x y = Some (from_option GrayPixel.y 0 (pixelAt corner_image y x))) ∧
    (∀ x y, len (map px [10; 20]) ≤ x → GrayAt img x y = Some 0).
Proof.
  apply (getImageFromArray_GrayAt corner_image (map px [10; 20])). reflexivity.
Defined.

(** ** The samplers, entry by entry *)

Lemma concat_lookup_uniform {A : Type} (rows : list (list A)) (n i j : nat)
    (r : list A) :
  Forall (λ r, length r = n) rows → rows !! i = Some r → (j < n)%nat →
  concat rows !! (i * n + j)%nat = r !! j.
Proof.
  revert i. induction rows as [|r0 rows IH]; intros i Hrows Hr Hj; [done|].
  apply Forall_cons in Hrows as [Hr0 Hrows]. simpl.
  destruct i as [|i]; simpl in *.
  - injection Hr as ->. apply lookup_app_l. lia.
  - rewrite lookup_app_r by lia.
    replace (n + i * n + j - length r0)%nat with (i * n + j)%nat by lia.
    by apply IH.
Qed.

(** The entry of the pane in row [i] and column [j], with the coordinates
    that the code computes for it. *)
Lemma getSorroundingPixelMatrix_At (pixels : Image) (posY posX length : Z)
    (row0 : list GrayPixel.t) (m : Dense.t) (i j : Z) :
  idx pixels 0 = Some row0 →
  getSorroundingPixelMatrix pixels posY posX length = Some m →
  0 ≤ length → 0 ≤ i < length → 0 ≤ j < length →
  let y := posY - Z.quot length 2 + i in
  let x := posX - Z.quot length 2 + j in
  let curY := if decide (y < 0) then posY + abs y
              else if decide (len pixels ≤ y) then posY - (y - len pixels + 1)
              else y in
  let curX := if decide (x < 0) then posX + abs x
              else if decide (len row0 ≤ x) then posX - (x - len row0 + 1)
              else x in
  ∃ p, pixelAt pixels curY curX = Some p ∧
       At m i j = Some (inject_Z (GrayPixel.y p)).
Proof.
  intros Hrow0 Hm Hlen Hi Hj. unfold getSorroundingPixelMatrix in Hm.
  case_decide as Hodd; [done|].
  destruct (odd_length_padding length Hlen Hodd) as [Hpad Hpad0].
  set (padding := Z.quot length 2) in *.
  rewrite Hrow0 in Hm. simpl in Hm.
  replace (posX + padding - (posX - padding) + 1) with length in Hm by lia.
  replace (posY + padding - (posY - padding) + 1) with length in Hm by lia.
  match type of Hm with
  | (mapM ?f ?l ≫= _) = _ => destruct (mapM f l) as [values|] eqn:Hvalues
  end; simpl in Hm; [|done].
  unfold NewDense in Hm. case_decide as Hdim; [|done]. injection Hm as <-.
  assert (Forall (λ r, List.length r = Z.to_nat length) values) as Hrows.
  { apply (mapM_Forall _ _ _ _ Hvalues). intros y' r _ Hr.
    apply length_mapM in Hr. by rewrite length_seqZ in Hr. }
  destruct (mapM_seqZ_idx _ _ _ _ (posY - padding + i) Hvalues)
    as (row & Hrow & Hidx); [lia|].
  destruct (mapM_seqZ_idx _ _ _ _ (posX - padding + j) Hrow)
    as (v & Hv & Hidxv); [lia|].
  simpl. 
  destruct (pixelAt pixels _ _) as [p|]; simpl in Hv; [|done].
  injection Hv as <-. exists p. split; [done|].
  unfold At. simpl. rewrite decide_True by lia.
  replace (posY - padding + i - (posY - padding)) with i in Hidx by lia.
  replace (posX - padding + j - (posX - padding)) with j in Hidxv by lia.
  apply idx_Some in Hidx as [_ Hidx]. apply idx_Some in Hidxv as [_ Hidxv].
  apply idx_Some. split; [nia|].
  replace (Z.to_nat (i * length + j))
    with (Z.to_nat i * Z.to_nat length + Z.to_nat j)%nat by nia.
  rewrite (concat_lookup_uniform _ _ _ _ _ Hrows Hidx) by lia. done.
Qed.

(** X18. The pane of three rows and columns that the gradient stage
    samples is mirrored about the border: on a rectangular image of at least
    two rows and columns [getSorroundingPixelMatrix] returns for every pixel,
    and the entry in row [i] and column [j] is the intensity of the pixel
    whose coordinates are those of the entry reflected into the image. *)
Theorem pane_of_three_reflects_at_the_border (pixels : Image) (width : Z)
    (posY posX : Z) :
  rectangular width pixels →
  0 ≤ posY < len pixels → 0 ≤ posX < width →
  2 ≤ width → 2 ≤ len pixels →
  ∃ m, getSorroundingPixelMatrix pixels posY posX 3 = Some m ∧
    ∀ i j, 0 ≤ i < 3 → 0 ≤ j < 3 →
      ∃ p, pixelAt pixels (reflect (posY - 1 + i) (len pixels))
                          (reflect (posX - 1 + j) width) = Some p ∧
           At m i j = Some (inject_Z (GrayPixel.y p)).
Proof.
  intros Hrect Hy Hx Hw Hh.
  destruct (getSorroundingPixelMatrix_returns width pixels posY posX 3 Hrect)
    as (m & Hm & _); try done; try (change (Z.quot 3 2) with 1; lia).
  exists m. split; [done|]. intros i j Hi Hj.
  destruct (proj2 (idx_is_Some pixels 0)) as [row0 Hrow0]; [lia|].
  pose proof (rectangular_row _ _ _ _ Hrect Hrow0) as Hwidth.
  destruct (getSorroundingPixelMatrix_At pixels posY posX 3 row0 m i j Hrow0 Hm)
    as (p & Hp & HAt); [lia | done | done |].
  exists p. split; [|done].
  rewrite <- Hp. change (Z.quot 3 2) with 1. rewrite Hwidth.
  unfold reflect, abs. f_equal; repeat case_decide; lia.
Qed.

Lemma pane_of_three_reflects_at_the_border_witness :
  ∃ m, getSorroundingPixelMatrix grid_image 0 4 3 = Some m ∧
    ∀ i j, 0 ≤ i < 3 → 0 ≤ j < 3 →
      ∃ p, pixelAt grid_image (reflect (0 - 1 + i) (len grid_image))
                              (reflect (4 - 1 + j) 5) = Some p ∧
           At m i j = Some (inject_Z (GrayPixel.y p)).
Proof.
  apply (pane_of_three_reflects_at_the_border grid_image 5 0 4);
    [repeat constructor | unfold len; simpl; lia | lia | lia | unfold len; simpl; lia].
Defined.

Lemma mapM_seqZ_entries {B : Type} (f : Z → option B) (g : Z → B) (start n : Z) :
  0 ≤ n →
  (∀ i, start ≤ i < start + n → f i = Some (g i)) →
  ∃ v, mapM f (seqZ start n) = Some v ∧ len v = n ∧
       ∀ k, 0 ≤ k < n → idx v k = Some (g (start + k)).
Proof.
  intros Hn Hf. exists (g <$> seqZ start n). split; [|split].
  - apply mapM_fmap. intros i Hi. apply Hf. by apply elem_of_seqZ in Hi.
  - unfold len. rewrite length_fmap, length_seqZ. lia.
  - intros k Hk. apply idx_Some. split; [lia|].
    rewrite list_lookup_fmap, lookup_seqZ_lt by lia. simpl.
    by rewrite Z2Nat.id by lia.
Qed.

(** X19. Where the window fits into the image, [getPixelVector] returns
    the window itself: the [length] pixels of the row (of the column, for the
    vertical direction) centred on the position, in their order, none
    mirrored. *)
Theorem getPixelVector_window_inside (pixels : Image) (width : Z)
    (posY posX length : Z) (dir : direction) :
  rectangular width pixels →
  0 ≤ length → Z.rem length 2 ≠ 0 →
  0 ≤ posY < len pixels → 0 ≤ posX < width →
  match dir with
  | HORIZONTAL => Z.quot length 2 ≤ posX ∧ posX + Z.quot length 2 < width
  | VERTICAL => Z.quot length 2 ≤ posY ∧ posY + Z.quot length 2 < len pixels
  end →
  ∃ v, getPixelVector pixels posY posX length dir = Some v ∧ len v = length ∧
    ∀ k, 0 ≤ k < length →
      ∃ p, match dir with
           | HORIZONTAL => pixelAt pixels posY (posX - Z.quot length 2 + k)
           | VERTICAL => pixelAt pixels (posY - Z.quot length 2 + k) posX
           end = Some p ∧
           idx v k = Some (inject_Z (GrayPixel.y p)).
Proof.
  intros Hrect Hlen Hodd Hy Hx Hfit.
  destruct (odd_length_padding length Hlen Hodd) as [Hpad Hpad0].
  unfold getPixelVector. rewrite decide_False by done.
  set (padding := Z.quot length 2) in *.
  set (intensity := λ r col, inject_Z (from_option GrayPixel.y 0 (pixelAt pixels r col))).
  assert (∀ r col, 0 ≤ r < len pixels → 0 ≤ col < width →
            ∃ p, pixelAt pixels r col = Some p ∧
                 intensity r col = inject_Z (GrayPixel.y p)) as Hpixel.
  { intros r col Hr Hcol.
    destruct (proj2 (rectangular_pixelAt width pixels r col Hrect)) as [p Hp]; [done|].
    exists p. split; [done|]. unfold intensity. by rewrite Hp. }
  destruct dir.
  - replace (posX + padding - (posX - padding) + 1) with length by lia.
    destruct (mapM_seqZ_entries
                (λ i, row ← idx pixels posY;
                      let rowLength := len row in
                      currentPixel ←
                        (if decide (i < 0) then idx row (posX + abs i)
                         else if decide (rowLength ≤ i) then
                           let overlap := i - rowLength + 1 in idx row (posX - overlap)
                         else idx row i);
                      Some (inject_Z (GrayPixel.y currentPixel)))
                (intensity posY) (posX - padding) length Hlen)
      as (v & Hv & Hvlen & Hentries).
    { intros i Hi.
      destruct (proj2 (idx_is_Some pixels posY) Hy) as [row Hrow]. rewrite Hrow. simpl.
      rewrite (rectangular_row _ _ _ _ Hrect Hrow).
      rewrite !decide_False by lia.
      destruct (Hpixel posY i) as (p & Hp & ->); [done | lia |].
      unfold pixelAt in Hp. rewrite Hrow in Hp. simpl in Hp. by rewrite Hp. }
    exists v. split; [done|]. split; [done|]. intros k Hk.
    destruct (Hpixel posY (posX - padding + k)) as (p & Hp & Hint); [done | lia |].
    exists p. split; [done|]. by rewrite Hentries, Hint.
  - replace (posY + padding - (posY - padding) + 1) with length by lia.
    destruct (mapM_seqZ_entries
                (λ i, let columnLength := len pixels in
                      currentPixel ←
                        (if decide (i < 0) then pixelAt pixels (posY + abs i) posX
                         else if decide (columnLength ≤ i) then
                           let overlap := i - columnLength + 1 in
                           pixelAt pixels (posY - overlap) posX
                         else pixelAt pixels i posX);
                      Some (inject_Z (GrayPixel.y currentPixel)))
                (λ i, intensity i posX) (posY - padding) length Hlen)
      as (v & Hv & Hvlen & Hentries).
    { intros i Hi. simpl. rewrite !decide_False by lia.
      destruct (Hpixel i posX) as (p & Hp & ->); [lia | done |].
      by rewrite Hp. }
    exists v. split; [done|]. split; [done|]. intros k Hk.
    destruct (Hpixel (posY - padding + k) posX) as (p & Hp & Hint); [lia | done |].
    exists p. split; [done|]. by rewrite Hentries, Hint.
Qed.

Lemma getPixelVector_window_inside_witness :
  ∃ v, getPixelVector grid_image 1 2 5 HORIZONTAL = Some v ∧ len v = 5 ∧
    ∀ k, 0 ≤ k < 5 →
      ∃ p, pixelAt grid_image 1 (2 - Z.quot 5 2 + k) = Some p ∧
           idx v k = Some (inject_Z (GrayPixel.y p)).
Proof.
  apply (getPixelVector_window_inside grid_image 5 1 2 5 HORIZONTAL);
    [repeat constructor | lia | done | unfold len; simpl; lia | lia
    | change (Z.quot 5 2) with 2; lia].
Defined.

(** ** The linker on its own *)

Lemma edgeTracking_Some_in_bounds (order : list Point) (pixels : Image)
    (strong : gset Point) :
  is_Some (edgeTracking pixels strong order) →
  ∀ c, c ∈ order → is_Some (pixelAt pixels (Y c) (X c)).
Proof.
  unfold edgeTracking. revert pixels strong.
  induction order as [|w order IH]; intros pixels strong [st Hrun] c Hc.
  { by apply elem_of_nil in Hc. }
  simpl in Hrun.
  destruct (edgeTrackingStep (pixels, strong) w) as [[pixels1 strong1]|] eqn:Hstep;
    simpl in Hrun; [|done].
  apply edgeTrackingStep_Some in Hstep as (_ & _ & Hw & -> & _).
  apply elem_of_cons in Hc as [->|Hc]; [done|].
  apply (pixelAt_is_Some_shape (storeY 0 (Y w) (X w) pixels)); [apply shape_storeY|].
  apply (IH _ strong1); [by eexists | done].
Qed.

(** X20. [edgeTracking] over any sequence of points returns exactly when
    every point lies in the image.  Then the shape of the image is kept, the
    pixels at the points of the sequence have intensity 0 and their opacity,
    every other pixel is untouched, and the strong set has grown by points of
    the sequence only. *)
Theorem edgeTracking_blackens_the_visited (order : list Point) (pixels : Image)
    (strong : gset Point) :
  (is_Some (edgeTracking pixels strong order) ↔
   ∀ c, c ∈ order → is_Some (pixelAt pixels (Y c) (X c))) ∧
  ∀ out strong', edgeTracking pixels strong order = Some (out, strong') →
    shape out = shape pixels ∧
    strong ⊆ strong' ∧ strong' ⊆ strong ∪ list_to_set order ∧
    ∀ x y, ((x, y) ∈ order → pixelAt out y x = withY 0 <$> pixelAt pixels y x) ∧
           ((x, y) ∉ order → pixelAt out y x = pixelAt pixels y x).
Proof.
  split.
  - split; [apply edgeTracking_Some_in_bounds | apply edgeTracking_returns].
  - intros out strong' Hrun.
    split; [by eapply edgeTracking_shape|].
    destruct (edgeTracking_strong_bounds _ _ _ _ _ Hrun) as [Hlo Hhi].
    split; [done|]. split; [done|].
    assert (∀ c, c ∈ order → is_Some (pixelAt pixels (Y c) (X c))) as Hin.
    { apply (edgeTracking_Some_in_bounds order pixels strong). by eexists. }
    destruct (blacken_pixelAt order pixels Hin) as (out' & Hout' & _ & Hpix).
    pose proof (edgeTracking_image order pixels strong) as Himg.
    rewrite Hrun, Hout' in Himg. simpl in Himg. injection Himg as ->.
    apply Hpix.
Qed.

(** ** The pipeline as a threshold on the thinned gradient *)

(** On an image that is large enough the pipeline thins the gradient image
    and then keeps, of the thinned image, the pixels above the high
    threshold. *)
Lemma CannyEdgeDetect_thinned
    (atanDeg : Q → Q) (fmul : Q → Q → Q) (iter : gset Point → list Point)
    (pixels : Image) (width : Z) (blur : bool) :
  rectangular width pixels →
  (if blur then 3 else 2) ≤ width →
  (if blur then 3 else 2) ≤ len pixels →
  (∀ r, -(90) <= atanDeg r ∧ atanDeg r <= 90)%Q →
  (∀ weak, iter weak ≡ₚ elements weak) →
  ∃ thinned max,
    shape thinned = shape pixels ∧
    maxPixelValue_inv thinned (len thinned) 0 max ∧
    ∀ minRatio maxRatio,
      ∃ out, CannyEdgeDetect atanDeg fmul iter pixels blur minRatio maxRatio = Some out ∧
        shape out = shape pixels ∧
        ∀ x y q, pixelAt thinned y x = Some q →
          pixelAt out y x = Some (thresholded (fmul maxRatio (inject_Z max)) q).
Proof.
  intros Hrect Hw Hh Hatan Hiter. unfold CannyEdgeDetect.
  assert (∃ blurred, (if blur then gaussianBlur pixels 5 else Some pixels) = Some blurred ∧
                     shape blurred = shape pixels) as (blurred & -> & Hs1).
  { destruct blur; [|by exists pixels].
    destruct (gaussianBlur_returns pixels width 5 Hrect) as (out & Hout & Hs & _);
      [done | change (Z.of_N 5 / 2) with 2; lia | change (Z.of_N 5 / 2) with 2; lia |].
    by exists out. }
  simpl.
  pose proof (shape_rectangular width _ _ Hs1 Hrect) as Hrect1.
  pose proof (shape_len _ _ Hs1) as Hlen1.
  destruct (sobel_returns atanDeg blurred width Hrect1)
    as (magnitude & angles & -> & Hs2 & _ & Hsa & Hrange);
    [destruct blur; lia | destruct blur; lia |].
  simpl.
  pose proof (shape_rectangular width _ _ Hs2 Hrect1) as Hrect2.
  pose proof (shape_len _ _ Hs2) as Hlen2.
  destruct (nonMaximumSuppression_returns magnitude angles width Hrect2)
    as (thinned & -> & Hs3);
    [destruct blur; lia | by rewrite Hsa, Hs2 | by apply Hrange |].
  simpl.
  pose proof (shape_rectangular width _ _ Hs3 Hrect2) as Hrect3.
  destruct (maxPixelValue_inv_final thinned width Hrect3) as (max & -> & Hinv).
  simpl. exists thinned, max. split; [congruence|]. split; [done|].
  intros minRatio maxRatio.
  destruct (pipeline_tail iter thinned (fmul maxRatio (inject_Z max))
              (fmul minRatio (inject_Z max)) width Hiter Hrect3)
    as (out & -> & Hs4 & Hpix).
  exists out. split; [done|]. split; [congruence | done].
Qed.

(** X21. A higher upper ratio never adds an edge: when the product with
    [maxRatio2] is at least the product with [maxRatio1], every pixel of the
    result for [maxRatio2] is the pixel of the result for [maxRatio1] or that
    pixel with intensity 0, whatever the two lower ratios. *)
Theorem CannyEdgeDetect_higher_ratio_keeps_fewer_pixels
    (atanDeg : Q → Q) (fmul : Q → Q → Q) (iter : gset Point → list Point)
    (pixels : Image) (width : Z) (blur : bool)
    (minRatio1 minRatio2 maxRatio1 maxRatio2 : Q) :
  rectangular width pixels →
  (if blur then 3 else 2) ≤ width →
  (if blur then 3 else 2) ≤ len pixels →
  (∀ r, -(90) <= atanDeg r ∧ atanDeg r <= 90)%Q →
  (∀ weak, iter weak ≡ₚ elements weak) →
  (∀ m, 0 <= m → fmul maxRatio1 m <= fmul maxRatio2 m)%Q →
  ∃ out1 out2,
    CannyEdgeDetect atanDeg fmul iter pixels blur minRatio1 maxRatio1 = Some out1 ∧
    CannyEdgeDetect atanDeg fmul iter pixels blur minRatio2 maxRatio2 = Some out2 ∧
    ∀ x y p1, pixelAt out1 y x = Some p1 →
      pixelAt out2 y x = Some p1 ∨ pixelAt out2 y x = Some (withY 0 p1).
Proof.
  intros Hrect Hw Hh Hatan Hiter Hmul.
  destruct (CannyEdgeDetect_thinned atanDeg fmul iter pixels width blur
              Hrect Hw Hh Hatan Hiter) as (thinned & max & Hshape & (Hm0 & _) & Hruns).
  destruct (Hruns minRatio1 maxRatio1) as (out1 & Hout1 & Hs1 & Hp1).
  destruct (Hruns minRatio2 maxRatio2) as (out2 & Hout2 & Hs2 & Hp2).
  exists out1, out2. split; [done|]. split; [done|].
  intros x y p1 Hpix1.
  assert (is_Some (pixelAt thinned y x)) as [q Hq].
  { apply (pixelAt_is_Some_shape out1); [congruence | by eexists]. }
  rewrite (Hp1 _ _ _ Hq) in Hpix1. injection Hpix1 as <-.
  rewrite (Hp2 _ _ _ Hq). unfold thresholded.
  assert (fmul maxRatio1 (inject_Z max) <= fmul maxRatio2 (inject_Z max))%Q as Hle.
  { apply Hmul. by rewrite <- (Zle_Qle 0). }
  destruct (Qlt_bool (fmul maxRatio2 (inject_Z max)) (inject_Z (GrayPixel.y q))) eqn:H2.
  - apply Qlt_bool_iff in H2.
    rewrite (proj2 (Qlt_bool_iff _ _)) by by eapply Qle_lt_trans.
    by left.
  - right.
    destruct (Qlt_bool (fmul maxRatio1 (inject_Z max)) (inject_Z (GrayPixel.y q)));
      [done|]. by destruct q.
Qed.

Lemma CannyEdgeDetect_higher_ratio_keeps_fewer_pixels_witness :
  ∃ out1 out2,
    CannyEdgeDetect (λ _, 0%Q) Qmult elements ramp_image false (1 # 5) (2 # 5) = Some out1 ∧
    CannyEdgeDetect (λ _, 0%Q) Qmult elements ramp_image false (1 # 5) (4 # 5) = Some out2 ∧
    ∀ x y p1, pixelAt out1 y x = Some p1 →
      pixelAt out2 y x = Some p1 ∨ pixelAt out2 y x = Some (withY 0 p1).
Proof.
  apply (CannyEdgeDetect_higher_ratio_keeps_fewer_pixels
           (λ _, 0%Q) Qmult elements ramp_image 5 false);
    [repeat constructor | simpl; lia | unfold len; simpl; lia
    | intros r; split; vm_compute; discriminate
    | intros weak; reflexivity
    | intros m Hm; apply Qmult_le_compat_r; [vm_compute; discriminate | done]].
Defined.

(** ** The direction of a vertical gradient *)

Lemma row_constant_pixelAt (pixels : Image) (r c1 c2 : Z) (p1 p2 : GrayPixel.t) :
  row_constant pixels →
  pixelAt pixels r c1 = Some p1 → pixelAt pixels r c2 = Some p2 →
  GrayPixel.y p1 = GrayPixel.y p2.
Proof.
  unfold row_constant, pixelAt. intros Hconst H1 H2.
  destruct (idx pixels r) as [row|] eqn:Hrow; simplify_eq/=.
  apply idx_Some in Hrow as [_ Hrow].
  rewrite Forall_lookup in Hconst. destruct (Hconst _ _ Hrow) as [c Hc].
  rewrite Forall_lookup in Hc.
  apply idx_Some in H1 as [_ H1]. apply idx_Some in H2 as [_ H2].
  by rewrite (Hc _ _ H1), (Hc _ _ H2).
Qed.

(** On an image whose intensity changes from row to row only, the three
    entries of a row of the pane are equal, and the horizontal kernel gives
    zero. *)
Lemma sobel_X_row_constant (pixels : Image) (width y x : Z) (pane : Dense.t) (gx : Q) :
  rectangular width pixels → row_constant pixels →
  2 ≤ width → 2 ≤ len pixels →
  0 ≤ y < len pixels → 0 ≤ x < width →
  getSorroundingPixelMatrix pixels y x 3 = Some pane →
  convolve pane (Dense.mk 3 3 SOBEL_X) = Some gx →
  (gx == 0)%Q.
Proof.
  intros Hrect Hconst Hw Hh Hy Hx Hpane Hgx.
  destruct (proj2 (idx_is_Some pixels 0)) as [row0 Hrow0]; [lia|].
  assert (∀ i j, 0 ≤ i < 3 → 0 ≤ j < 3 → At pane i j = At pane i 0) as Hrow.
  { intros i j Hi Hj.
    destruct (getSorroundingPixelMatrix_At pixels y x 3 row0 pane i j Hrow0 Hpane)
      as (p & Hp & ->); [lia | done | done |].
    destruct (getSorroundingPixelMatrix_At pixels y x 3 row0 pane i 0 Hrow0 Hpane)
      as (p' & Hp' & ->); [lia | done | lia |].
    by rewrite (row_constant_pixelAt _ _ _ _ _ _ Hconst Hp Hp'). }
  destruct (getSorroundingPixelMatrix_returns width pixels y x 3 Hrect)
    as (pane' & Hpane' & Hr & Hc & Hd); try done; try (change (Z.quot 3 2) with 1; lia).
  rewrite Hpane in Hpane'. injection Hpane' as <-.
  destruct pane as [r c data]. simpl in Hr, Hc, Hd. subst r c.
  unfold len in Hd.
  do 9 (destruct data as [|? data]; [simpl in Hd; lia|]).
  destruct data; [|simpl in Hd; lia].
  pose proof (Hrow 0 1 ltac:(lia) ltac:(lia)) as H01.
  pose proof (Hrow 0 2 ltac:(lia) ltac:(lia)) as H02.
  pose proof (Hrow 1 1 ltac:(lia) ltac:(lia)) as H11.
  pose proof (Hrow 1 2 ltac:(lia) ltac:(lia)) as H12.
  pose proof (Hrow 2 1 ltac:(lia) ltac:(lia)) as H21.
  pose proof (Hrow 2 2 ltac:(lia) ltac:(lia)) as H22.
  vm_compute in H01, H02, H11, H12, H21, H22. simplify_eq.
  rewrite convolve_data in Hgx by done. simpl in Hgx. injection Hgx as <-. ring.
Qed.

(** Every direction that [sobel] stores for such an image is zero. *)
Lemma sobel_row_constant_directions (atanDeg : Q → Q) (pixels out : Image)
    (angles : list (list Q)) (width : Z) :
  rectangular width pixels → row_constant pixels →
  2 ≤ width → 2 ≤ len pixels →
  sobel atanDeg pixels = Some (out, angles) →
  Forall (Forall (λ d, d = 0%Q)) angles.
Proof.
  intros Hrect Hconst Hw Hh. unfold sobel. simpl.
  match goal with
  | |- (?o ≫= _) = _ → _ => destruct o as [rows|] eqn:Hrows
  end; simpl; [|done].
  intros [= <- <-]. apply Forall_fmap.
  apply (mapM_Forall _ _ _ _ Hrows). intros y orow Hy Horow. simpl.
  apply elem_of_seqZ in Hy.
  destruct (idx pixels y) as [row|] eqn:Hrow; simpl in Horow; [|done].
  pose proof (rectangular_row _ _ _ _ Hrect Hrow) as Hlen.
  apply Forall_fmap.
  apply (mapM_Forall _ _ _ _ Horow). intros x q Hx Hq.
  apply elem_of_seqZ in Hx.
  destruct (getSorroundingPixelMatrix pixels y x 3) as [pane|] eqn:Hpane;
    simpl in Hq; [|done].
  destruct (convolve pane (Dense.mk 3 3 SOBEL_X)) as [gx|] eqn:Hgx;
    simpl in Hq; [|done].
  destruct (convolve pane (Dense.mk 3 3 SOBEL_Y)) as [gy|] eqn:Hgy;
    simpl in Hq; [|done].
  injection Hq as <-. simpl.
  assert (gx == 0)%Q as Hzero.
  { apply (sobel_X_row_constant pixels width y x pane); try done; lia. }
  by rewrite (proj2 (Qeq_bool_iff gx 0) Hzero).
Qed.

(** X22. On an image whose intensity changes from row to row only, a
    horizontal edge for instance, the horizontal gradient is zero everywhere
    and [sobel] stores the direction 0 for every pixel, not 90 or -90: the
    direction is set to 0 as soon as one of the two gradients is zero. *)
Theorem sobel_direction_of_vertical_gradient_is_zero
    (atanDeg : Q → Q) (pixels : Image) (width : Z) :
  rectangular width pixels → row_constant pixels →
  2 ≤ width → 2 ≤ len pixels →
  ∃ out angles,
    sobel atanDeg pixels = Some (out, angles) ∧
    length <$> angles = shape pixels ∧
    Forall (Forall (λ d, d = 0%Q)) angles.
Proof.
  intros Hrect Hconst Hw Hh.
  destruct (sobel_returns atanDeg pixels width Hrect Hw Hh)
    as (out & angles & Hrun & _ & _ & Hshape & _).
  exists out, angles. split; [done|]. split; [done|].
  by apply (sobel_row_constant_directions atanDeg pixels out angles width).
Qed.

Lemma sobel_direction_of_vertical_gradient_is_zero_witness :
  ∃ out angles,
    sobel (λ _, 90%Q) rows_image = Some (out, angles) ∧
    length <$> angles = shape rows_image ∧
    Forall (Forall (λ d, d = 0%Q)) angles.
Proof.
  apply (sobel_direction_of_vertical_gradient_is_zero (λ _, 90%Q) rows_image 3);
    [repeat constructor | | lia | unfold len; simpl; lia].
  repeat constructor; eexists; repeat constructor.
Defined.

(** ** Horizontal edges are not thinned *)

Lemma idx_fmap {A B : Type} (f : A → B) (l : list A) (i : Z) :
  idx (f <$> l) i = f <$> idx l i.
Proof. unfold idx. case_decide; [apply list_lookup_fmap | done]. Qed.

(** The pixel that [sobel] stores at a position. *)
Lemma sobel_pixel (atanDeg : Q → Q) (pixels out : Image) (angles : list (list Q))
    (y x : Z) (p : GrayPixel.t) :
  sobel atanDeg pixels = Some (out, angles) →
  pixelAt out y x = Some p →
  ∃ pane gx gy,
    getSorroundingPixelMatrix pixels y x 3 = Some pane ∧
    convolve pane (Dense.mk 3 3 SOBEL_X) = Some gx ∧
    convolve pane (Dense.mk 3 3 SOBEL_Y) = Some gy ∧
    p = GrayPixel.mk (uint8_sqrt (gx * gx + gy * gy)) 255.
Proof.
  unfold sobel. simpl.
  match goal with
  | |- (?o ≫= _) = _ → _ => destruct o as [rows|] eqn:Hrows
  end; simpl; [|done].
  intros [= <- <-] Hp. unfold pixelAt in Hp.
  change map with (@fmap list _) in Hp. rewrite idx_fmap in Hp.
  destruct (idx rows y) as [row|] eqn:Hrow; simpl in Hp; [|done].
  rewrite idx_fmap in Hp.
  destruct (idx row x) as [[p' angle]|] eqn:Hentry; simpl in Hp; [|done].
  injection Hp as ->.
  pose proof (idx_bounds _ _ _ Hrow) as Hy.
  pose proof (length_mapM _ _ _ Hrows) as Hlen. rewrite length_seqZ in Hlen.
  destruct (mapM_seqZ_idx _ _ _ _ y Hrows) as (row' & Hrow' & Hidx).
  { unfold len in *. lia. }
  rewrite Z.sub_0_r, Hrow in Hidx. injection Hidx as <-.
  destruct (idx pixels y) as [prow|]; simpl in Hrow'; [|done].
  pose proof (idx_bounds _ _ _ Hentry) as Hx.
  pose proof (length_mapM _ _ _ Hrow') as Hlen'. rewrite length_seqZ in Hlen'.
  destruct (mapM_seqZ_idx _ _ _ _ x Hrow') as (entry & Hbody & Hidx).
  { unfold len in *. lia. }
  rewrite Z.sub_0_r, Hentry in Hidx. injection Hidx as <-.
  destruct (getSorroundingPixelMatrix pixels y x 3) as [pane|];
    simpl in Hbody; [|done].
  destruct (convolve pane (Dense.mk 3 3 SOBEL_X)) as [gx|] eqn:Hgx;
    simpl in Hbody; [|done].
  destruct (convolve pane (Dense.mk 3 3 SOBEL_Y)) as [gy|] eqn:Hgy;
    simpl in Hbody; [|done].
  injection Hbody as <- _. by exists pane, gx, gy.
Qed.

(** On an image whose intensity changes from row to row only, the panes
    around two pixels of a row are the same. *)
Lemma pane_row_constant (pixels : Image) (width y x1 x2 : Z) (pane1 pane2 : Dense.t) :
  rectangular width pixels → row_constant pixels →
  2 ≤ width → 2 ≤ len pixels →
  0 ≤ y < len pixels → 0 ≤ x1 < width → 0 ≤ x2 < width →
  getSorroundingPixelMatrix pixels y x1 3 = Some pane1 →
  getSorroundingPixelMatrix pixels y x2 3 = Some pane2 →
  pane1 = pane2.
Proof.
  intros Hrect Hconst Hw Hh Hy Hx1 Hx2 Hpane1 Hpane2.
  destruct (proj2 (idx_is_Some pixels 0)) as [row0 Hrow0]; [lia|].
  assert (∀ i j, 0 ≤ i < 3 → 0 ≤ j < 3 → At pane1 i j = At pane2 i j) as Hsame.
  { intros i j Hi Hj.
    destruct (getSorroundingPixelMatrix_At pixels y x1 3 row0 pane1 i j Hrow0 Hpane1)
      as (p & Hp & ->); [lia | done | done |].
    destruct (getSorroundingPixelMatrix_At pixels y x2 3 row0 pane2 i j Hrow0 Hpane2)
      as (p' & Hp' & ->); [lia | done | done |].
    by rewrite (row_constant_pixelAt _ _ _ _ _ _ Hconst Hp Hp'). }
  assert (∀ x pane, 0 ≤ x < width → getSorroundingPixelMatrix pixels y x 3 = Some pane →
            ∃ d0 d1 d2 d3 d4 d5 d6 d7 d8,
              pane = Dense.mk 3 3 [d0; d1; d2; d3; d4; d5; d6; d7; d8]) as Hnine.
  { intros x pane Hx Hpane.
    destruct (getSorroundingPixelMatrix_returns width pixels y x 3 Hrect)
      as (pane' & Hpane' & Hr & Hc & Hd); try done; try (change (Z.quot 3 2) with 1; lia).
    rewrite Hpane in Hpane'. injection Hpane' as <-.
    destruct pane as [r c data]. simpl in Hr, Hc, Hd. subst r c.
    unfold len in Hd.
    do 9 (destruct data as [|? data]; [simpl in Hd; lia|]).
    destruct data; [|simpl in Hd; lia]. by eexists _, _, _, _, _, _, _, _, _. }
  destruct (Hnine x1 pane1 Hx1 Hpane1) as (a0 & a1 & a2 & a3 & a4 & a5 & a6 & a7 & a8 & ->).
  destruct (Hnine x2 pane2 Hx2 Hpane2) as (b0 & b1 & b2 & b3 & b4 & b5 & b6 & b7 & b8 & ->).
  pose proof (Hsame 0 0 ltac:(lia) ltac:(lia)) as H00.
  pose proof (Hsame 0 1 ltac:(lia) ltac:(lia)) as H01.
  pose proof (Hsame 0 2 ltac:(lia) ltac:(lia)) as H02.
  pose proof (Hsame 1 0 ltac:(lia) ltac:(lia)) as H10.
  pose proof (Hsame 1 1 ltac:(lia) ltac:(lia)) as H11.
  pose proof (Hsame 1 2 ltac:(lia) ltac:(lia)) as H12.
  pose proof (Hsame 2 0 ltac:(lia) ltac:(lia)) as H20.
  pose proof (Hsame 2 1 ltac:(lia) ltac:(lia)) as H21.
  pose proof (Hsame 2 2 ltac:(lia) ltac:(lia)) as H22.
  vm_compute in H00, H01, H02, H10, H11, H12, H20, H21, H22. by simplify_eq.
Qed.

Lemma row_constant_pairwise (pixels : Image) :
  (∀ r c1 c2 p1 p2, pixelAt pixels r c1 = Some p1 → pixelAt pixels r c2 = Some p2 →
     GrayPixel.y p1 = GrayPixel.y p2) →
  row_constant pixels.
Proof.
  intros Hpair. unfold row_constant. apply Forall_lookup. intros i row Hrow.
  destruct row as [|p0 row'] eqn:Erow; [by exists 0|].
  exists (GrayPixel.y p0). apply Forall_lookup. intros j p Hp.
  apply (Hpair (Z.of_nat i) (Z.of_nat j) 0); unfold pixelAt;
    rewrite idx_of_nat, Hrow; simpl.
  - by rewrite idx_of_nat.
  - done.
Qed.

(** X23. A horizontal edge is not thinned: on an image whose intensity
    changes from row to row only, the direction 0 that [sobel] stores makes
    [nonMaximumSuppression] compare each pixel of the gradient image with its
    left and right neighbours, which have its own magnitude, and the gradient
    image is returned as it is. *)
Theorem horizontal_edges_are_not_thinned
    (atanDeg : Q → Q) (pixels : Image) (width : Z) :
  rectangular width pixels → row_constant pixels →
  2 ≤ width → 2 ≤ len pixels →
  ∃ magnitude angles,
    sobel atanDeg pixels = Some (magnitude, angles) ∧
    nonMaximumSuppression magnitude angles = Some magnitude.
Proof.
  intros Hrect Hconst Hw Hh.
  destruct (sobel_returns atanDeg pixels width Hrect Hw Hh)
    as (magnitude & angles & Hrun & Hshape & _ & Hsa & _).
  exists magnitude, angles. split; [done|].
  pose proof (shape_rectangular width _ _ Hshape Hrect) as Hrect'.
  pose proof (shape_len _ _ Hshape) as Hlen.
  pose proof (sobel_row_constant_directions atanDeg pixels magnitude angles width
                Hrect Hconst Hw Hh Hrun) as Hzero.
  assert (row_constant magnitude) as Hconst'.
  { apply row_constant_pairwise. intros r c1 c2 p1 p2 Hp1 Hp2.
    destruct (proj1 (rectangular_pixelAt width magnitude r c1 Hrect')) as [Hr Hc1];
      [by eauto|].
    destruct (proj1 (rectangular_pixelAt width magnitude r c2 Hrect')) as [_ Hc2];
      [by eauto|].
    destruct (sobel_pixel _ _ _ _ _ _ _ Hrun Hp1) as (pane1 & gx1 & gy1 & Hpane1 & Hx1 & Hy1 & ->).
    destruct (sobel_pixel _ _ _ _ _ _ _ Hrun Hp2) as (pane2 & gx2 & gy2 & Hpane2 & Hx2 & Hy2 & ->).
    assert (pane1 = pane2) as ->.
    { apply (pane_row_constant pixels width r c1 c2); try done; lia. }
    by simplify_eq. }
  assert (in_range angles) as Hrange.
  { unfold in_range. eapply Forall_impl; [exact Hzero|]. intros row Hrow. simpl.
    eapply Forall_impl; [exact Hrow|]. intros d ->. simpl. split; vm_compute; discriminate. }
  destruct (nonMaximumSuppression_returns magnitude angles width Hrect')
    as (out & Hout & Hs); [lia | by rewrite Hsa | done |].
  rewrite Hout. f_equal. apply image_ext; [done|].
  intros x y. destruct (pixelAt magnitude y x) as [r|] eqn:Hr.
  - destruct (nonMaximumSuppression_pixel _ _ _ _ _ _ Hout Hs Hr) as (p & q & Hpq & ->).
    f_equal.
    assert (GrayPixel.y p = GrayPixel.y r ∧ GrayPixel.y q = GrayPixel.y r) as [-> ->].
    { revert Hpq. unfold getPixelInGradientDirection.
      destruct (idx magnitude 0) as [row0|]; simpl; [|done].
      destruct (idx angles y) as [dirRow|] eqn:HdirRow; simpl; [|done].
      destruct (idx dirRow x) as [dirVal|] eqn:HdirVal; simpl; [|done].
      assert (dirVal = 0%Q) as ->.
      { apply idx_Some in HdirRow as [_ HdirRow]. apply idx_Some in HdirVal as [_ HdirVal].
        rewrite Forall_lookup in Hzero. specialize (Hzero _ _ HdirRow).
        rewrite Forall_lookup in Hzero. apply (Hzero _ _ HdirVal). }
      change (selectNeighbours 0 x y) with (Some (y, x + 1, y, x - 1)). simpl.
      assert (fallback y (len magnitude) y = y) as ->
        by (unfold fallback; case_decide; done).
      intros Hpq.
      destruct (pixelAt magnitude y (fallback (x + 1) _ x)) as [p'|] eqn:Hp';
        simpl in Hpq; [|done].
      destruct (pixelAt magnitude y (fallback (x - 1) _ x)) as [q'|] eqn:Hq';
        simpl in Hpq; [|done].
      injection Hpq as <- <-.
      split; by eapply row_constant_pixelAt. }
    by rewrite Z.ltb_irrefl.
  - apply eq_None_not_Some. intros Hsome.
    apply (pixelAt_is_Some_shape _ magnitude) in Hsome; [|done].
    rewrite Hr in Hsome. by destruct Hsome.
Qed.

Lemma horizontal_edges_are_not_thinned_witness :
  ∃ magnitude angles,
    sobel (λ _, 90%Q) rows_image = Some (magnitude, angles) ∧
    nonMaximumSuppression magnitude angles = Some magnitude.
Proof.
  apply (horizontal_edges_are_not_thinned (λ _, 90%Q) rows_image 3);
    [repeat constructor | | lia | unfold len; simpl; lia].
  repeat constructor; eexists; repeat constructor.
Defined.
